(** * Rebalancing and execution engine of the trading bot

    A shallow embedding of the allocation planner and the order synthesis
    (rebalancer.py), of the metric, filter and ranking code of the stock
    picker (stock_picker.py), of the rate-gated executor (executor.py), of
    the dry-run simulator (dry_run.py) and of the bulk lookups of the
    market data service (market_data_service.py), with the properties
    that the specification states about them and further properties read
    off the code.

    Conventions.  Python [Decimal] and [float] values are finite and are
    rationals ([Q]).  Every arithmetic operation on [Decimal] rounds its
    exact result to the 28 significant digits of the default context, ties
    to even ([decimal_round]); comparisons, [min], [abs] of a rounded value
    and [int] are exact.  Where a [Decimal] is turned into a [float] (the
    gate of the executor, the entries of the dry run) the conversion and
    the multiplication round to the 53 bits of a double, ties to even
    ([float_round]).  The exponent ranges of the two formats are not
    modelled: no operation overflows or underflows.  The clock arithmetic
    of the rate limiter and the statistics of the stock picker, which are
    [float] computations, are read over exact rationals.  Python [int] is
    [Z].  A [dict] keyed by strings is a [gmap string _].  A Python
    exception is a value of the [result] type. *)

From Stdlib Require Import QArith Qround Qabs Qminmax Qpower Lqa.
From stdpp Require Import gmap strings list sorting.

Local Open Scope Q_scope.

(** ** Results of fallible code *)

Inductive exn : Type :=
  | DivisionByZero      (* decimal.DivisionByZero *)
  | IndexError          (* deque index out of range *)
  | PlacementError.     (* whatever the order service raises *)

Inductive result (A : Type) : Type :=
  | Ok (a : A)
  | Raise (e : exn).
Arguments Ok {A} a.
Arguments Raise {A} e.

(** ** Arithmetic helpers *)

(** [int(d)] and [d.to_integral_value(rounding=ROUND_DOWN)]: truncation
    towards zero. *)
Definition Qtrunc (q : Q) : Z := Z.quot (Qnum q) (Zpos (Qden q)).

Definition Qltb (x y : Q) : bool := negb (Qle_bool y x).

(** *** Rounding to a number of significant digits *)

(** The largest [k] with [beta ^ k <= n], for [1 <= n] and [2 <= beta]:
    one less than the number of digits of [n] in base [beta]. *)
Fixpoint ilog_aux (fuel : nat) (beta n : Z) : Z :=
  match fuel with
  | O => 0%Z
  | S fuel =>
    if (n <? beta)%Z then 0%Z else (1 + ilog_aux fuel beta (n / beta))%Z
  end.

Definition ilog (beta n : Z) : Z :=
  ilog_aux (S (Z.to_nat (Z.log2 n))) beta n.

(** The nearest integer, a tie going to the even one
    ([ROUND_HALF_EVEN], and the rounding of IEEE 754 doubles). *)
Definition round_half_even (q : Q) : Z :=
  let f := Qfloor q in
  match Qcompare (q - inject_Z f) (1 # 2) with
  | Lt => f
  | Gt => (f + 1)%Z
  | Eq => if Z.even f then f else (f + 1)%Z
  end.

(** A positive [a] rounded to [prec] significant digits in base [beta]:
    [a] is scaled by the power [beta ^ e] that leaves [prec] digits before
    the point, rounded to an integer and scaled back.  The digit counts
    of numerator and denominator place [e] within one, and a comparison
    settles it. *)
Definition round_pos (beta prec : Z) (a : Q) : Q :=
  let b := inject_Z beta in
  let k := (ilog beta (Qnum a) - ilog beta (Zpos (Qden a)))%Z in
  let e0 := (k - prec)%Z in
  let e := if Qltb (a / b ^ e0) (b ^ prec) then e0 else (e0 + 1)%Z in
  inject_Z (round_half_even (a / b ^ e)) * b ^ e.

Definition round_sig (beta prec : Z) (x : Q) : Q :=
  let x := Qred x in
  match Qnum x with
  | Z0 => 0
  | Zpos _ => Qred (round_pos beta prec x)
  | Zneg _ => Qred (- round_pos beta prec (- x))
  end.

(** The rounding of the default [decimal] context ([prec=28],
    [rounding=ROUND_HALF_EVEN]) and of a double (53 bits). *)
Definition decimal_round : Q -> Q := round_sig 10 28.
Definition float_round : Q -> Q := round_sig 2 53.

(** The largest relative error of the two: half a unit in the last
    place. *)
Definition decimal_eps : Q := 5 # 10000000000000000000000000000.
Definition float_eps : Q := 1 # 9007199254740992.

(** [Decimal.__add__], [__sub__], [__mul__], and [__truediv__] by a
    divisor the code has checked to be positive. *)
Definition decimal_add (x y : Q) : Q := decimal_round (x + y).
Definition decimal_sub (x y : Q) : Q := decimal_round (x - y).
Definition decimal_mul (x y : Q) : Q := decimal_round (x * y).
Definition decimal_quot (x y : Q) : Q := decimal_round (x / y).

(** [float(d)] of a [Decimal], [float(n)] of an [int], and the product of
    two floats. *)
Definition float_of_decimal (d : Q) : Q := float_round d.
Definition float_of_int (n : Z) : Q := float_round (inject_Z n).
Definition float_mul (x y : Q) : Q := float_round (x * y).

(** ** Data model (models.py) *)

Module Position.
Record t : Type := mk {
  security_id : string;
  symbol : string;
  quantity : Q;
  market_value : Q;
  book_value : Q;
  currency : string;
  average_price : Q;
  current_price : Q;
  gain_loss : Q;
  gain_loss_pct : Q
}.
End Position.

Module StockScore.
Record t : Type := mk {
  symbol : string;
  name : string;
  sector : string;
  market_cap : Q;
  avg_volume : Q;
  return_90d : Q;
  return_30d : Q;
  volatility : Q;
  sharpe_ratio : Q;
  composite_score : Q;
  is_etf : bool
}.
End StockScore.

Module PortfolioTarget.
Record t : Type := mk {
  symbol : string;
  security_id : string;
  target_weight : Q;
  target_value : Q;
  current_value : Q;
  current_weight : Q;
  drift_pct : Q;
  action : string;          (* "buy", "sell", "hold" *)
  trade_value : Q;
  trade_quantity : Z
}.
End PortfolioTarget.

Module PortfolioSummary.
Record t : Type := mk {
  total_value : Q;
  cash_balance : Q;
  positions_value : Q;
  num_holdings : nat;
  targets : list PortfolioTarget.t
}.
End PortfolioSummary.

Inductive OrderType : Type := BUY | SELL.
Inductive OrderSubType : Type := MARKET | LIMIT.

Module OrderRequest.
Record t : Type := mk {
  security_id : string;
  symbol : string;
  quantity : Z;
  order_type : OrderType;
  order_sub_type : OrderSubType;
  limit_price : Q;
  time_in_force : string
}.
End OrderRequest.

Module OrderResponse.
Record t : Type := mk {
  order_id : string;
  security_id : string;
  symbol : string;
  quantity : Z;
  order_type : string;
  status : string;
  limit_price : option Q;
  filled_at : option string;
  created_at : option string
}.
End OrderResponse.

(** ** Allocation planner (rebalancer.py) *)

Module Rebalancer.

(** The three knobs [calculate_targets] reads from the configuration,
    after their defaults (5.0, 1.0, 5000.0) have been applied. *)
Record config : Type := mk_config {
  drift_threshold_pct : Q;
  min_trade_value_cad : Q;
  max_single_trade_cad : Q
}.

Definition default_config : config :=
  {| drift_threshold_pct := 5; min_trade_value_cad := 1;
     max_single_trade_cad := 5000 |}.

(** [Decimal.__truediv__] of a dividend that is not zero: a zero divisor
    raises. *)
Definition decimal_div (x y : Q) : result Q :=
  if Qeq_bool y 0 then Raise DivisionByZero else Ok (decimal_quot x y).

(** [sum(p.market_value for p in current_positions)]: the additions
    start from the integer 0. *)
Definition sum_market_value (ps : list Position.t) : Q :=
  foldl (fun acc p => decimal_add acc (Position.market_value p)) 0 ps.

(** [{p.symbol: p for p in current_positions}]: a later position of the
    same symbol replaces an earlier one. *)
Definition build_pos_map (ps : list Position.t) : gmap string Position.t :=
  foldl (fun m p => <[Position.symbol p := p]> m) ∅ ps.

(** The buy/sell/hold decision of one selected symbol: the action and the
    trade quantity. *)
Definition decide_trade (cfg : config) (drift_pct trade_value price : Q)
  : string * Z :=
  let abs_trade := Qabs trade_value in
  if Qltb drift_pct (drift_threshold_pct cfg)
     || Qltb abs_trade (min_trade_value_cad cfg)
  then ("hold"%string, 0%Z)
  else if Qltb 0 trade_value then
    let capped := Qmin abs_trade (max_single_trade_cad cfg) in
    ("buy"%string, Qtrunc (decimal_quot capped price))
  else
    let capped := Qmin abs_trade (max_single_trade_cad cfg) in
    ("sell"%string, Qtrunc (decimal_quot capped price)).

(** Body of the loop over the selected symbols; [None] is [continue]. *)
Definition selected_target (cfg : config)
    (total_value target_weight target_value_per : Q)
    (pos_map : gmap string Position.t)
    (security_prices : gmap string Q) (security_ids : gmap string string)
    (symbol : string) : option PortfolioTarget.t :=
  let current_pos := pos_map !! symbol in
  let price := default 0 (security_prices !! symbol) in
  let sec_id := default EmptyString (security_ids !! symbol) in
  if Qle_bool price 0 then None
  else
    let current_value :=
      match current_pos with
      | Some p => Position.market_value p
      | None => 0
      end in
    let current_weight :=
      if Qltb 0 total_value
      then decimal_quot current_value total_value else 0 in
    let drift_pct :=
      if Qltb 0 target_weight
      then decimal_mul
             (decimal_quot (Qabs (decimal_sub current_weight target_weight))
                           target_weight)
             100
      else 0 in
    let trade_value := decimal_sub target_value_per current_value in
    let abs_trade := Qabs trade_value in
    let '(action, trade_qty) := decide_trade cfg drift_pct trade_value price in
    Some {| PortfolioTarget.symbol := symbol;
            PortfolioTarget.security_id := sec_id;
            PortfolioTarget.target_weight := target_weight;
            PortfolioTarget.target_value := target_value_per;
            PortfolioTarget.current_value := current_value;
            PortfolioTarget.current_weight := current_weight;
            PortfolioTarget.drift_pct := drift_pct;
            PortfolioTarget.action := action;
            PortfolioTarget.trade_value := abs_trade;
            PortfolioTarget.trade_quantity := trade_qty |}.

(** Body of the loop over the current positions: a held symbol that is
    not selected is liquidated.  (The local [price] of the Python loop is
    never used and is left out.) *)
Definition liquidation_target (total_value : Q)
    (selected_symbols : list string) (pos : Position.t)
  : option PortfolioTarget.t :=
  if negb (bool_decide (Position.symbol pos ∈ selected_symbols))
     && Qltb 0 (Position.quantity pos)
  then
    Some {| PortfolioTarget.symbol := Position.symbol pos;
            PortfolioTarget.security_id := Position.security_id pos;
            PortfolioTarget.target_weight := 0;
            PortfolioTarget.target_value := 0;
            PortfolioTarget.current_value := Position.market_value pos;
            PortfolioTarget.current_weight :=
              if Qltb 0 total_value
              then decimal_quot (Position.market_value pos) total_value
              else 0;
            PortfolioTarget.drift_pct := 100;
            PortfolioTarget.action := "sell";
            PortfolioTarget.trade_value := Position.market_value pos;
            PortfolioTarget.trade_quantity :=
              Qtrunc (Position.quantity pos) |}
  else None.

Definition calculate_targets (cfg : config)
    (selected_stocks : list StockScore.t)
    (current_positions : list Position.t)
    (cash_balance : Q)
    (security_prices : gmap string Q)
    (security_ids : gmap string string)
  : result PortfolioSummary.t :=
  let selected_symbols := StockScore.symbol <$> selected_stocks in
  let positions_value := sum_market_value current_positions in
  let total_value := decimal_add cash_balance positions_value in
  if Qle_bool total_value 0 then
    Ok {| PortfolioSummary.total_value := total_value;
          PortfolioSummary.cash_balance := cash_balance;
          PortfolioSummary.positions_value := positions_value;
          PortfolioSummary.num_holdings := length current_positions;
          PortfolioSummary.targets := [] |}
  else
    let num_buckets := length selected_symbols in
    match decimal_div 1 (inject_Z (Z.of_nat num_buckets)) with
    | Raise e => Raise e
    | Ok target_weight =>
      let target_value_per := decimal_mul total_value target_weight in
      let pos_map := build_pos_map current_positions in
      let targets :=
        omap (selected_target cfg total_value target_weight
                target_value_per pos_map security_prices security_ids)
             selected_symbols
        ++ omap (liquidation_target total_value selected_symbols)
             current_positions in
      Ok {| PortfolioSummary.total_value := total_value;
            PortfolioSummary.cash_balance := cash_balance;
            PortfolioSummary.positions_value := positions_value;
            PortfolioSummary.num_holdings := length current_positions;
            PortfolioSummary.targets := targets |}
    end.

(** Body of the loop of [generate_orders], on the pair
    ([sell_orders], [buy_orders]). *)
Definition order_step (acc : list OrderRequest.t * list OrderRequest.t)
    (target : PortfolioTarget.t)
  : list OrderRequest.t * list OrderRequest.t :=
  let '(sell_orders, buy_orders) := acc in
  let qty := PortfolioTarget.trade_quantity target in
  let order (side : OrderType) (price : Q) :=
    {| OrderRequest.security_id := PortfolioTarget.security_id target;
       OrderRequest.symbol := PortfolioTarget.symbol target;
       OrderRequest.quantity := qty;
       OrderRequest.order_type := side;
       OrderRequest.order_sub_type := LIMIT;
       OrderRequest.limit_price := price;
       OrderRequest.time_in_force := "day" |} in
  if String.eqb (PortfolioTarget.action target) "hold" || (qty <? 1)%Z
  then acc
  else if String.eqb (PortfolioTarget.action target) "sell" then
    let price :=
      if (0 <? qty)%Z
      then decimal_quot (PortfolioTarget.current_value target) (inject_Z qty)
      else 0 in
    (sell_orders ++ [order SELL price], buy_orders)
  else if String.eqb (PortfolioTarget.action target) "buy" then
    let price :=
      if (0 <? qty)%Z && Qltb 0 (PortfolioTarget.current_value target)
      then decimal_quot (PortfolioTarget.current_value target) (inject_Z qty)
      else if (0 <? qty)%Z
      then decimal_quot (PortfolioTarget.target_value target) (inject_Z qty)
      else 0 in
    (sell_orders, buy_orders ++ [order BUY price])
  else acc.

Definition generate_orders (summary : PortfolioSummary.t)
  : list OrderRequest.t * list OrderRequest.t :=
  foldl order_step ([], []) (PortfolioSummary.targets summary).

(** Test data. *)
Definition stock (sym : string) : StockScore.t :=
  StockScore.mk sym sym "Unknown" 0 0 0 0 0 0 0 false.

Definition held (sym : string) (qty price : Q) : Position.t :=
  Position.mk ("sec-" ++ sym) sym qty (qty * price) 0 "CAD" price price
              (qty * price - 0) 0.

Definition quotes (l : list (string * Q)) : gmap string Q :=
  list_to_map l.

Definition nine_symbols : list string :=
  ["A"; "B"; "C"; "D"; "E"; "F"; "G"; "H"; "I"].

Definition targets_of (r : result PortfolioSummary.t)
  : list PortfolioTarget.t :=
  match r with
  | Ok s => PortfolioSummary.targets s
  | Raise _ => []
  end.

(** The tests of the two loops of [calculate_targets]: a selected symbol
    gets a target when its price is positive, a position when its symbol
    is not selected and its quantity is positive. *)
Definition priced (security_prices : gmap string Q) (symbol : string)
  : bool :=
  Qltb 0 (default 0 (security_prices !! symbol)).

Definition to_liquidate (selected_symbols : list string) (pos : Position.t)
  : bool :=
  negb (bool_decide (Position.symbol pos ∈ selected_symbols))
  && Qltb 0 (Position.quantity pos).

(** The sum of the target weights of some targets. *)
Definition sum_target_weight (ts : list PortfolioTarget.t) : Q :=
  foldr (fun t acc => PortfolioTarget.target_weight t + acc) 0 ts.

(** The value that the limit price of an order synthesized from a target
    stands for: the current value for a sell, and for a buy the current
    value if there is one, else the target value. *)
Definition notional (side : OrderType) (t : PortfolioTarget.t) : Q :=
  match side with
  | SELL => PortfolioTarget.current_value t
  | BUY =>
      if Qltb 0 (PortfolioTarget.current_value t)
      then PortfolioTarget.current_value t
      else PortfolioTarget.target_value t
  end.

Definition action_of (side : OrderType) : string :=
  match side with SELL => "sell" | BUY => "buy" end.

(** Order [o] is the order of side [side] synthesized from target [t]. *)
Definition order_from (side : OrderType) (t : PortfolioTarget.t)
    (o : OrderRequest.t) : Prop :=
  PortfolioTarget.action t = action_of side
  /\ (1 <= PortfolioTarget.trade_quantity t)%Z
  /\ OrderRequest.order_type o = side
  /\ OrderRequest.order_sub_type o = LIMIT
  /\ OrderRequest.symbol o = PortfolioTarget.symbol t
  /\ OrderRequest.security_id o = PortfolioTarget.security_id t
  /\ OrderRequest.quantity o = PortfolioTarget.trade_quantity t
  /\ OrderRequest.limit_price o
     = decimal_quot (notional side t)
         (inject_Z (PortfolioTarget.trade_quantity t)).

End Rebalancer.

(** ** Metric calculator and ranker (stock_picker.py) *)

Module StockPicker.

Definition RISK_FREE_RATE : Q := 4 # 100.

(** What [yf.Ticker(symbol).info] answers: the fields the code reads. *)
Record ticker_info : Type := mk_info {
  marketCap : option Q;
  info_sector : option string
}.

(** [close.pct_change().dropna()]: the change from each close to the
    next (closes are positive). *)
Fixpoint pct_change (close : list Q) : list Q :=
  match close with
  | c0 :: ((c1 :: _) as rest) => (c1 / c0 - 1) :: pct_change rest
  | _ => []
  end.

Definition mean (xs : list Q) : Q :=
  foldl Qplus 0 xs / inject_Z (Z.of_nat (length xs)).

(** [annualized_return] and [sharpe] of [_calculate_metrics]. *)
Definition annualized_return (return_90d : Q) : Q :=
  return_90d * (365 / 90).

Definition sharpe (return_90d volatility : Q) : Q :=
  if Qltb 0 volatility
  then (annualized_return return_90d - RISK_FREE_RATE) / volatility
  else 0.

Section Metrics.
(** The sample standard deviation of pandas ([Series.std]) and
    [math.sqrt(252)] are irrational in general and stay abstract. *)
Variable series_std : list Q -> Q.
Variable sqrt_252 : Q.
Variable etf_symbols : list string.

(** [info] is [None] when the metadata lookup raises. *)
Definition _calculate_metrics (symbol : string)
    (info : option ticker_info) (close volume : list Q)
  : StockScore.t :=
  let return_90d :=
    if (1 <? length close)%nat
    then default 0 (last close) / hd 0 close - 1 else 0 in
  let idx_30d := (length close - 22)%nat in
  let return_30d :=
    if (idx_30d <? length close)%nat
    then default 0 (last close) / nth idx_30d close 0 - 1 else 0 in
  let daily_returns := pct_change close in
  let volatility :=
    if (1 <? length daily_returns)%nat
    then series_std daily_returns * sqrt_252 else 999 in
  let sharpe := sharpe return_90d volatility in
  let avg_volume :=
    if (0 <? length volume)%nat then mean volume else 0 in
  let is_etf := bool_decide (symbol ∈ etf_symbols) in
  let market_cap :=
    match info with
    | Some i => default 0 (marketCap i)
    | None => 0
    end in
  let sector :=
    match info with
    | Some i =>
        if is_etf then "ETF"%string
        else match info_sector i with
             | Some s => if String.eqb s EmptyString then "Unknown"%string else s
             | None => "Unknown"%string
             end
    | None => if is_etf then "ETF"%string else "Unknown"%string
    end in
  {| StockScore.symbol := symbol;
     StockScore.name := symbol;
     StockScore.sector := sector;
     StockScore.market_cap := market_cap;
     StockScore.avg_volume := avg_volume;
     StockScore.return_90d := return_90d;
     StockScore.return_30d := return_30d;
     StockScore.volatility := volatility;
     StockScore.sharpe_ratio := sharpe;
     StockScore.composite_score := 0;
     StockScore.is_etf := is_etf |}.
End Metrics.

(** The risk-adjusted return as the specification words it, for a series
    that covers [period_days] days. *)
Definition spec_risk_adjusted (period_days total_return volatility : Q) : Q :=
  if Qltb 0 volatility
  then (total_return * (365 / period_days) - RISK_FREE_RATE) / volatility
  else 0.

(** [enumerate(l, start)] and [enumerate(l)] *)
Fixpoint enumerate_from {A : Type} (start : nat) (l : list A)
  : list (nat * A) :=
  match l with
  | [] => []
  | x :: l' => (start, x) :: enumerate_from (S start) l'
  end.

Definition enumerate {A : Type} (l : list A) : list (nat * A) :=
  enumerate_from 0 l.

(** [sorted(..., key=lambda x: x[1])]: a stable ascending sort on the
    second component.  An element goes in front of the first element
    whose key is not smaller, so equal keys keep their input order. *)
Fixpoint insert_by_value (x : nat * Q) (l : list (nat * Q))
  : list (nat * Q) :=
  match l with
  | [] => [x]
  | y :: l' =>
      if Qle_bool (snd x) (snd y) then x :: y :: l'
      else y :: insert_by_value x l'
  end.

Definition sorted_by_value (l : list (nat * Q)) : list (nat * Q) :=
  foldr insert_by_value [] l.

(** The order in which a stable ascending sort leaves an enumerated
    list: by value, and by position among equal values. *)
Definition precedes (x y : nat * Q) : Prop :=
  snd x < snd y \/ (snd x == snd y /\ (fst x < fst y)%nat).

(** The assignment [ranks[orig_idx] = rank_idx / max(n - 1, 1)] on one
    item [(rank_idx, (orig_idx, _))] of [enumerate(sorted_vals)]. *)
Definition assign_rank (n : nat) (ranks : list Q)
    (item : nat * (nat * Q)) : list Q :=
  let '(rank_idx, (orig_idx, _)) := item in
  <[orig_idx :=
      inject_Z (Z.of_nat rank_idx) / inject_Z (Z.max (Z.of_nat n - 1) 1)]>
    ranks.

(** The closure [percentile_rank] of [_rank_and_score]; [n] is the
    [len(scores)] it captures, and every call passes [n] values. *)
Definition percentile_rank (n : nat) (values : list Q) : list Q :=
  let sorted_vals := sorted_by_value (enumerate values) in
  let ranks := replicate n 0 in
  foldl (assign_rank n) ranks (enumerate sorted_vals).

Definition _rank_and_score (prefer_etfs : bool) (scores : list StockScore.t)
  : list StockScore.t :=
  let n := length scores in
  if (n =? 0)%nat then scores
  else
    let mom90_ranks := percentile_rank n (StockScore.return_90d <$> scores) in
    let sharpe_ranks := percentile_rank n (StockScore.sharpe_ratio <$> scores) in
    let mom30_ranks := percentile_rank n (StockScore.return_30d <$> scores) in
    let vol_ranks := percentile_rank n (StockScore.avg_volume <$> scores) in
    let inv_vol_ranks :=
      percentile_rank n ((fun s => - StockScore.volatility s) <$> scores) in
    imap (fun i s =>
            let composite :=
              (30 # 100) * nth i mom90_ranks 0
              + (25 # 100) * nth i sharpe_ranks 0
              + (20 # 100) * nth i mom30_ranks 0
              + (15 # 100) * nth i vol_ranks 0
              + (10 # 100) * nth i inv_vol_ranks 0 in
            let composite :=
              if prefer_etfs && StockScore.is_etf s
              then composite + (10 # 100) else composite in
            StockScore.mk (StockScore.symbol s) (StockScore.name s)
              (StockScore.sector s) (StockScore.market_cap s)
              (StockScore.avg_volume s) (StockScore.return_90d s)
              (StockScore.return_30d s) (StockScore.volatility s)
              (StockScore.sharpe_ratio s) composite (StockScore.is_etf s))
         scores.

(** One step of the loop of [_apply_sector_diversity], on the pair
    ([sector_counts], [diverse]). *)
Definition diversity_step (max_per_sector : Z)
    (acc : gmap string Z * list StockScore.t) (s : StockScore.t)
  : gmap string Z * list StockScore.t :=
  let '(sector_counts, diverse) := acc in
  let count := default 0%Z (sector_counts !! StockScore.sector s) in
  if (count <? max_per_sector)%Z
  then (<[StockScore.sector s := (count + 1)%Z]> sector_counts,
        diverse ++ [s])
  else (sector_counts, diverse).

Definition _apply_sector_diversity (scores : list StockScore.t)
    (max_per_sector : Z) : list StockScore.t :=
  snd (foldl (diversity_step max_per_sector) (∅, []) scores).

(** How often a sector occurs in a list of candidates. *)
Definition sector_count (sec : string) (l : list StockScore.t) : nat :=
  length (filter (fun s => StockScore.sector s = sec) l).

(** What the loop of [_apply_sector_diversity] maintains: the dictionary
    holds, for every sector, the number of kept candidates of that sector,
    and a sector that has a kept candidate stays within the cap. *)
Definition counts_agree (cap : Z)
    (acc : gmap string Z * list StockScore.t) : Prop :=
  forall sec,
    default 0%Z (fst acc !! sec) = Z.of_nat (sector_count sec (snd acc))
    /\ ((0 < sector_count sec (snd acc))%nat ->
        (Z.of_nat (sector_count sec (snd acc)) <= cap)%Z).

(** The knobs the stock picker reads from the configuration, after their
    defaults (7, 90, 500, 100000, True, 2, True) have been applied. *)
Record config : Type := mk_config {
  num_picks : Z;
  lookback_days : Z;
  min_market_cap_millions : Q;
  min_avg_volume : Q;
  sector_diversity : bool;
  max_per_sector : Z;
  prefer_etfs : bool
}.

Definition default_config : config :=
  {| num_picks := 7; lookback_days := 90; min_market_cap_millions := 500;
     min_avg_volume := 100000; sector_diversity := true;
     max_per_sector := 2; prefer_etfs := true |}.

(** Body of the loop of [_apply_filters], on the list [filtered]. *)
Definition filter_step (cfg : config) (filtered : list StockScore.t)
    (s : StockScore.t) : list StockScore.t :=
  let min_cap := min_market_cap_millions cfg * 1000000 in
  let min_vol := min_avg_volume cfg in
  if negb (StockScore.is_etf s) && Qltb 0 (StockScore.market_cap s)
     && Qltb (StockScore.market_cap s) min_cap
  then filtered
  else if Qltb (StockScore.avg_volume s) min_vol then filtered
  else filtered ++ [s].

Definition _apply_filters (cfg : config) (scores : list StockScore.t)
  : list StockScore.t :=
  foldl (filter_step cfg) [] scores.

(** [scores.sort(key=lambda s: s.composite_score, reverse=True)]: a stable
    descending sort; candidates of equal score keep their order. *)
Fixpoint insert_by_score (x : StockScore.t) (l : list StockScore.t)
  : list StockScore.t :=
  match l with
  | [] => [x]
  | y :: l' =>
      if Qle_bool (StockScore.composite_score y) (StockScore.composite_score x)
      then x :: y :: l'
      else y :: insert_by_score x l'
  end.

Definition sort_by_score (l : list StockScore.t) : list StockScore.t :=
  foldr insert_by_score [] l.

(** The slice [l[:n]]; a negative [n] counts from the end. *)
Definition slice_to {A : Type} (n : Z) (l : list A) : list A :=
  if (n <? 0)%Z then take (length l - Z.to_nat (- n)) l
  else take (Z.to_nat n) l.

(** Two candidates that differ at most in their composite score. *)
Definition same_candidate (s s' : StockScore.t) : Prop :=
  StockScore.symbol s' = StockScore.symbol s
  /\ StockScore.name s' = StockScore.name s
  /\ StockScore.sector s' = StockScore.sector s
  /\ StockScore.market_cap s' = StockScore.market_cap s
  /\ StockScore.avg_volume s' = StockScore.avg_volume s
  /\ StockScore.return_90d s' = StockScore.return_90d s
  /\ StockScore.return_30d s' = StockScore.return_30d s
  /\ StockScore.volatility s' = StockScore.volatility s
  /\ StockScore.sharpe_ratio s' = StockScore.sharpe_ratio s
  /\ StockScore.is_etf s' = StockScore.is_etf s.

(** What the filters let through. *)
Definition passes_filters (cfg : config) (s : StockScore.t) : Prop :=
  min_avg_volume cfg <= StockScore.avg_volume s
  /\ (StockScore.is_etf s = true
      \/ StockScore.market_cap s <= 0
      \/ min_market_cap_millions cfg * 1000000 <= StockScore.market_cap s).

Section Picker.
(** The collaborators of [pick_stocks]: the standard deviation and the
    square root as in [_calculate_metrics], the two symbol lists of the
    universe file, the history download ([_fetch_market_data], rows of
    close and volume per symbol) and the metadata lookup. *)
Variable series_std : list Q -> Q.
Variable sqrt_252 : Q.
Variable cfg : config.
Variable etfs stocks : list string.
Variable _fetch_market_data :
  list string -> Z -> gmap string (list (Q * Q)).
Variable ticker_info_of : string -> option ticker_info.

Definition get_stock_universe : list string := etfs ++ stocks.

Definition get_etf_symbols : list string := etfs.

(** Body of the loop that computes the metrics; a symbol without data is
    skipped. *)
Definition metrics_step (hist_data : gmap string (list (Q * Q)))
    (scores : list StockScore.t) (symbol : string) : list StockScore.t :=
  match hist_data !! symbol with
  | None => scores
  | Some [] => scores
  | Some df =>
      scores ++ [_calculate_metrics series_std sqrt_252 get_etf_symbols
                   symbol (ticker_info_of symbol) (fst <$> df) (snd <$> df)]
  end.

Definition pick_stocks (num_picks_arg : Z) : list StockScore.t :=
  let num_picks :=
    if (num_picks_arg =? 0)%Z then num_picks cfg else num_picks_arg in
  let universe := get_stock_universe in
  let lookback := lookback_days cfg in
  let hist_data := _fetch_market_data universe lookback in
  let scores := foldl (metrics_step hist_data) [] universe in
  let scores := _apply_filters cfg scores in
  match scores with
  | [] => []
  | _ :: _ =>
      let scores := _rank_and_score (prefer_etfs cfg) scores in
      let scores := sort_by_score scores in
      let scores :=
        if sector_diversity cfg
        then _apply_sector_diversity scores (max_per_sector cfg)
        else scores in
      slice_to num_picks scores
  end.
End Picker.

(** The order of a list sorted by composite score, best first. *)
Definition by_score_desc (a b : StockScore.t) : Prop :=
  StockScore.composite_score b <= StockScore.composite_score a.

(** Test data: a universe of three ETFs and one stock, each with the same
    three days of history, and no metadata. *)
Definition sample_history (symbols : list string) (lookback : Z)
  : gmap string (list (Q * Q)) :=
  list_to_map
    ((fun sym => (sym, [(100, 200000); (110, 200000); (121, 200000)]))
       <$> symbols).

Definition sample_picks : list StockScore.t :=
  pick_stocks (fun _ => 1 # 100) 16 default_config
    ["XIU"; "VFV"; "ZAG"]%string ["RY"]%string sample_history
    (fun _ => None) 0.

End StockPicker.

(** ** Rate-gated executor (executor.py) *)

Module Executor.

(** *** The clock

    [time.time()] reads a clock that never runs backwards: the [k]-th
    reading finds it advanced by [elapsed k] since the clock was last
    observed, and [time.sleep(d)] advances it by [d].  A test clock that
    only moves by sleeping is [elapsed := fun _ => 0]. *)
Record world : Type := mk_world {
  clock : Q;
  reads : nat
}.

(** The environment of a run: the passing of time and the order service.
    [place_order] sees the orders submitted before; a [Raise] is an
    exception of the placement call. *)
Record env : Type := mk_env {
  elapsed : nat -> Q;
  place_order :
    list OrderRequest.t -> OrderRequest.t -> result OrderResponse.t
}.

Definition time_time (E : env) (w : world) : Q * world :=
  let t := clock w + elapsed E (reads w) in
  (t, {| clock := t; reads := S (reads w) |}).

Definition time_sleep (d : Q) (w : world) : world :=
  {| clock := clock w + d; reads := reads w |}.

(** *** RateLimiter *)

Record RateLimiter : Type := mk_limiter {
  _max_requests : Z;
  _window_seconds : Z;
  _timestamps : list Q
}.

Definition set_timestamps (rl : RateLimiter) (ts : list Q) : RateLimiter :=
  {| _max_requests := _max_requests rl;
     _window_seconds := _window_seconds rl;
     _timestamps := ts |}.

(** [while self._timestamps and self._timestamps[0] < cutoff: popleft()] *)
Fixpoint popleft_while (cutoff : Q) (ts : list Q) : list Q :=
  match ts with
  | [] => []
  | t :: rest => if Qltb t cutoff then popleft_while cutoff rest else ts
  end.

Definition _prune_expired (E : env) (rl : RateLimiter) (w : world)
  : RateLimiter * world :=
  let '(now, w) := time_time E w in
  let cutoff := now - inject_Z (_window_seconds rl) in
  (set_timestamps rl (popleft_while cutoff (_timestamps rl)), w).

(** The waiting loop of [acquire].  The Python loop has no bound; here it
    runs at most [fuel] further rounds and answers [None] if that is not
    enough (it always is when the clock does not run backwards).  An
    exception leaves the limiter and the clock as they were when it was
    raised, so the answer carries them in both cases. *)
Fixpoint acquire_wait (E : env) (fuel : nat) (rl : RateLimiter) (w : world)
  : option (result unit * RateLimiter * world) :=
  if (_max_requests rl <=? Z.of_nat (length (_timestamps rl)))%Z then
    match _timestamps rl with
    | [] => Some (Raise IndexError, rl, w)
    | oldest :: _ =>
        let '(now, w) := time_time E w in
        let wait_time :=
          inject_Z (_window_seconds rl) - (now - oldest) + 1 in
        let w := time_sleep (Qmax wait_time 1) w in
        let '(rl, w) := _prune_expired E rl w in
        match fuel with
        | O => None
        | S fuel => acquire_wait E fuel rl w
        end
    end
  else Some (Ok tt, rl, w).

Definition acquire (E : env) (rl : RateLimiter) (w : world)
  : option (result unit * RateLimiter * world) :=
  let '(rl, w) := _prune_expired E rl w in
  match acquire_wait E (length (_timestamps rl)) rl w with
  | None => None
  | Some (Raise e, rl, w) => Some (Raise e, rl, w)
  | Some (Ok _, rl, w) =>
      let '(now, w) := time_time E w in
      Some (Ok tt, set_timestamps rl (_timestamps rl ++ [now]), w)
  end.

Definition can_proceed (E : env) (rl : RateLimiter) (w : world)
  : bool * RateLimiter * world :=
  let '(rl, w) := _prune_expired E rl w in
  ((Z.of_nat (length (_timestamps rl)) <? _max_requests rl)%Z, rl, w).

Definition remaining_capacity (E : env) (rl : RateLimiter) (w : world)
  : Z * RateLimiter * world :=
  let '(rl, w) := _prune_expired E rl w in
  (Z.max 0 (_max_requests rl - Z.of_nat (length (_timestamps rl))), rl, w).

(** *** OrderExecutor *)

Record config : Type := mk_config {
  max_daily_trades : Z;
  max_single_trade_cad : Q
}.

Definition default_config : config :=
  {| max_daily_trades := 20; max_single_trade_cad := 5000 |}.

(** The executor with its rate limiter and the clock.  [submitted] is not
    a field of the Python object: it logs, in order, the orders handed to
    [place_order], so that statements can count submission attempts. *)
Record state : Type := mk_state {
  _rate_limiter : RateLimiter;
  _executed_orders : list OrderResponse.t;
  _daily_trade_count : Z;
  the_world : world;
  submitted : list OrderRequest.t
}.

(** [float(order.limit_price) * order.quantity]: the price is turned
    into a double, the quantity too, and the product is a double. *)
Definition trade_value (order : OrderRequest.t) : Q :=
  float_mul (float_of_decimal (OrderRequest.limit_price order))
            (float_of_int (OrderRequest.quantity order)).

Definition _validate_order (cfg : config) (order : OrderRequest.t) : bool :=
  let max_trade := max_single_trade_cad cfg in
  let trade_value := trade_value order in
  if Qltb max_trade trade_value then false
  else if (OrderRequest.quantity order <? 1)%Z then false
  else true.

Definition with_limiter (st : state) (rl : RateLimiter) (w : world)
  : state :=
  {| _rate_limiter := rl;
     _executed_orders := _executed_orders st;
     _daily_trade_count := _daily_trade_count st;
     the_world := w;
     submitted := submitted st |}.

(** The call made on the order service, with the trade counted when it
    returns. *)
Definition submit (E : env) (order : OrderRequest.t) (st : state)
  : option OrderResponse.t * state :=
  let st' :=
    {| _rate_limiter := _rate_limiter st;
       _executed_orders := _executed_orders st;
       _daily_trade_count := _daily_trade_count st;
       the_world := the_world st;
       submitted := submitted st ++ [order] |} in
  match place_order E (submitted st) order with
  | Raise _ => (None, st')
  | Ok resp =>
      (Some resp,
       {| _rate_limiter := _rate_limiter st';
          _executed_orders := _executed_orders st';
          _daily_trade_count := (_daily_trade_count st' + 1)%Z;
          the_world := the_world st';
          submitted := submitted st' |})
  end.

(** [try: acquire(); place_order(); count += 1; return resp
    except Exception: return None].  The answer is [None] for the whole
    call only when the waiting loop ran out of fuel; otherwise it is the
    optional response and the state after the call. *)
Definition _execute_single (E : env) (order : OrderRequest.t) (st : state)
  : option (option OrderResponse.t * state) :=
  match acquire E (_rate_limiter st) (the_world st) with
  | None => None
  | Some (Raise _, rl, w) => Some (None, with_limiter st rl w)
  | Some (Ok _, rl, w) => Some (submit E order (with_limiter st rl w))
  end.

(** One [for order in ...] loop of [execute_orders], with its [break] and
    [continue]. *)
Fixpoint run_orders (E : env) (cfg : config) (orders : list OrderRequest.t)
    (st : state) (results : list OrderResponse.t)
  : option (state * list OrderResponse.t) :=
  match orders with
  | [] => Some (st, results)
  | order :: rest =>
      if (max_daily_trades cfg <=? _daily_trade_count st)%Z
      then Some (st, results)
      else if negb (_validate_order cfg order)
      then run_orders E cfg rest st results
      else
        match _execute_single E order st with
        | None => None
        | Some (Some resp, st) => run_orders E cfg rest st (results ++ [resp])
        | Some (None, st) => run_orders E cfg rest st results
        end
  end.

Definition sleep_in (d : Q) (st : state) : state :=
  {| _rate_limiter := _rate_limiter st;
     _executed_orders := _executed_orders st;
     _daily_trade_count := _daily_trade_count st;
     the_world := time_sleep d (the_world st);
     submitted := submitted st |}.

Definition execute_orders (E : env) (cfg : config)
    (sell_orders buy_orders : list OrderRequest.t) (st : state)
  : option (list OrderResponse.t * state) :=
  match run_orders E cfg sell_orders st [] with
  | None => None
  | Some (st, results) =>
      let st :=
        match sell_orders, buy_orders with
        | _ :: _, _ :: _ => sleep_in 5 st
        | _, _ => st
        end in
      match run_orders E cfg buy_orders st results with
      | None => None
      | Some (st, results) =>
          Some (results,
                {| _rate_limiter := _rate_limiter st;
                   _executed_orders := _executed_orders st ++ results;
                   _daily_trade_count := _daily_trade_count st;
                   the_world := the_world st;
                   submitted := submitted st |})
      end
  end.

(** [OrderExecutor.__init__] with a fresh [RateLimiter], at time [t0]. *)
Definition init (max_requests window_seconds : Z) (t0 : Q) : state :=
  {| _rate_limiter := mk_limiter max_requests window_seconds [];
     _executed_orders := [];
     _daily_trade_count := 0;
     the_world := mk_world t0 0;
     submitted := [] |}.

(** The orders of a run that pass the per-order gates. *)
Definition admitted (cfg : config) (orders : list OrderRequest.t)
  : list OrderRequest.t :=
  filter (fun o => _validate_order cfg o = true) orders.

(** How many of the submission [attempts], made after the orders
    [before], the order service answers without raising. *)
Fixpoint answered (E : env) (before attempts : list OrderRequest.t) : nat :=
  match attempts with
  | [] => 0
  | o :: rest =>
      (match place_order E before o with Ok _ => 1 | Raise _ => 0 end
       + answered E (before ++ [o]) rest)%nat
  end.

(** What some calls do to the log of attempts, to the trade count and to
    the results, when they submit [attempts] and obtain [new]. *)
Record step_effect (E : env) (st st' : state)
    (attempts : list OrderRequest.t) (new : list OrderResponse.t)
  : Prop := {
  effect_submitted : submitted st' = submitted st ++ attempts;
  effect_count :
    _daily_trade_count st'
    = (_daily_trade_count st
       + Z.of_nat (answered E (submitted st) attempts))%Z;
  effect_results : length new = answered E (submitted st) attempts;
  effect_executed : _executed_orders st' = _executed_orders st
}.

(** [n] calls of [acquire] in a row; an exception stops the row. *)
Fixpoint acquire_times (E : env) (n : nat) (rl : RateLimiter) (w : world)
  : option (result unit * RateLimiter * world) :=
  match n with
  | O => Some (Ok tt, rl, w)
  | S n =>
      match acquire E rl w with
      | Some (Ok _, rl, w) => acquire_times E n rl w
      | other => other
      end
  end.

(** Test data: a clock that moves only by sleeping, an order service that
    always raises, one that accepts everything, and a sell order. *)
Definition still_clock (k : nat) : Q := 0.

Definition failing_service : env :=
  {| elapsed := still_clock;
     place_order := fun _ _ => Raise PlacementError |}.

Definition accepting_service : env :=
  {| elapsed := still_clock;
     place_order := fun _ o =>
       Ok (OrderResponse.mk "id" (OrderRequest.security_id o)
             (OrderRequest.symbol o) (OrderRequest.quantity o)
             "sell_quantity" "submitted"
             (Some (OrderRequest.limit_price o)) None None) |}.

Definition sell_order (sym : string) (qty : Z) (price : Q)
  : OrderRequest.t :=
  OrderRequest.mk ("sec-" ++ sym) sym qty SELL LIMIT price "day".

(** [get_execution_summary] *)
Record execution_summary : Type := mk_summary {
  total_orders : nat;
  successful : nat;
  failed : nat;
  daily_trades_used : Z
}.

Definition get_execution_summary (st : state) : execution_summary :=
  let successful :=
    filter (fun o => OrderResponse.status o <> "rejected"%string)
           (_executed_orders st) in
  {| total_orders := length (_executed_orders st);
     successful := length successful;
     failed := (length (_executed_orders st) - length successful)%nat;
     daily_trades_used := _daily_trade_count st |}.

(** The time stamps of a limiter are in the order of the clock and none is
    later than the clock. *)
Definition chronological (rl : RateLimiter) (w : world) : Prop :=
  StronglySorted Qle (_timestamps rl)
  /\ Forall (fun t => t <= clock w) (_timestamps rl).

(** The relative distance, 2^-50, within which [trade_value] stays
    from the value that a limit price was computed for. *)
Definition gate_margin : Q := 1 # 1125899906842624.

(** What the per-order gates let through. *)
Definition within_gates (cfg : config) (o : OrderRequest.t) : Prop :=
  (1 <= OrderRequest.quantity o)%Z
  /\ trade_value o <= max_single_trade_cad cfg.

End Executor.

(** ** Dry-run simulation (dry_run.py) *)

Module DryRun.

(** An entry of [_simulated_orders]; price and value are floats. *)
Record simulated_order : Type := mk_sim {
  sim_action : string;        (* "SELL" or "BUY" *)
  sim_symbol : string;
  sim_quantity : Z;
  sim_price : Q;
  sim_value : Q;
  sim_timestamp : string
}.

Record DryRunSimulator : Type := mk_simulator {
  _simulated_orders : list simulated_order;
  _simulated_cash : Q
}.

Section Simulation.
(** [datetime.now().isoformat()] when the entry is made that follows [n]
    earlier entries. *)
Variable now_isoformat : nat -> string.
Variable prices : gmap string Q.

(** [prices.get(order.symbol, order.limit_price)] and
    [price * order.quantity] *)
Definition simulated_price (order : OrderRequest.t) : Q :=
  default (OrderRequest.limit_price order)
          (prices !! OrderRequest.symbol order).

Definition simulated_value (order : OrderRequest.t) : Q :=
  decimal_mul (simulated_price order)
              (inject_Z (OrderRequest.quantity order)).

Definition entry (action : string) (order : OrderRequest.t)
    (sim : DryRunSimulator) : simulated_order :=
  {| sim_action := action;
     sim_symbol := OrderRequest.symbol order;
     sim_quantity := OrderRequest.quantity order;
     sim_price := float_of_decimal (simulated_price order);
     sim_value := float_of_decimal (simulated_value order);
     sim_timestamp := now_isoformat (length (_simulated_orders sim)) |}.

(** Body of the loop over the sell orders. *)
Definition sell_step (sim : DryRunSimulator) (order : OrderRequest.t)
  : DryRunSimulator :=
  {| _simulated_orders := _simulated_orders sim ++ [entry "SELL" order sim];
     _simulated_cash :=
       decimal_add (_simulated_cash sim) (simulated_value order) |}.

(** Body of the loop over the buy orders; a buy that the simulated cash
    does not cover is skipped. *)
Definition buy_step (sim : DryRunSimulator) (order : OrderRequest.t)
  : DryRunSimulator :=
  if Qltb (_simulated_cash sim) (simulated_value order) then sim
  else
    {| _simulated_orders := _simulated_orders sim ++ [entry "BUY" order sim];
       _simulated_cash :=
         decimal_sub (_simulated_cash sim) (simulated_value order) |}.

(** [simulate_orders]: the simulator after the call; its
    [_simulated_orders] is the list returned. *)
Definition simulate_orders (sell_orders buy_orders : list OrderRequest.t)
    (current_cash : Q) : DryRunSimulator :=
  let sim := {| _simulated_orders := []; _simulated_cash := current_cash |} in
  let sim := foldl sell_step sim sell_orders in
  foldl buy_step sim buy_orders.
End Simulation.

End DryRun.

(** ** Quotes and security ids (market_data_service.py) *)

Module MarketData.

Section Lookups.
(** What [get_quote] answers on its [k]-th call of a bulk request, and
    what [resolve_security_id] answers ([None] when it raises
    [ValueError]). *)
Variable get_quote : nat -> string -> Q.
Variable resolve_security_id : nat -> string -> option string.

Definition quote_step (acc : nat * gmap string Q) (symbol : string)
  : nat * gmap string Q :=
  let '(calls, result) := acc in
  let price := get_quote calls symbol in
  (S calls, if Qltb 0 price then <[symbol := price]> result else result).

Definition get_bulk_quotes (symbols : list string) : gmap string Q :=
  snd (foldl quote_step (0%nat, ∅) symbols).

Definition resolve_step (acc : nat * gmap string string) (symbol : string)
  : nat * gmap string string :=
  let '(calls, result) := acc in
  (S calls,
   match resolve_security_id calls symbol with
   | Some id => <[symbol := id]> result
   | None => result
   end).

Definition bulk_resolve_securities (symbols : list string)
  : gmap string string :=
  snd (foldl resolve_step (0%nat, ∅) symbols).
End Lookups.

End MarketData.

(** * Properties *)

(** ** Arithmetic facts *)

Lemma Qltb_lt x y : Qltb x y = true <-> x < y.
Proof.
  unfold Qltb. rewrite negb_true_iff, <- not_true_iff_false, Qle_bool_iff.
  split; [apply Qnot_le_lt | apply Qlt_not_le].
Qed.

Lemma Qltb_ge x y : Qltb x y = false <-> y <= x.
Proof.
  unfold Qltb. rewrite negb_false_iff, Qle_bool_iff. reflexivity.
Qed.

Lemma Qle_bool_gt x y : Qle_bool x y = false <-> y < x.
Proof.
  rewrite <- not_true_iff_false, Qle_bool_iff.
  split; [apply Qnot_le_lt | apply Qlt_not_le].
Qed.

Lemma Qtrunc_nonneg_floor q : 0 <= q -> Qtrunc q = Qfloor q.
Proof.
  destruct q as [n d]. unfold Qle, Qtrunc, Qfloor. simpl. intros H.
  apply Z.quot_div_nonneg; lia.
Qed.

Lemma Qfloor_mult_le (x p : Q) : 0 < p -> inject_Z (Qfloor (x / p)) * p <= x.
Proof.
  intros Hp. pose proof (Qfloor_le (x / p)) as H.
  apply (Qmult_le_compat_r _ _ p) in H; [| apply Qlt_le_weak, Hp].
  eapply Qle_trans; [exact H |].
  apply Qle_lteq. right. field. intros E. rewrite E in Hp.
  apply (Qlt_irrefl _ Hp).
Qed.

(** ** Rounding *)

Lemma ilog_aux_spec (beta : Z) (fuel : nat) : forall n : Z,
  (2 <= beta)%Z -> (1 <= n < 2 ^ Z.of_nat fuel)%Z ->
  (0 <= ilog_aux fuel beta n)%Z
  /\ (beta ^ ilog_aux fuel beta n <= n < beta ^ (ilog_aux fuel beta n + 1))%Z.
Proof.
  induction fuel as [| fuel IH]; intros n Hb Hn.
  - simpl in Hn. lia.
  - cbn [ilog_aux]. destruct (n <? beta)%Z eqn:Hlt.
    + apply Z.ltb_lt in Hlt. simpl. lia.
    + apply Z.ltb_ge in Hlt.
      assert (Hq : (1 <= n / beta < 2 ^ Z.of_nat fuel)%Z).
      { split.
        - apply Z.div_le_lower_bound; lia.
        - apply Z.div_lt_upper_bound; [lia |].
          rewrite Nat2Z.inj_succ, Z.pow_succ_r in Hn by lia. nia. }
      destruct (IH (n / beta)%Z Hb Hq) as (H0 & Hlo & Hhi).
      set (r := ilog_aux fuel beta (n / beta)) in *.
      split; [lia |].
      pose proof (Z.mul_div_le n beta ltac:(lia)) as Hdiv.
      pose proof (Z.mod_pos_bound n beta ltac:(lia)) as Hmod.
      pose proof (Z.div_mod n beta ltac:(lia)) as Heq.
      replace (1 + r + 1)%Z with (Z.succ (r + 1)) by lia.
      replace (1 + r)%Z with (Z.succ r) by lia.
      rewrite !Z.pow_succ_r by lia.
      replace (Z.succ r) with (r + 1)%Z by lia.
      split; nia.
Qed.

Lemma ilog_spec (beta n : Z) :
  (2 <= beta)%Z -> (1 <= n)%Z ->
  (0 <= ilog beta n)%Z
  /\ (beta ^ ilog beta n <= n < beta ^ (ilog beta n + 1))%Z.
Proof.
  intros Hb Hn. unfold ilog. apply ilog_aux_spec; [exact Hb |].
  split; [exact Hn |].
  rewrite Nat2Z.inj_succ, Z2Nat.id by apply Z.log2_nonneg.
  apply Z.log2_spec. lia.
Qed.

Lemma round_half_even_error (q : Q) :
  Qabs (inject_Z (round_half_even q) - q) <= 1 # 2.
Proof.
  unfold round_half_even.
  pose proof (Qfloor_le q) as Hlo. pose proof (Qlt_floor q) as Hhi.
  rewrite inject_Z_plus in Hhi. change (inject_Z 1) with 1 in Hhi.
  set (f := Qfloor q) in *.
  assert (Hdown : 0 <= q - inject_Z f <= 1 # 2 ->
                  Qabs (inject_Z f - q) <= 1 # 2).
  { intros [H1 H2]. apply Qabs_Qle_condition. split; lra. }
  assert (Hup : 1 # 2 <= q - inject_Z f ->
                Qabs (inject_Z (f + 1) - q) <= 1 # 2).
  { intros H1. rewrite inject_Z_plus. change (inject_Z 1) with 1.
    apply Qabs_Qle_condition. split; lra. }
  destruct (Qcompare (q - inject_Z f) (1 # 2)) eqn:Hc.
  - apply Qeq_alt in Hc. destruct (Z.even f); [apply Hdown | apply Hup]; lra.
  - apply Qlt_alt in Hc. apply Hdown. lra.
  - apply Qgt_alt in Hc. apply Hup. lra.
Qed.

Lemma Qle_div_mult (a b c : Q) : 0 < c -> a <= b / c -> a * c <= b.
Proof.
  intros Hc H. apply (Qmult_le_compat_r _ _ c) in H; [| lra].
  assert (E : b / c * c == b) by (field; lra). rewrite E in H. exact H.
Qed.

Section Rounding.
Variables (beta prec : Z).
Hypothesis Hbeta : (2 <= beta)%Z.
Let B : Q := inject_Z beta.

Lemma base_pos : 0 < B.
Proof.
  subst B. change 0 with (inject_Z 0). rewrite <- Zlt_Qlt. lia.
Qed.

Lemma base_pow_pos (e : Z) : 0 < B ^ e.
Proof. apply Qpower_0_lt, base_pos. Qed.

Lemma base_pow_plus (e1 e2 : Z) : B ^ (e1 + e2) == B ^ e1 * B ^ e2.
Proof.
  apply Qpower_plus. intros H. pose proof base_pos as Hp.
  rewrite H in Hp. apply (Qlt_irrefl _ Hp).
Qed.

(** The quotient of two positive integers against the digit counts of
    the two. *)
Lemma ilog_quotient_lower (a : Q) :
  0 < a ->
  B ^ (ilog beta (Qnum a) - ilog beta (Zpos (Qden a)) - 1) <= a.
Proof.
  intros Ha. destruct a as [n d]. cbn [Qnum Qden].
  assert (Hn : (1 <= n)%Z) by (unfold Qlt in Ha; simpl in Ha; lia).
  destruct (ilog_spec beta n Hbeta Hn) as (Hln & Hnlo & _).
  destruct (ilog_spec beta (Zpos d) Hbeta ltac:(lia)) as (Hld & _ & Hdhi).
  set (ln := ilog beta n) in *. set (ld := ilog beta (Zpos d)) in *.
  assert (Hnum : B ^ ln <= inject_Z n).
  { subst B. rewrite <- Zpower_Qpower by exact Hln.
    rewrite <- Zle_Qle. exact Hnlo. }
  assert (Hden : inject_Z (Zpos d) <= B ^ (ld + 1)).
  { subst B. rewrite <- Zpower_Qpower by lia.
    rewrite <- Zle_Qle. lia. }
  assert (Hsplit : B ^ ln == B ^ (ln - ld - 1) * B ^ (ld + 1)).
  { rewrite <- base_pow_plus. f_equiv. lia. }
  assert (Hval : inject_Z n == (n # d) * inject_Z (Zpos d)).
  { unfold Qeq, Qmult, inject_Z. simpl. lia. }
  pose proof (base_pow_pos (ln - ld - 1)) as Hp1.
  pose proof (base_pow_pos (ld + 1)) as Hp2.
  assert (Hle : B ^ (ln - ld - 1) * B ^ (ld + 1) <= (n # d) * B ^ (ld + 1)).
  { rewrite <- Hsplit. eapply Qle_trans; [exact Hnum |]. rewrite Hval.
    apply Qmult_le_l; [exact Ha | exact Hden]. }
  apply Qmult_le_r in Hle; [exact Hle | exact Hp2].
Qed.

Lemma ilog_quotient_upper (a : Q) :
  0 < a ->
  a < B ^ (ilog beta (Qnum a) - ilog beta (Zpos (Qden a)) + 1).
Proof.
  intros Ha. destruct a as [n d]. cbn [Qnum Qden].
  assert (Hn : (1 <= n)%Z) by (unfold Qlt in Ha; simpl in Ha; lia).
  destruct (ilog_spec beta n Hbeta Hn) as (Hln & _ & Hnhi).
  destruct (ilog_spec beta (Zpos d) Hbeta ltac:(lia)) as (Hld & Hdlo & _).
  set (ln := ilog beta n) in *. set (ld := ilog beta (Zpos d)) in *.
  assert (Hnum : inject_Z n < B ^ (ln + 1)).
  { subst B. rewrite <- Zpower_Qpower by lia.
    rewrite <- Zlt_Qlt. exact Hnhi. }
  assert (Hden : B ^ ld <= inject_Z (Zpos d)).
  { subst B. rewrite <- Zpower_Qpower by exact Hld.
    rewrite <- Zle_Qle. exact Hdlo. }
  assert (Hsplit : B ^ (ln + 1) == B ^ (ln - ld + 1) * B ^ ld).
  { rewrite <- base_pow_plus. f_equiv. lia. }
  assert (Hval : inject_Z n == (n # d) * inject_Z (Zpos d)).
  { unfold Qeq, Qmult, inject_Z. simpl. lia. }
  pose proof (base_pow_pos (ln - ld + 1)) as Hp1.
  pose proof (base_pow_pos ld) as Hp2.
  assert (Hlt : (n # d) * B ^ ld < B ^ (ln - ld + 1) * B ^ ld).
  { rewrite <- Hsplit. eapply Qle_lt_trans; [| exact Hnum]. rewrite Hval.
    apply Qmult_le_l; [exact Ha | exact Hden]. }
  apply Qmult_lt_r in Hlt; [exact Hlt | exact Hp2].
Qed.

(** [round_pos] is rounding to [prec] significant digits: the power
    [B ^ e] it scales by is the one that leaves exactly [prec] digits
    before the point, and the scaled value is rounded to the nearest
    integer. *)
Lemma round_pos_scaled (a : Q) :
  0 < a ->
  exists e : Z,
    round_pos beta prec a = inject_Z (round_half_even (a / B ^ e)) * B ^ e
    /\ B ^ (prec - 1) <= a / B ^ e < B ^ prec.
Proof.
  intros Ha. unfold round_pos. fold B.
  set (k := (ilog beta (Qnum a) - ilog beta (Zpos (Qden a)))%Z).
  pose proof (ilog_quotient_lower a Ha) as Hlow. fold k in Hlow.
  pose proof (ilog_quotient_upper a Ha) as Hupp. fold k in Hupp.
  destruct (Qltb (a / B ^ (k - prec)) (B ^ prec)) eqn:Htest.
  - exists (k - prec)%Z. split; [reflexivity |]. split.
    + apply Qle_shift_div_l; [apply base_pow_pos |].
      rewrite <- base_pow_plus.
      replace (prec - 1 + (k - prec))%Z with (k - 1)%Z by lia. exact Hlow.
    + apply Qltb_lt, Htest.
  - exists (k - prec + 1)%Z. split; [reflexivity |].
    unfold Qltb in Htest. apply negb_false_iff, Qle_bool_iff in Htest.
    split.
    + apply Qle_shift_div_l; [apply base_pow_pos |].
      apply Qle_div_mult in Htest; [| apply base_pow_pos].
      rewrite <- base_pow_plus in Htest.
      rewrite <- base_pow_plus.
      replace (prec - 1 + (k - prec + 1))%Z with (prec + (k - prec))%Z
        by lia.
      exact Htest.
    + apply Qlt_shift_div_r; [apply base_pow_pos |].
      rewrite <- base_pow_plus.
      replace (prec + (k - prec + 1))%Z with (k + 1)%Z by lia. exact Hupp.
Qed.

Lemma round_pos_error (a : Q) :
  0 < a ->
  Qabs (round_pos beta prec a - a) <= a * (B ^ (1 - prec) / 2).
Proof.
  intros Ha. destruct (round_pos_scaled a Ha) as (e & -> & Hlow & _).
  pose proof (base_pow_pos e) as He.
  pose proof (round_half_even_error (a / B ^ e)) as Herr.
  set (m := inject_Z (round_half_even (a / B ^ e))) in *.
  assert (Hne : ~ B ^ e == 0) by (intros H; rewrite H in He; lra).
  assert (Heq : m * B ^ e - a == (m - a / B ^ e) * B ^ e) by (field; exact Hne).
  rewrite Heq, Qabs_Qmult, (Qabs_pos (B ^ e)) by lra.
  assert (Hunit : B ^ e <= a * B ^ (1 - prec)).
  { apply Qle_div_mult in Hlow; [| exact He].
    rewrite <- base_pow_plus in Hlow.
    assert (Hs : B ^ e == B ^ (prec - 1 + e) * B ^ (1 - prec)).
    { rewrite <- base_pow_plus. f_equiv. lia. }
    rewrite Hs. apply Qmult_le_compat_r; [exact Hlow |].
    apply Qlt_le_weak, base_pow_pos. }
  apply Qle_trans with ((1 # 2) * B ^ e).
  - apply Qmult_le_compat_r; [exact Herr | lra].
  - assert (Hh : a * (B ^ (1 - prec) / 2) == (1 # 2) * (a * B ^ (1 - prec)))
      by field.
    rewrite Hh. apply Qmult_le_l; [reflexivity | exact Hunit].
Qed.

Lemma round_sig_comp (x y : Q) :
  x == y -> round_sig beta prec x = round_sig beta prec y.
Proof.
  intros H. unfold round_sig. rewrite (Qred_complete x y H). reflexivity.
Qed.

Lemma round_sig_error (x : Q) :
  Qabs (round_sig beta prec x - x) <= Qabs x * (B ^ (1 - prec) / 2).
Proof.
  unfold round_sig. fold B.
  pose proof (Qred_correct x) as Hred.
  set (z := Qred x) in *. rewrite <- Hred. clearbody z. clear Hred x.
  destruct z as [n d]. cbn [Qnum]. destruct n as [| p | p].
  - assert (H0 : 0 # d == 0) by reflexivity.
    rewrite H0. change (Qabs (0 - 0)) with 0. change (Qabs 0) with 0.
    rewrite Qmult_0_l. apply Qle_refl.
  - rewrite Qred_correct.
    assert (Hpos : 0 < Zpos p # d) by reflexivity.
    rewrite (Qabs_pos (Zpos p # d)) by lra.
    apply round_pos_error, Hpos.
  - rewrite Qred_correct.
    assert (Hpos : 0 < - (Zneg p # d)) by reflexivity.
    assert (Hneg : Zneg p # d < 0) by reflexivity.
    rewrite (Qabs_neg (Zneg p # d)) by lra.
    pose proof (round_pos_error _ Hpos) as H.
    assert (E : - round_pos beta prec (- (Z.neg p # d)) - (Z.neg p # d)
                == - (round_pos beta prec (- (Z.neg p # d)) - - (Z.neg p # d)))
      by ring.
    rewrite E, Qabs_opp. exact H.
Qed.

End Rounding.

(** What follows from a relative error below one. *)
Section RelativeError.
Variable rnd : Q -> Q.
Variable u : Q.
Hypothesis u_small : 0 <= u < 1.
Hypothesis rnd_error : forall x, Qabs (rnd x - x) <= Qabs x * u.

Lemma rel_round_bounds (x : Q) :
  0 <= x -> x * (1 - u) <= rnd x <= x * (1 + u).
Proof.
  intros Hx. pose proof (rnd_error x) as H.
  rewrite (Qabs_pos x) in H by exact Hx.
  apply Qabs_Qle_condition in H. lra.
Qed.

Lemma rel_round_bounds_neg (x : Q) :
  x <= 0 -> x * (1 + u) <= rnd x <= x * (1 - u).
Proof.
  intros Hx. pose proof (rnd_error x) as H.
  rewrite (Qabs_neg x) in H by exact Hx.
  apply Qabs_Qle_condition in H. lra.
Qed.

Lemma rel_round_nonneg (x : Q) : 0 <= x -> 0 <= rnd x.
Proof.
  intros Hx. destruct (rel_round_bounds x Hx) as [H _].
  eapply Qle_trans; [| exact H].
  apply Qmult_le_0_compat; lra.
Qed.

Lemma rel_round_nonpos (x : Q) : x <= 0 -> rnd x <= 0.
Proof.
  intros Hx. destruct (rel_round_bounds_neg x Hx) as [_ H].
  eapply Qle_trans; [exact H |].
  assert (H0 : 0 <= (- x) * (1 - u)) by (apply Qmult_le_0_compat; lra).
  lra.
Qed.

Lemma rel_round_pos (x : Q) : 0 < x -> 0 < rnd x.
Proof.
  intros Hx. destruct (rel_round_bounds x) as [H _]; [lra |].
  eapply Qlt_le_trans; [| exact H].
  apply Qmult_lt_0_compat; lra.
Qed.

Lemma rel_round_neg (x : Q) : x < 0 -> rnd x < 0.
Proof.
  intros Hx. destruct (rel_round_bounds_neg x) as [_ H]; [lra |].
  eapply Qle_lt_trans; [exact H |].
  assert (H0 : 0 < (- x) * (1 - u)) by (apply Qmult_lt_0_compat; lra).
  lra.
Qed.

Lemma rel_round_pos_iff (x : Q) : 0 < rnd x <-> 0 < x.
Proof.
  split; [| apply rel_round_pos].
  intros H. destruct (Qlt_le_dec 0 x) as [Hx | Hx]; [exact Hx |].
  apply rel_round_nonpos in Hx. lra.
Qed.

Lemma rel_round_nonpos_iff (x : Q) : rnd x <= 0 <-> x <= 0.
Proof.
  split; [| apply rel_round_nonpos].
  intros H. destruct (Qlt_le_dec 0 x) as [Hx | Hx]; [| exact Hx].
  apply rel_round_pos in Hx. lra.
Qed.

End RelativeError.

Lemma decimal_round_error (x : Q) :
  Qabs (decimal_round x - x) <= Qabs x * decimal_eps.
Proof.
  pose proof (round_sig_error 10 28 ltac:(lia) x) as H.
  assert (E : inject_Z 10 ^ (1 - 28) / 2 == decimal_eps) by reflexivity.
  rewrite E in H. exact H.
Qed.

Lemma float_round_error (x : Q) :
  Qabs (float_round x - x) <= Qabs x * float_eps.
Proof.
  pose proof (round_sig_error 2 53 ltac:(lia) x) as H.
  assert (E : inject_Z 2 ^ (1 - 53) / 2 == float_eps) by reflexivity.
  rewrite E in H. exact H.
Qed.

Lemma decimal_eps_small : 0 <= decimal_eps < 1.
Proof. split; [discriminate | reflexivity]. Qed.

Lemma float_eps_small : 0 <= float_eps < 1.
Proof. split; [discriminate | reflexivity]. Qed.

Lemma decimal_round_comp (x y : Q) :
  x == y -> decimal_round x = decimal_round y.
Proof. apply round_sig_comp. Qed.

Lemma decimal_round_pos_iff (x : Q) : 0 < decimal_round x <-> 0 < x.
Proof.
  apply (rel_round_pos_iff _ _ decimal_eps_small decimal_round_error).
Qed.

Lemma decimal_round_nonpos_iff (x : Q) : decimal_round x <= 0 <-> x <= 0.
Proof.
  apply (rel_round_nonpos_iff _ _ decimal_eps_small decimal_round_error).
Qed.

Lemma decimal_round_nonneg (x : Q) : 0 <= x -> 0 <= decimal_round x.
Proof.
  apply (rel_round_nonneg _ _ decimal_eps_small decimal_round_error).
Qed.

Lemma decimal_round_bounds (x : Q) :
  0 <= x ->
  x * (1 - decimal_eps) <= decimal_round x <= x * (1 + decimal_eps).
Proof.
  apply (rel_round_bounds _ _ decimal_round_error).
Qed.

Lemma float_round_nonneg (x : Q) : 0 <= x -> 0 <= float_round x.
Proof.
  apply (rel_round_nonneg _ _ float_eps_small float_round_error).
Qed.

Lemma float_round_nonpos (x : Q) : x <= 0 -> float_round x <= 0.
Proof.
  apply (rel_round_nonpos _ _ float_eps_small float_round_error).
Qed.

Lemma float_round_bounds (x : Q) :
  0 <= x ->
  x * (1 - float_eps) <= float_round x <= x * (1 + float_eps).
Proof.
  apply (rel_round_bounds _ _ float_round_error).
Qed.

(** ** The allocation planner *)

Module RebalancerSpec.
Import Rebalancer.

Section Planner.
Variable cfg : config.
Variable selected_stocks : list StockScore.t.
Variable current_positions : list Position.t.
Variable cash_balance : Q.
Variable security_prices : gmap string Q.
Variable security_ids : gmap string string.

Let selected_symbols := StockScore.symbol <$> selected_stocks.
Let total_value :=
  decimal_add cash_balance (sum_market_value current_positions).
Let plan :=
  calculate_targets cfg selected_stocks current_positions cash_balance
    security_prices security_ids.

(** The only exception of the planner is the division by the number of
    selected symbols. *)
Lemma plan_cases :
  (total_value <= 0 /\ targets_of plan = [] /\ exists s, plan = Ok s)
  \/ (0 < total_value /\ selected_stocks = []
      /\ plan = Raise DivisionByZero)
  \/ (0 < total_value /\ selected_stocks <> [] /\
      exists s target_weight,
        plan = Ok s /\
        PortfolioSummary.targets s =
          omap (selected_target cfg total_value target_weight
                  (decimal_mul total_value target_weight)
                  (build_pos_map current_positions)
                  security_prices security_ids) selected_symbols
          ++ omap (liquidation_target total_value selected_symbols)
                  current_positions).
Proof.
  subst plan. unfold calculate_targets. fold total_value.
  destruct (Qle_bool total_value 0) eqn:Htot.
  - left. apply Qle_bool_iff in Htot. eauto.
  - right. apply Qle_bool_gt in Htot.
    unfold decimal_div. rewrite length_fmap.
    destruct selected_stocks as [| s0 rest] eqn:Hsel.
    + left. auto.
    + right. split; [assumption |]. split; [discriminate |].
      destruct (Qeq_bool _ 0) eqn:Hz.
      * apply Qeq_bool_iff in Hz. unfold Qeq in Hz. simpl in Hz. lia.
      * eexists _, _. split; [reflexivity |]. reflexivity.
Qed.

(** Where a target of the plan comes from. *)
Lemma target_origin (t : PortfolioTarget.t) :
  t ∈ targets_of plan ->
  0 < total_value /\
  ((exists symbol target_weight,
       symbol ∈ selected_symbols /\
       selected_target cfg total_value target_weight
         (decimal_mul total_value target_weight)
         (build_pos_map current_positions)
         security_prices security_ids symbol = Some t)
   \/ (exists pos,
         pos ∈ current_positions /\
         liquidation_target total_value selected_symbols pos = Some t)).
Proof.
  destruct plan_cases as [(_ & Hnil & _) | [(_ & _ & Hraise) | H]].
  - rewrite Hnil. intros Hin. inversion Hin.
  - rewrite Hraise. intros Hin. inversion Hin.
  - destruct H as (Hpos & _ & s & tw & Hplan & Htargets).
    rewrite Hplan. simpl. rewrite Htargets.
    intros Hin. split; [assumption |].
    apply elem_of_app in Hin as [Hin | Hin];
      apply list_elem_of_omap in Hin as (x & Hx & Hsome).
    + left. eauto.
    + right. eauto.
Qed.

Lemma selected_target_symbol tv tw tvp pm sym t :
  selected_target cfg tv tw tvp pm security_prices security_ids sym
    = Some t ->
  PortfolioTarget.symbol t = sym
  /\ 0 < default 0 (security_prices !! sym).
Proof.
  unfold selected_target.
  destruct (Qle_bool _ 0) eqn:Hp; [discriminate |].
  apply Qle_bool_gt in Hp.
  destruct (decide_trade _ _ _ _) as [a q]. intros [= <-]. auto.
Qed.

Lemma liquidation_target_inv tv pos t :
  liquidation_target tv selected_symbols pos = Some t ->
  (Position.symbol pos ∉ selected_symbols)
  /\ 0 < Position.quantity pos
  /\ PortfolioTarget.symbol t = Position.symbol pos
  /\ PortfolioTarget.action t = "sell"%string
  /\ PortfolioTarget.trade_value t = Position.market_value pos
  /\ PortfolioTarget.trade_quantity t = Qtrunc (Position.quantity pos)
  /\ PortfolioTarget.drift_pct t = 100.
Proof.
  unfold liquidation_target.
  destruct (negb _ && _) eqn:Hc; [| discriminate].
  apply andb_true_iff in Hc as [Hnot Hq].
  apply negb_true_iff, bool_decide_eq_false in Hnot.
  apply Qltb_lt in Hq. intros [= <-]. simpl. auto 10.
Qed.

Lemma decide_trade_hold drift trade_value price a q :
  decide_trade cfg drift trade_value price = (a, q) ->
  a = "hold"%string -> q = 0%Z.
Proof.
  unfold decide_trade.
  destruct (_ || _); [intros [= <- <-]; reflexivity |].
  destruct (Qltb 0 trade_value); intros [= <- <-]; discriminate.
Qed.

Lemma decide_trade_quantity drift trade_value price a q :
  decide_trade cfg drift trade_value price = (a, q) ->
  a <> "hold"%string ->
  q = Qtrunc (decimal_quot (Qmin (Qabs trade_value)
                                 (max_single_trade_cad cfg)) price).
Proof.
  unfold decide_trade.
  destruct (_ || _); [intros [= <- <-]; congruence |].
  destruct (Qltb 0 trade_value); intros [= <- <-]; reflexivity.
Qed.

(** What the loop over the selection stores in a target. *)
Lemma selected_target_fields tv tw tvp pm sym t :
  selected_target cfg tv tw tvp pm security_prices security_ids sym
    = Some t ->
  let price := default 0 (security_prices !! sym) in
  PortfolioTarget.trade_value t =
    Qabs (decimal_sub (PortfolioTarget.target_value t)
                      (PortfolioTarget.current_value t))
  /\ (PortfolioTarget.action t = "hold"%string ->
      PortfolioTarget.trade_quantity t = 0%Z)
  /\ (PortfolioTarget.action t <> "hold"%string ->
      PortfolioTarget.trade_quantity t =
        Qtrunc (decimal_quot (Qmin (PortfolioTarget.trade_value t)
                                   (max_single_trade_cad cfg)) price)).
Proof.
  unfold selected_target.
  destruct (Qle_bool _ 0) eqn:Hp; [discriminate |].
  destruct (decide_trade _ _ _ _) as [a q] eqn:Hd.
  intros Heq. apply (inj Some) in Heq. subst t.
  cbn [PortfolioTarget.trade_value PortfolioTarget.target_value
       PortfolioTarget.current_value PortfolioTarget.action
       PortfolioTarget.trade_quantity].
  split; [reflexivity |].
  split; intros Ha.
  - eapply decide_trade_hold; eassumption.
  - eapply decide_trade_quantity; eassumption.
Qed.

(** C2, as amended: a hold target trades nothing, and the trade value
    of a target is never negative as long as no position held in
    positive quantity has a negative market value.  (The converse
    of the first part fails: a buy or sell target can trade 0.) *)
Theorem hold_trades_nothing (t : PortfolioTarget.t) :
  Forall (fun p => 0 < Position.quantity p -> 0 <= Position.market_value p)
         current_positions ->
  t ∈ targets_of plan ->
  (PortfolioTarget.action t = "hold"%string ->
   PortfolioTarget.trade_quantity t = 0%Z)
  /\ 0 <= PortfolioTarget.trade_value t.
Proof.
  intros Hmv Hin.
  apply target_origin in Hin as [_ [(sym & tw & _ & Hsel) | (p & Hp & Hliq)]].
  - apply selected_target_fields in Hsel as (Hval & Hhold & _).
    split; [exact Hhold |]. rewrite Hval. apply Qabs_nonneg.
  - apply liquidation_target_inv in Hliq
      as (_ & Hq & _ & Hact & Hval & _).
    split; [rewrite Hact; discriminate |].
    rewrite Hval. rewrite Forall_forall in Hmv. auto.
Qed.

(** C3, as amended: with a non-empty selection and a positive total
    value, a position held in positive quantity whose symbol is not
    selected gets a sell target for the whole-number part of its
    quantity, with a drift of 100, whatever the thresholds of the
    configuration are. *)
Theorem unselected_holding_is_liquidated (pos : Position.t) :
  selected_stocks <> [] ->
  0 < cash_balance + sum_market_value current_positions ->
  pos ∈ current_positions ->
  Position.symbol pos ∉ selected_symbols ->
  0 < Position.quantity pos ->
  exists t,
    t ∈ targets_of plan
    /\ PortfolioTarget.symbol t = Position.symbol pos
    /\ PortfolioTarget.action t = "sell"%string
    /\ PortfolioTarget.trade_quantity t = Qfloor (Position.quantity pos)
    /\ PortfolioTarget.drift_pct t = 100.
Proof.
  intros Hne Htot Hin Hnot Hq.
  apply (proj2 (decimal_round_pos_iff _)) in Htot.
  fold (decimal_add cash_balance (sum_market_value current_positions))
    in Htot.
  fold total_value in Htot.
  destruct plan_cases as [(Hle & _) | [(_ & Hnil & _) | H]].
  - exfalso. lra.
  - contradiction.
  - destruct H as (_ & _ & s & tw & Hplan & Htargets).
    destruct (liquidation_target total_value selected_symbols pos)
      as [t |] eqn:Hliq.
    + exists t. rewrite Hplan. simpl. rewrite Htargets.
      split.
      * apply elem_of_app. right. apply list_elem_of_omap. eauto.
      * apply liquidation_target_inv in Hliq
          as (_ & _ & Hsym & Hact & _ & Hqty & Hdrift).
        rewrite Hqty, Qtrunc_nonneg_floor by (apply Qlt_le_weak, Hq).
        auto.
    + unfold liquidation_target in Hliq.
      apply Qltb_lt in Hq. rewrite Hq, andb_true_r in Hliq.
      rewrite bool_decide_eq_false_2 in Hliq by exact Hnot.
      discriminate.
Qed.

Lemma planner_returns_aux :
  selected_stocks <> [] -> exists s, plan = Ok s.
Proof.
  intros Hne.
  destruct plan_cases as [(_ & _ & Hs) | [(_ & Hnil & _) | H]].
  - exact Hs.
  - contradiction.
  - destruct H as (_ & _ & s & _ & Hplan & _). eauto.
Qed.

(** C9, as amended: a target of a selected symbol that is not a hold
    records as its trade value the gap between target and current value
    (their Decimal difference, in absolute value) without the cap; the
    cap enters the quantity only, which (for a cap that is not negative)
    is the whole-number part of the Decimal quotient of the capped gap by
    the price.  That quotient is rounded to 28 digits before it is
    truncated: quantity times price exceeds the capped gap by at most 5
    parts in 10^28 of it, and one more share would cost more than the
    capped gap less 5 parts in 10^28. *)
Theorem traded_quantity_is_floor_of_decimal_quotient
    (t : PortfolioTarget.t) :
  0 <= max_single_trade_cad cfg ->
  t ∈ targets_of plan ->
  PortfolioTarget.symbol t ∈ selected_symbols ->
  PortfolioTarget.action t <> "hold"%string ->
  let price := default 0 (security_prices !! PortfolioTarget.symbol t) in
  let gap :=
    Qabs (decimal_sub (PortfolioTarget.target_value t)
                      (PortfolioTarget.current_value t)) in
  let capped := Qmin gap (max_single_trade_cad cfg) in
  0 < price
  /\ PortfolioTarget.trade_value t = gap
  /\ PortfolioTarget.trade_quantity t = Qfloor (decimal_quot capped price)
  /\ inject_Z (PortfolioTarget.trade_quantity t) * price
     <= capped * (1 + decimal_eps)
  /\ capped * (1 - decimal_eps)
     < (inject_Z (PortfolioTarget.trade_quantity t) + 1) * price.
Proof.
  intros Hcap Hin Hsym Hact.
  apply target_origin in Hin as [_ [(sym & tw & _ & Hsel) | (p & _ & Hliq)]].
  - pose proof (selected_target_symbol _ _ _ _ _ _ Hsel) as [Hs Hprice].
    apply selected_target_fields in Hsel as (Hval & _ & Hqty).
    specialize (Hqty Hact). rewrite Hs. cbv zeta.
    rewrite Hval in Hqty.
    set (price := default 0 (security_prices !! sym)) in *.
    set (capped := Qmin _ (max_single_trade_cad cfg)) in *.
    assert (Hc : 0 <= capped).
    { subst capped. apply Q.min_glb; [apply Qabs_nonneg | exact Hcap]. }
    assert (Hnn : 0 <= capped / price).
    { apply Qle_shift_div_l; [exact Hprice |]. rewrite Qmult_0_l. exact Hc. }
    destruct (decimal_round_bounds _ Hnn) as [Hlo Hhi].
    fold (decimal_quot capped price) in Hlo, Hhi.
    pose proof (decimal_round_nonneg _ Hnn) as Hr.
    fold (decimal_quot capped price) in Hr.
    rewrite Hqty, Qtrunc_nonneg_floor by exact Hr.
    pose proof (Qfloor_le (decimal_quot capped price)) as Hfl.
    pose proof (Qlt_floor (decimal_quot capped price)) as Hfu.
    rewrite inject_Z_plus in Hfu. change (inject_Z 1) with 1 in Hfu.
    set (r := decimal_quot capped price) in *.
    set (n := inject_Z (Qfloor r)) in *.
    assert (Hx : capped / price * price == capped) by (field; lra).
    assert (Hup : r * price <= capped * (1 + decimal_eps)).
    { apply (Qmult_le_compat_r _ _ price) in Hhi; [| lra].
      assert (E : capped / price * (1 + decimal_eps) * price
                  == capped / price * price * (1 + decimal_eps)) by ring.
      rewrite E, Hx in Hhi. exact Hhi. }
    assert (Hdown : capped * (1 - decimal_eps) <= r * price).
    { apply (Qmult_le_compat_r _ _ price) in Hlo; [| lra].
      assert (E : capped / price * (1 - decimal_eps) * price
                  == capped / price * price * (1 - decimal_eps)) by ring.
      rewrite E, Hx in Hlo. exact Hlo. }
    repeat split; auto.
    + eapply Qle_trans; [| exact Hup].
      apply Qmult_le_compat_r; [exact Hfl | lra].
    + eapply Qle_lt_trans; [exact Hdown |].
      apply Qmult_lt_compat_r; [exact Hprice | exact Hfu].
  - apply liquidation_target_inv in Hliq as (Hnot & _ & Hs & _).
    rewrite Hs in Hsym. contradiction.
Qed.

(** C10: a selected symbol whose price is missing or not positive gets
    no target at all, neither from the rebalancing pass nor from the
    liquidation pass, and the planner does return. *)
Theorem unpriced_selection_gets_no_target (symbol : string) :
  symbol ∈ selected_symbols ->
  default 0 (security_prices !! symbol) <= 0 ->
  (exists s, plan = Ok s)
  /\ forall t, t ∈ targets_of plan -> PortfolioTarget.symbol t <> symbol.
Proof.
  intros Hsel Hprice. split.
  - apply planner_returns_aux. intros ->. inversion Hsel.
  - intros t Hin Heq.
    apply target_origin in Hin
      as [_ [(sym & tw & _ & Ht) | (p & _ & Hliq)]].
    + apply selected_target_symbol in Ht as [Hs Hp].
      subst sym. rewrite Heq in Hp. lra.
    + apply liquidation_target_inv in Hliq as (Hnot & _ & Hs & _).
      rewrite Hs in Heq. rewrite Heq in Hnot. contradiction.
Qed.

End Planner.

(** *** Order synthesis *)

(** Targets that trade less than one share yield no order, whatever
    their action says. *)
Lemma order_step_quantities acc target :
  Forall (fun o => (1 <= OrderRequest.quantity o)%Z) (fst acc ++ snd acc) ->
  Forall (fun o => (1 <= OrderRequest.quantity o)%Z)
         (fst (order_step acc target) ++ snd (order_step acc target)).
Proof.
  destruct acc as [sells buys]. unfold order_step. simpl.
  destruct (String.eqb _ "hold"); simpl; [auto |].
  destruct (Z.ltb_spec (PortfolioTarget.trade_quantity target) 1)
    as [Hlt | Hge]; simpl; [auto |].
  rewrite !Forall_app. intros [Hs Hb].
  destruct (String.eqb _ "sell"); simpl.
  - rewrite Forall_app. repeat split; auto.
  - destruct (String.eqb _ "buy"); simpl; [| auto].
    rewrite Forall_app. repeat split; auto.
Qed.

Lemma generate_orders_quantities summary :
  Forall (fun o => (1 <= OrderRequest.quantity o)%Z)
         (fst (generate_orders summary) ++ snd (generate_orders summary)).
Proof.
  unfold generate_orders.
  assert (Hgen : forall l acc,
             Forall (fun o => (1 <= OrderRequest.quantity o)%Z)
                    (fst acc ++ snd acc) ->
             Forall (fun o => (1 <= OrderRequest.quantity o)%Z)
                    (fst (foldl order_step acc l)
                     ++ snd (foldl order_step acc l))).
  { induction l as [| t l IH]; intros acc Hacc; simpl; [exact Hacc |].
    apply IH, order_step_quantities, Hacc. }
  apply Hgen. constructor.
Qed.

(** *** Concrete plans *)

Local Open Scope string_scope.

Lemma head_elem_of {A} (l : list A) (x : A) : head l = Some x -> x ∈ l.
Proof. destruct l; intros [= ->]. left. Qed.

(** C2 fails as stated: with 10 of cash and one selected symbol quoted
    at 50, the plan holds a buy target of quantity 0. *)
Lemma buy_target_with_zero_quantity :
  ~ (forall t,
        t ∈ targets_of (calculate_targets default_config [stock "A"] []
                          10 (quotes [("A", 50)]) ∅) ->
        PortfolioTarget.action t = "hold" <->
        PortfolioTarget.trade_quantity t = 0%Z).
Proof.
  intros H.
  assert (exists t,
             head (targets_of (calculate_targets default_config
                                 [stock "A"] [] 10 (quotes [("A", 50)]) ∅))
               = Some t
             /\ PortfolioTarget.action t = "buy"
             /\ PortfolioTarget.trade_quantity t = 0%Z)
    as (t & Hhead & Hact & Hqty).
  { eexists. split; [vm_compute; reflexivity |]. split; reflexivity. }
  apply head_elem_of, H in Hhead. apply Hhead in Hqty.
  rewrite Hact in Hqty. discriminate.
Qed.

Lemma hold_trades_nothing_witness :
  exists t,
    head (targets_of (calculate_targets default_config [stock "A"]
                        [held "A" 199 50] 60 (quotes [("A", 50)]) ∅))
      = Some t
    /\ PortfolioTarget.action t = "hold"
    /\ ((PortfolioTarget.action t = "hold" ->
         PortfolioTarget.trade_quantity t = 0%Z)
        /\ 0 <= PortfolioTarget.trade_value t).
Proof.
  eexists. split; [vm_compute; reflexivity |]. split; [reflexivity |].
  apply (hold_trades_nothing default_config [stock "A"]
           [held "A" 199 50] 60 (quotes [("A", 50)]) ∅).
  - repeat constructor. intros _. vm_compute. discriminate.
  - vm_compute. left.
Defined.

(** C3 fails as stated: a holding of 2.5 shares outside the selection is
    liquidated with a trade quantity of 2, so no target carries the
    position's quantity. *)
Lemma fractional_holding_not_fully_sold :
  ~ (exists t,
        t ∈ targets_of (calculate_targets default_config [stock "A"]
                          [held "C" (5 # 2) 40] 10000
                          (quotes [("A", 50)]) ∅)
        /\ PortfolioTarget.symbol t = "C"
        /\ inject_Z (PortfolioTarget.trade_quantity t)
             == Position.quantity (held "C" (5 # 2) 40)).
Proof.
  intros (t & Hin & Hsym & Hqty).
  set (l := targets_of _) in Hin. vm_compute in l. subst l.
  apply list_elem_of_In in Hin. simpl in Hin.
  destruct Hin as [<- | [<- | []]].
  - discriminate Hsym.
  - vm_compute in Hqty. discriminate Hqty.
Qed.

Lemma unselected_holding_is_liquidated_witness :
  exists t,
    t ∈ targets_of (calculate_targets default_config [stock "A"]
                      [held "C" 3 40] 10000 (quotes [("A", 50)]) ∅)
    /\ PortfolioTarget.symbol t = "C"
    /\ PortfolioTarget.action t = "sell"
    /\ PortfolioTarget.trade_quantity t = 3%Z
    /\ PortfolioTarget.drift_pct t = 100.
Proof.
  apply (unselected_holding_is_liquidated default_config [stock "A"]
           [held "C" 3 40] 10000 (quotes [("A", 50)]) ∅ (held "C" 3 40)).
  - discriminate.
  - vm_compute. reflexivity.
  - left.
  - intros Hin. apply list_elem_of_In in Hin. simpl in Hin.
    destruct Hin as [Heq | []]. discriminate Heq.
  - vm_compute. reflexivity.
Defined.

(** The scenario of the specification: 10000 in cash, A at 50 and B at 20
    selected, nothing held.  Both targets weigh 1/2, are worth 5000 and
    buy 100 and 250 shares. *)
Lemma two_equal_buys :
  Forall2 (fun t expected =>
             PortfolioTarget.symbol t = fst expected
             /\ PortfolioTarget.target_weight t == 1 # 2
             /\ PortfolioTarget.target_value t == 5000
             /\ PortfolioTarget.action t = "buy"
             /\ PortfolioTarget.trade_quantity t = snd expected)
          (targets_of (calculate_targets default_config
                         [stock "A"; stock "B"] [] 10000
                         (quotes [("A", 50); ("B", 20)]) ∅))
          [("A", 100%Z); ("B", 250%Z)].
Proof.
  set (l := targets_of _). vm_compute in l. subst l.
  repeat constructor.
Qed.


(** C9 fails as stated, twice.  The trade value a target records is
    not capped: with 10000 of cash, one selected symbol and the cap of
    5000, it is 10000.  And the quantity can exceed the floor of the
    capped value over the price: with 540 of cash and nine selected
    symbols quoted at 30, each target is worth
    59.99999999999999999999999999 and buys 2 shares, not 1. *)
Lemma trade_value_uncapped_and_quantity_rounded_up :
  ~ (forall t,
        t ∈ targets_of (calculate_targets default_config [stock "A"] []
                          10000 (quotes [("A", 50)]) ∅) ->
        PortfolioTarget.action t <> "hold" ->
        PortfolioTarget.trade_value t
        == Qmin (Qabs (PortfolioTarget.target_value t
                       - PortfolioTarget.current_value t))
                (max_single_trade_cad default_config))
  /\ ~ (forall t,
          t ∈ targets_of (calculate_targets default_config
                            (stock <$> nine_symbols) [] 540
                            (quotes ((fun s => (s, 30)) <$> nine_symbols))
                            ∅) ->
          PortfolioTarget.action t <> "hold" ->
          PortfolioTarget.trade_quantity t
          = Qfloor (Qmin (Qabs (PortfolioTarget.target_value t
                                - PortfolioTarget.current_value t))
                         (max_single_trade_cad default_config) / 30)).
Proof.
  split; intros H.
  - assert (exists t,
               head (targets_of (calculate_targets default_config
                                   [stock "A"] [] 10000
                                   (quotes [("A", 50)]) ∅)) = Some t
               /\ PortfolioTarget.action t = "buy"
               /\ PortfolioTarget.trade_value t == 10000
               /\ Qmin (Qabs (PortfolioTarget.target_value t
                              - PortfolioTarget.current_value t))
                       (max_single_trade_cad default_config) == 5000)
      as (t & Hhead & Hact & Hval & Hmin).
    { eexists. split; [vm_compute; reflexivity |].
      repeat split; vm_compute; reflexivity. }
    apply head_elem_of, H in Hhead.
    + rewrite Hval, Hmin in Hhead. vm_compute in Hhead. discriminate Hhead.
    + rewrite Hact. discriminate.
  - assert (exists t,
               head (targets_of (calculate_targets default_config
                                   (stock <$> nine_symbols) [] 540
                                   (quotes ((fun s => (s, 30))
                                              <$> nine_symbols)) ∅))
                 = Some t
               /\ PortfolioTarget.action t = "buy"
               /\ PortfolioTarget.target_value t
                  == 59.99999999999999999999999999
               /\ PortfolioTarget.trade_quantity t = 2%Z
               /\ Qfloor (Qmin (Qabs (PortfolioTarget.target_value t
                                      - PortfolioTarget.current_value t))
                               (max_single_trade_cad default_config) / 30)
                  = 1%Z)
      as (t & Hhead & Hact & _ & Hqty & Hfloor).
    { eexists. split; [vm_compute; reflexivity |].
      repeat split; vm_compute; reflexivity. }
    apply head_elem_of, H in Hhead.
    + rewrite Hqty, Hfloor in Hhead. discriminate Hhead.
    + rewrite Hact. discriminate.
Qed.

Lemma traded_quantity_is_floor_of_decimal_quotient_witness :
  exists t,
    head (targets_of (calculate_targets default_config
                        (stock <$> nine_symbols) [] 540
                        (quotes ((fun s => (s, 30)) <$> nine_symbols)) ∅))
      = Some t
    /\ PortfolioTarget.trade_quantity t = 2%Z
    /\ 0 < default 0 (quotes ((fun s => (s, 30)) <$> nine_symbols)
                        !! PortfolioTarget.symbol t)
    /\ PortfolioTarget.trade_value t =
         Qabs (decimal_sub (PortfolioTarget.target_value t)
                           (PortfolioTarget.current_value t))
    /\ PortfolioTarget.trade_quantity t =
         Qfloor (decimal_quot
                   (Qmin (Qabs (decimal_sub
                                  (PortfolioTarget.target_value t)
                                  (PortfolioTarget.current_value t)))
                         (max_single_trade_cad default_config))
                   (default 0 (quotes ((fun s => (s, 30)) <$> nine_symbols)
                                 !! PortfolioTarget.symbol t)))
    /\ inject_Z (PortfolioTarget.trade_quantity t)
         * default 0 (quotes ((fun s => (s, 30)) <$> nine_symbols)
                        !! PortfolioTarget.symbol t)
       <= Qmin (Qabs (decimal_sub (PortfolioTarget.target_value t)
                                  (PortfolioTarget.current_value t)))
               (max_single_trade_cad default_config)
          * (1 + decimal_eps)
    /\ Qmin (Qabs (decimal_sub (PortfolioTarget.target_value t)
                               (PortfolioTarget.current_value t)))
            (max_single_trade_cad default_config)
       * (1 - decimal_eps)
       < (inject_Z (PortfolioTarget.trade_quantity t) + 1)
         * default 0 (quotes ((fun s => (s, 30)) <$> nine_symbols)
                        !! PortfolioTarget.symbol t).
Proof.
  eexists. split; [vm_compute; reflexivity |]. split; [reflexivity |].
  apply (traded_quantity_is_floor_of_decimal_quotient default_config
           (stock <$> nine_symbols) [] 540
           (quotes ((fun s => (s, 30)) <$> nine_symbols)) ∅).
  - vm_compute. discriminate.
  - vm_compute. left.
  - vm_compute. left.
  - discriminate.
Defined.

(** Where the rounding of the weight 1/9 shows.  With 9000 of cash and
    nine symbols at 100, each target is worth
    999.9999999999999999999999999 and buys 9 shares, not 10.  With 3 of
    cash and three symbols at 1, each target is worth
    0.9999999999999999999999999999, below the minimum trade value of 1,
    and is held. *)
Lemma shares_of_a_rounded_weight :
  (exists t,
      head (targets_of (calculate_targets default_config
                          (stock <$> nine_symbols) [] 9000
                          (quotes ((fun s => (s, 100)) <$> nine_symbols))
                          ∅)) = Some t
      /\ PortfolioTarget.target_value t == 999.9999999999999999999999999
      /\ PortfolioTarget.action t = "buy"
      /\ PortfolioTarget.trade_quantity t = 9%Z)
  /\ (exists t,
        head (targets_of (calculate_targets default_config
                            [stock "A"; stock "B"; stock "C"] [] 3
                            (quotes [("A", 1); ("B", 1); ("C", 1)]) ∅))
          = Some t
        /\ PortfolioTarget.target_value t
           == 0.9999999999999999999999999999
        /\ PortfolioTarget.action t = "hold"
        /\ PortfolioTarget.trade_quantity t = 0%Z).
Proof.
  split; eexists; (split; [vm_compute; reflexivity |]);
    repeat split; vm_compute; reflexivity.
Qed.

Lemma unpriced_selection_gets_no_target_witness :
  (exists s,
      calculate_targets default_config [stock "A"; stock "B"]
        [held "A" 10 50] 1000 (quotes [("B", 20)]) ∅ = Ok s)
  /\ forall t,
      t ∈ targets_of (calculate_targets default_config
                        [stock "A"; stock "B"] [held "A" 10 50] 1000
                        (quotes [("B", 20)]) ∅) ->
      PortfolioTarget.symbol t <> "A".
Proof.
  apply (unpriced_selection_gets_no_target default_config
           [stock "A"; stock "B"] [held "A" 10 50] 1000
           (quotes [("B", 20)]) ∅ "A").
  - vm_compute. left.
  - vm_compute. discriminate.
Defined.

End RebalancerSpec.

(** ** The metric calculator and the ranker *)

Module StockPickerSpec.
Import StockPicker.

(** *** Risk-adjusted return *)

Lemma sharpe_positive r v :
  0 < v -> sharpe r v == (r * (365 / 90) - RISK_FREE_RATE) / v.
Proof.
  intros Hv. unfold sharpe, annualized_return.
  apply Qltb_lt in Hv. rewrite Hv. reflexivity.
Qed.

Lemma sharpe_not_positive r v : v <= 0 -> sharpe r v = 0.
Proof. intros Hv. unfold sharpe. apply Qltb_ge in Hv. rewrite Hv. reflexivity. Qed.

(** C5, as amended: the risk-adjusted return annualises the total-period
    return with the fixed factor 365/90, whatever number of days the
    series covers; it is 0 when the volatility is 0. *)
Theorem sharpe_uses_fixed_90_day_factor
    (series_std : list Q -> Q) (sqrt_252 : Q) (etf_symbols : list string)
    (symbol : string) (info : option ticker_info) (close volume : list Q) :
  let s :=
    _calculate_metrics series_std sqrt_252 etf_symbols symbol info
      close volume in
  ((1 < length close)%nat ->
   StockScore.return_90d s = default 0 (last close) / hd 0 close - 1)
  /\ (0 < StockScore.volatility s ->
      StockScore.sharpe_ratio s
      == (StockScore.return_90d s * (365 / 90) - RISK_FREE_RATE)
         / StockScore.volatility s)
  /\ (StockScore.volatility s == 0 -> StockScore.sharpe_ratio s == 0).
Proof.
  cbv zeta. unfold _calculate_metrics.
  cbn [StockScore.return_90d StockScore.volatility StockScore.sharpe_ratio].
  split; [| split].
  - intros Hlen. apply Nat.ltb_lt in Hlen. rewrite Hlen. reflexivity.
  - apply sharpe_positive.
  - intros Hz. rewrite sharpe_not_positive; [reflexivity |].
    rewrite Hz. apply Qle_refl.
Qed.

(** C5 fails as stated: for a series of two closes that covers 30 days
    (its volatility is the sentinel 999, so the standard deviation is
    not consulted) the risk-adjusted return is not the one annualised
    with 365/30. *)
Lemma sharpe_ignores_period_days :
  let s :=
    _calculate_metrics (fun _ => 0) 0 [] "A" None [100; 150] [1000; 1000] in
  StockScore.return_90d s == 1 # 2
  /\ StockScore.volatility s == 999
  /\ ~ (StockScore.sharpe_ratio s
        == spec_risk_adjusted 30 (StockScore.return_90d s)
             (StockScore.volatility s)).
Proof.
  cbv zeta. split; [| split].
  - vm_compute. reflexivity.
  - vm_compute. reflexivity.
  - vm_compute. discriminate.
Qed.

Lemma sharpe_uses_fixed_90_day_factor_witness :
  let s :=
    _calculate_metrics (fun _ => 0) 0 [] "A" None [100; 150] [1000; 1000] in
  StockScore.sharpe_ratio s
  == (StockScore.return_90d s * (365 / 90) - RISK_FREE_RATE)
     / StockScore.volatility s.
Proof.
  cbv zeta.
  apply (sharpe_uses_fixed_90_day_factor (fun _ => 0) 0 [] "A" None
           [100; 150] [1000; 1000]).
  vm_compute. reflexivity.
Defined.


(** *** Fractional ranks *)

Lemma elem_of_insert_by_value x l z :
  z ∈ insert_by_value x l <-> z = x \/ z ∈ l.
Proof.
  induction l as [| y l IH]; simpl.
  - rewrite list_elem_of_singleton, elem_of_nil. tauto.
  - destruct (Qle_bool (snd x) (snd y)).
    + rewrite elem_of_cons. reflexivity.
    + rewrite !elem_of_cons, IH. tauto.
Qed.

Lemma length_insert_by_value x l :
  length (insert_by_value x l) = S (length l).
Proof.
  induction l as [| y l IH]; simpl; [reflexivity |].
  destruct (Qle_bool (snd x) (snd y)); simpl; congruence.
Qed.

Lemma elem_of_sorted_by_value l z : z ∈ sorted_by_value l <-> z ∈ l.
Proof.
  induction l as [| x l IH]; simpl; [reflexivity |].
  rewrite elem_of_insert_by_value, elem_of_cons, IH. reflexivity.
Qed.

Lemma length_sorted_by_value l : length (sorted_by_value l) = length l.
Proof.
  induction l as [| x l IH]; simpl; [reflexivity |].
  rewrite length_insert_by_value. congruence.
Qed.

Lemma precedes_value_le x y : precedes x y -> snd x <= snd y.
Proof.
  intros [Hlt | [Heq _]]; [apply Qlt_le_weak, Hlt |].
  rewrite Heq. apply Qle_refl.
Qed.

Lemma precedes_of_le x y :
  snd x <= snd y -> (fst x < fst y)%nat -> precedes x y.
Proof.
  intros Hle Hidx. apply Qle_lteq in Hle as [Hlt | Heq].
  - left. exact Hlt.
  - right. auto.
Qed.

Lemma insert_by_value_sorted x l :
  StronglySorted precedes l ->
  (forall y, y ∈ l -> (fst x < fst y)%nat) ->
  StronglySorted precedes (insert_by_value x l).
Proof.
  induction l as [| y l IH]; simpl; intros Hs Hidx.
  - repeat constructor.
  - apply StronglySorted_cons in Hs as [Hy Hs].
    rewrite Forall_forall in Hy.
    destruct (Qle_bool (snd x) (snd y)) eqn:Hc.
    + apply Qle_bool_iff in Hc.
      apply StronglySorted_cons. split.
      * apply Forall_forall. intros z Hz.
        apply precedes_of_le; [| apply Hidx, Hz].
        apply elem_of_cons in Hz as [-> | Hz]; [exact Hc |].
        eapply Qle_trans; [exact Hc |].
        apply precedes_value_le, Hy, Hz.
      * apply StronglySorted_cons. rewrite Forall_forall. auto.
    + apply Qle_bool_gt in Hc.
      apply StronglySorted_cons. split.
      * apply Forall_forall. intros z Hz.
        apply elem_of_insert_by_value in Hz as [-> | Hz].
        -- left. exact Hc.
        -- apply Hy, Hz.
      * apply IH; [exact Hs |].
        intros z Hz. apply Hidx. right. exact Hz.
Qed.

Lemma elem_of_enumerate_from {A} (k : nat) (l : list A) j x :
  (j, x) ∈ enumerate_from k l <->
  exists i, j = (k + i)%nat /\ l !! i = Some x.
Proof.
  revert k. induction l as [| y l IH]; intros k; simpl.
  - split; [intros H; inversion H | intros (i & _ & H); discriminate].
  - rewrite elem_of_cons, IH. split.
    + intros [[= -> ->] | (i & -> & Hi)].
      * exists 0%nat. split; [lia | reflexivity].
      * exists (S i). split; [lia | exact Hi].
    + intros ([| i] & -> & Hi); simpl in Hi.
      * left. injection Hi as ->. f_equal. lia.
      * right. exists i. split; [lia | exact Hi].
Qed.

Lemma length_enumerate_from {A} (k : nat) (l : list A) :
  length (enumerate_from k l) = length l.
Proof. revert k. induction l; intros k; simpl; congruence. Qed.

Lemma enumerate_from_snoc {A} (k : nat) (l : list A) x :
  enumerate_from k (l ++ [x])
  = enumerate_from k l ++ [((k + length l)%nat, x)].
Proof.
  revert k. induction l as [| y l IH]; intros k; simpl.
  - do 2 f_equal. lia.
  - rewrite IH. do 4 f_equal. lia.
Qed.

Lemma sorted_enumerate_from (k : nat) (values : list Q) :
  StronglySorted precedes (sorted_by_value (enumerate_from k values)).
Proof.
  revert k. induction values as [| v values IH]; intros k; simpl.
  - constructor.
  - apply insert_by_value_sorted; [apply IH |].
    intros [j w] Hin. rewrite elem_of_sorted_by_value in Hin.
    apply elem_of_enumerate_from in Hin as (i & -> & _). simpl. lia.
Qed.

Lemma percentile_rank_unfold n values :
  percentile_rank n values
  = foldl (assign_rank n) (replicate n 0)
      (enumerate (sorted_by_value (enumerate values))).
Proof. reflexivity. Qed.

Lemma rank_fraction_bounds (a d : Z) :
  (0 <= a <= d)%Z -> (0 < d)%Z ->
  0 <= inject_Z a / inject_Z d /\ inject_Z a / inject_Z d <= 1.
Proof.
  intros [Ha Had] Hd.
  assert (0 < inject_Z d) as Hd' by (unfold Qlt; simpl; lia).
  split.
  - apply Qle_shift_div_l; [exact Hd' |].
    unfold Qle. simpl. lia.
  - apply Qle_shift_div_r; [exact Hd' |].
    unfold Qle. simpl. lia.
Qed.

Lemma length_assign_ranks n l acc :
  length (foldl (assign_rank n) acc l) = length acc.
Proof.
  revert acc. induction l as [| [k [i v]] l IH]; intros acc; simpl.
  - reflexivity.
  - rewrite IH. apply length_insert.
Qed.

Lemma assign_ranks_bounds n (l : list (nat * Q)) k acc :
  (k + length l <= n)%nat ->
  Forall (fun r => 0 <= r /\ r <= 1) acc ->
  Forall (fun r => 0 <= r /\ r <= 1)
         (foldl (assign_rank n) acc (enumerate_from k l)).
Proof.
  revert k acc. induction l as [| [i v] l IH]; intros k acc Hk Hacc; simpl.
  - exact Hacc.
  - simpl in Hk. apply IH; [lia |].
    apply Forall_insert; [exact Hacc |].
    apply rank_fraction_bounds; lia.
Qed.

Lemma percentile_rank_length n values :
  length (percentile_rank n values) = n.
Proof.
  rewrite percentile_rank_unfold, length_assign_ranks.
  apply length_replicate.
Qed.

Lemma percentile_rank_bounds values :
  Forall (fun r => 0 <= r /\ r <= 1)
         (percentile_rank (length values) values).
Proof.
  rewrite percentile_rank_unfold. apply assign_ranks_bounds.
  - rewrite length_sorted_by_value. unfold enumerate.
    rewrite length_enumerate_from. lia.
  - apply Forall_replicate. split; [apply Qle_refl | discriminate].
Qed.

(** The entry that the sort puts last is the last position, in input
    order, of the largest value. *)
Lemma last_sorted_is_last_maximum (values : list Q) i v z :
  values !! i = Some v ->
  (forall j w, values !! j = Some w -> w <= v) ->
  (forall j w, values !! j = Some w -> (i < j)%nat -> w < v) ->
  last (sorted_by_value (enumerate values)) = Some z ->
  fst z = i.
Proof.
  intros Hi Hmax Hlast Hz. destruct z as [i' v'].
  apply last_Some in Hz as [init Hz]. simpl.
  assert (Hin' : (i', v') ∈ sorted_by_value (enumerate values)).
  { rewrite Hz. apply elem_of_app. right. left. }
  rewrite elem_of_sorted_by_value in Hin'.
  apply elem_of_enumerate_from in Hin' as (j & -> & Hj). simpl.
  assert (Hin : (i, v) ∈ sorted_by_value (enumerate values)).
  { rewrite elem_of_sorted_by_value. apply elem_of_enumerate_from.
    exists i. auto. }
  rewrite Hz in Hin. apply elem_of_app in Hin as [Hin | Hin].
  - (* (i, v) comes earlier in the sorted list *)
    pose proof (sorted_enumerate_from 0 values) as Hs.
    fold (enumerate values) in Hs. rewrite Hz in Hs.
    assert (Hp : precedes (i, v) (j, v')).
    { eapply StronglySorted_app_1_elem_of; [exact Hs | exact Hin | left]. }
    pose proof (Hmax _ _ Hj) as Hle.
    destruct Hp as [Hlt | [Heq Hidx]]; simpl in *.
    + lra.
    + specialize (Hlast _ _ Hj Hidx). lra.
  - apply list_elem_of_singleton in Hin. injection Hin as -> _. reflexivity.
Qed.

(** C6, as amended: for a non-empty list of values the ranks are as many
    as the values and lie between 0 and 1; when there are at least two
    values, the last position (in input order) that holds the largest
    value gets rank 1; a single value, whatever it is, gets rank 0. *)
Theorem percentile_rank_of_maximum (values : list Q) :
  values <> [] ->
  let ranks := percentile_rank (length values) values in
  length ranks = length values
  /\ Forall (fun r => 0 <= r /\ r <= 1) ranks
  /\ (forall i v,
       (2 <= length values)%nat ->
       values !! i = Some v ->
       (forall j w, values !! j = Some w -> w <= v) ->
       (forall j w, values !! j = Some w -> (i < j)%nat -> w < v) ->
       exists r, ranks !! i = Some r /\ r == 1)
  /\ (forall v, values = [v] -> ranks = [0]).
Proof.
  intros Hne. cbv zeta.
  split; [apply percentile_rank_length |].
  split; [apply percentile_rank_bounds |].
  split; [| intros v ->; reflexivity].
  intros i v Hn Hi Hmax Hlast.
  set (sorted_vals := sorted_by_value (enumerate values)).
  assert (Hlen : length sorted_vals = length values).
  { subst sorted_vals. rewrite length_sorted_by_value.
    apply length_enumerate_from. }
  destruct (last sorted_vals) as [z |] eqn:Hz.
  2:{ apply last_None in Hz. rewrite Hz in Hlen. simpl in Hlen. lia. }
  pose proof (last_sorted_is_last_maximum _ _ _ _ Hi Hmax Hlast Hz) as Hfst.
  apply last_Some in Hz as [init Hz].
  rewrite percentile_rank_unfold. fold sorted_vals. rewrite Hz.
  unfold enumerate. rewrite enumerate_from_snoc, foldl_snoc.
  destruct z as [i' v']. simpl in Hfst. subst i'. simpl.
  eexists. split.
  - apply list_lookup_insert_eq.
    rewrite length_assign_ranks, length_replicate.
    eapply lookup_lt_Some, Hi.
  - rewrite Hz, length_app in Hlen. simpl in Hlen.
    replace (Z.max (Z.of_nat (length values) - 1) 1)
      with (Z.of_nat (length init)) by lia.
    apply Qmult_inv_r. intros Heq.
    unfold Qeq in Heq. simpl in Heq. lia.
Qed.

(** C6 fails as stated: a single candidate holds the largest value and is
    ranked 0. *)
Lemma single_candidate_ranks_zero :
  percentile_rank 1 [5] = [0]
  /\ ~ (exists r, percentile_rank 1 [5] !! 0%nat = Some r /\ r == 1).
Proof.
  split; [vm_compute; reflexivity |].
  intros (r & Hr & Hone). vm_compute in Hr. injection Hr as <-.
  vm_compute in Hone. discriminate Hone.
Qed.

Lemma percentile_rank_of_maximum_witness :
  let ranks := percentile_rank 4 [5; 7; 7; 1] in
  length ranks = 4%nat
  /\ Forall (fun r => 0 <= r /\ r <= 1) ranks
  /\ exists r, ranks !! 2%nat = Some r /\ r == 1.
Proof.
  destruct (percentile_rank_of_maximum [5; 7; 7; 1])
    as (Hlen & Hb & Hmax & _).
  - discriminate.
  - split; [exact Hlen |]. split; [exact Hb |].
    apply (Hmax 2%nat 7).
    + simpl. lia.
    + reflexivity.
    + intros [| [| [| [| j]]]] w [= <-]; vm_compute; discriminate.
    + intros [| [| [| [| j]]]] w [= <-] Hlt;
        try (vm_compute; reflexivity); lia.
Defined.

(** *** Sector diversity *)

Lemma sector_count_snoc sec l s :
  sector_count sec (l ++ [s])
  = (sector_count sec l
     + if decide (StockScore.sector s = sec) then 1 else 0)%nat.
Proof.
  unfold sector_count. rewrite filter_app, length_app. f_equal.
  rewrite filter_cons, filter_nil. destruct (decide _); reflexivity.
Qed.

Lemma diversity_step_agree cap acc s :
  counts_agree cap acc -> counts_agree cap (diversity_step cap acc s).
Proof.
  destruct acc as [counts diverse]. unfold counts_agree, diversity_step.
  simpl. intros Hinv.
  destruct (Z.ltb_spec (default 0%Z (counts !! StockScore.sector s)) cap)
    as [Hlt | Hge]; simpl; [| exact Hinv].
  intros sec. rewrite sector_count_snoc.
  destruct (decide (StockScore.sector s = sec)) as [<- | Hne].
  - rewrite lookup_insert_eq. simpl.
    destruct (Hinv (StockScore.sector s)) as [Hc _].
    split; lia.
  - rewrite lookup_insert_ne by exact Hne.
    rewrite Nat.add_0_r. apply Hinv.
Qed.

Lemma diversity_step_sublist cap acc s :
  exists kept,
    snd (diversity_step cap acc s) = snd acc ++ kept
    /\ kept `sublist_of` [s].
Proof.
  destruct acc as [counts diverse]. unfold diversity_step. simpl.
  destruct (_ <? _)%Z; simpl.
  - exists [s]. split; reflexivity.
  - exists []. split; [symmetry; apply app_nil_r | apply sublist_nil_l].
Qed.

Lemma diversity_loop cap scores acc :
  counts_agree cap acc ->
  counts_agree cap (foldl (diversity_step cap) acc scores)
  /\ exists kept,
       snd (foldl (diversity_step cap) acc scores) = snd acc ++ kept
       /\ kept `sublist_of` scores.
Proof.
  revert acc. induction scores as [| s scores IH]; intros acc Hinv; simpl.
  - split; [exact Hinv |].
    exists []. split; [symmetry; apply app_nil_r | constructor].
  - destruct (IH _ (diversity_step_agree cap acc s Hinv))
      as (Hinv' & kept & Heq & Hsub).
    split; [exact Hinv' |].
    destruct (diversity_step_sublist cap acc s) as (k1 & Hk1 & Hsub1).
    exists (k1 ++ kept). split.
    + rewrite Heq, Hk1. symmetry. apply app_assoc.
    + change (s :: scores) with ([s] ++ scores).
      apply sublist_app; assumption.
Qed.

(** C8: the diversity pass only removes candidates, keeping the others in
    their order, and every sector of a kept candidate occurs at most
    [max_per_sector] times among the kept ones. *)
Theorem sector_diversity_keeps_order_and_cap
    (scores : list StockScore.t) (max_per_sector : Z) :
  let diverse := _apply_sector_diversity scores max_per_sector in
  diverse `sublist_of` scores
  /\ forall s, s ∈ diverse ->
       (Z.of_nat (sector_count (StockScore.sector s) diverse)
        <= max_per_sector)%Z.
Proof.
  cbv zeta. unfold _apply_sector_diversity.
  destruct (diversity_loop max_per_sector scores (∅, []))
    as (Hinv & kept & Heq & Hsub).
  { intros sec. unfold sector_count. simpl. rewrite lookup_empty. simpl.
    split; [reflexivity | lia]. }
  simpl in Heq. split.
  - rewrite Heq. exact Hsub.
  - intros s Hin. apply Hinv.
    unfold sector_count.
    assert (Hf : s ∈ filter (fun s' => StockScore.sector s'
                                       = StockScore.sector s)
                   (snd (foldl (diversity_step max_per_sector)
                               (∅, []) scores))).
    { apply list_elem_of_filter. split; [reflexivity | exact Hin]. }
    destruct (filter _ _); [inversion Hf | simpl; lia].
Qed.

End StockPickerSpec.

(** ** The rate-gated executor *)

Module ExecutorSpec.
Import Executor.

Section Run.
Variable E : env.
Hypothesis elapsed_nonneg : forall k, 0 <= elapsed E k.

Lemma time_time_spec w :
  clock w <= fst (time_time E w)
  /\ clock (snd (time_time E w)) = fst (time_time E w).
Proof.
  unfold time_time. simpl. split; [| reflexivity].
  specialize (elapsed_nonneg (reads w)). lra.
Qed.

Lemma length_popleft_while cutoff ts :
  (length (popleft_while cutoff ts) <= length ts)%nat.
Proof.
  induction ts as [| t ts IH]; simpl; [lia |].
  destruct (Qltb t cutoff); simpl; lia.
Qed.

Lemma popleft_while_expired cutoff t ts :
  t < cutoff ->
  (length (popleft_while cutoff (t :: ts)) <= length ts)%nat.
Proof.
  intros Hlt. simpl. apply Qltb_lt in Hlt. rewrite Hlt.
  apply length_popleft_while.
Qed.

Lemma popleft_while_fresh cutoff t ts :
  cutoff <= t -> popleft_while cutoff (t :: ts) = t :: ts.
Proof. intros Hle. simpl. apply Qltb_ge in Hle. rewrite Hle. reflexivity. Qed.

Lemma prune_spec rl w :
  let '(rl', w') := _prune_expired E rl w in
  _max_requests rl' = _max_requests rl
  /\ _window_seconds rl' = _window_seconds rl
  /\ clock w <= clock w'
  /\ _timestamps rl' =
       popleft_while (clock w' - inject_Z (_window_seconds rl))
                     (_timestamps rl).
Proof.
  unfold _prune_expired.
  pose proof (time_time_spec w) as [Hle Hclock].
  destruct (time_time E w) as [now w1]. simpl in *. subst now.
  auto.
Qed.

Lemma acquire_wait_eq fuel rl w :
  acquire_wait E fuel rl w =
    if (_max_requests rl <=? Z.of_nat (length (_timestamps rl)))%Z then
      match _timestamps rl with
      | [] => Some (Raise IndexError, rl, w)
      | oldest :: _ =>
          let '(now, w) := time_time E w in
          let wait_time :=
            inject_Z (_window_seconds rl) - (now - oldest) + 1 in
          let w := time_sleep (Qmax wait_time 1) w in
          let '(rl, w) := _prune_expired E rl w in
          match fuel with
          | O => None
          | S fuel => acquire_wait E fuel rl w
          end
      end
    else Some (Ok tt, rl, w).
Proof. destruct fuel; reflexivity. Qed.

(** One round of waiting: afterwards the clock is past the window of
    the oldest time stamp, which has therefore been dropped. *)
Lemma wait_round rl w oldest rest :
  _timestamps rl = oldest :: rest ->
  let '(now, w1) := time_time E w in
  let wait_time := inject_Z (_window_seconds rl) - (now - oldest) + 1 in
  let '(rl', w') :=
    _prune_expired E rl (time_sleep (Qmax wait_time 1) w1) in
  _max_requests rl' = _max_requests rl
  /\ _window_seconds rl' = _window_seconds rl
  /\ clock w <= clock w'
  /\ oldest + inject_Z (_window_seconds rl) + 1 <= clock w'
  /\ (length (_timestamps rl') <= length rest)%nat.
Proof.
  intros Hts.
  pose proof (time_time_spec w) as [Hle Hclock].
  destruct (time_time E w) as [now w1]. simpl in Hle, Hclock.
  cbv zeta.
  set (w2 := time_sleep _ w1).
  pose proof (prune_spec rl w2) as Hprune.
  destruct (_prune_expired E rl w2) as [rl' w'].
  destruct Hprune as (Hmax & Hwin & Hmono & Hpruned).
  assert (Hw2 : oldest + inject_Z (_window_seconds rl) + 1 <= clock w2).
  { subst w2. unfold time_sleep. cbn [clock]. rewrite Hclock.
    pose proof (Q.le_max_l
                  (inject_Z (_window_seconds rl) - (now - oldest) + 1) 1).
    lra. }
  assert (Hw2' : clock w <= clock w2).
  { subst w2. unfold time_sleep. cbn [clock]. rewrite Hclock.
    pose proof (Q.le_max_r
                  (inject_Z (_window_seconds rl) - (now - oldest) + 1) 1).
    lra. }
  repeat split; try assumption; try lra.
  rewrite Hpruned, Hts. apply popleft_while_expired. lra.
Qed.

(** The waiting loop ends within as many rounds as there are time
    stamps; it never moves the clock back; with a positive limit it
    does not raise; and if it had to wait at all, the clock has
    passed the window of the time stamp that was oldest. *)
Lemma acquire_wait_spec fuel rl w :
  (length (_timestamps rl) <= fuel)%nat ->
  exists r rl' w',
    acquire_wait E fuel rl w = Some (r, rl', w')
    /\ _max_requests rl' = _max_requests rl
    /\ _window_seconds rl' = _window_seconds rl
    /\ clock w <= clock w'
    /\ ((1 <= _max_requests rl)%Z -> r = Ok tt)
    /\ (forall oldest rest,
          _timestamps rl = oldest :: rest ->
          (_max_requests rl <= Z.of_nat (length (_timestamps rl)))%Z ->
          oldest + inject_Z (_window_seconds rl) + 1 <= clock w').
Proof.
  revert rl w. induction fuel as [| fuel IH]; intros rl w Hfuel;
    rewrite acquire_wait_eq;
    destruct (Z.leb_spec (_max_requests rl)
                         (Z.of_nat (length (_timestamps rl))))
      as [Hfull | Hroom].
  - destruct (_timestamps rl) as [| oldest rest] eqn:Hts;
      [| simpl in Hfuel; lia].
    exists (Raise IndexError), rl, w.
    repeat split; try apply Qle_refl.
    + simpl in Hfull. lia.
    + intros ? ? [=].
  - exists (Ok tt), rl, w. repeat split; try apply Qle_refl. lia.
  - destruct (_timestamps rl) as [| oldest rest] eqn:Hts.
    + exists (Raise IndexError), rl, w.
      repeat split; try apply Qle_refl.
      * simpl in Hfull. lia.
      * intros ? ? [=].
    + pose proof (wait_round rl w oldest rest Hts) as Hround.
      destruct (time_time E w) as [now w1]. cbv zeta in Hround |- *.
      destruct (_prune_expired E rl _) as [rl1 w2].
      destruct Hround as (Hmax & Hwin & Hmono & Hpast & Hlen).
      destruct (IH rl1 w2) as (r & rl' & w' & Hrun & Hmax' & Hwin' &
                               Hmono' & Hok & _).
      { simpl in Hfuel. lia. }
      exists r, rl', w'. rewrite Hrun.
      split; [reflexivity |].
      split; [congruence |]. split; [congruence |].
      split; [lra |].
      split; [rewrite <- Hmax; exact Hok |].
      intros o' r' [= <- <-] _. lra.
  - exists (Ok tt), rl, w. repeat split; try apply Qle_refl. lia.
Qed.

Lemma acquire_spec rl w :
  exists r rl' w',
    acquire E rl w = Some (r, rl', w')
    /\ ((1 <= _max_requests rl)%Z -> r = Ok tt)
    /\ (r = Ok tt ->
        exists kept now,
          _timestamps rl' = kept ++ [now]
          /\ clock w <= now
          /\ forall first rest,
               _timestamps rl = first :: rest ->
               (_max_requests rl
                <= Z.of_nat (length (_timestamps rl)))%Z ->
               first + inject_Z (_window_seconds rl) <= now).
Proof.
  unfold acquire.
  pose proof (prune_spec rl w) as Hprune.
  destruct (_prune_expired E rl w) as [rl1 w1].
  destruct Hprune as (Hmax & Hwin & Hmono & Hpruned).
  destruct (acquire_wait_spec (length (_timestamps rl1)) rl1 w1)
    as (r & rl2 & w2 & Hrun & Hmax2 & Hwin2 & Hmono2 & Hok & Hpast);
    [lia |].
  rewrite Hrun. destruct r as [[] | e].
  - pose proof (time_time_spec w2) as [Hle Hclock].
    destruct (time_time E w2) as [now w3]. simpl in Hle, Hclock.
    eexists _, _, _. split; [reflexivity |].
    split; [reflexivity |]. intros _.
    exists (_timestamps rl2), now.
    split; [reflexivity |]. split; [lra |].
    intros first rest Hts Hfull.
    destruct (Qlt_le_dec first
                (clock w1 - inject_Z (_window_seconds rl)))
      as [Hexpired | Hfresh].
    + lra.
    + rewrite Hts, (popleft_while_fresh _ _ _ Hfresh) in Hpruned.
      rewrite Hts in Hfull.
      specialize (Hpast first rest Hpruned).
      rewrite Hpruned, Hmax, Hwin in Hpast.
      specialize (Hpast Hfull). lra.
  - eexists _, _, _. split; [reflexivity |].
    split; [| discriminate].
    intros Hpos. rewrite <- Hmax in Hpos.
    specialize (Hok Hpos). discriminate Hok.
Qed.

(** C7: when the limiter already holds at least [max_requests] (which
    is at least 1) time stamps, the next [acquire] does return, and the
    time stamp it records is at least [window_seconds] later than the
    oldest one held. *)
Theorem acquire_waits_for_window rl w first rest :
  _timestamps rl = first :: rest ->
  (1 <= _max_requests rl)%Z ->
  (_max_requests rl <= Z.of_nat (length (_timestamps rl)))%Z ->
  exists rl' w' kept now,
    acquire E rl w = Some (Ok tt, rl', w')
    /\ _timestamps rl' = kept ++ [now]
    /\ first + inject_Z (_window_seconds rl) <= now.
Proof.
  intros Hts Hpos Hfull.
  destruct (acquire_spec rl w) as (r & rl' & w' & Hrun & Hok & Hnew).
  specialize (Hok Hpos). subst r.
  destruct (Hnew eq_refl) as (kept & now & Hstamp & _ & Hlate).
  exists rl', w', kept, now. eauto.
Qed.

(** *** Counting trades *)

Variable cfg : config.

Lemma answered_app before a b :
  answered E before (a ++ b)
  = (answered E before a + answered E (before ++ a) b)%nat.
Proof.
  revert before. induction a as [| o a IH]; intros before; simpl.
  - rewrite app_nil_r. reflexivity.
  - rewrite IH, <- app_assoc. simpl. lia.
Qed.

Lemma step_effect_refl st : step_effect E st st [] [].
Proof.
  split; simpl; try reflexivity.
  - symmetry. apply app_nil_r.
  - lia.
Qed.

Lemma step_effect_trans st1 st2 st3 a1 a2 n1 n2 :
  step_effect E st1 st2 a1 n1 ->
  step_effect E st2 st3 a2 n2 ->
  step_effect E st1 st3 (a1 ++ a2) (n1 ++ n2).
Proof.
  intros [Hs1 Hc1 Hr1 He1] [Hs2 Hc2 Hr2 He2].
  rewrite Hs1 in Hc2, Hr2.
  split.
  - rewrite Hs2, Hs1. symmetry. apply app_assoc.
  - rewrite answered_app. lia.
  - rewrite answered_app, length_app. lia.
  - congruence.
Qed.

Lemma submit_effect order st :
  step_effect E st (snd (submit E order st)) [order]
              (option_list (fst (submit E order st))).
Proof.
  unfold submit.
  destruct (place_order E (submitted st) order) as [resp | e] eqn:Hp;
    split; simpl; rewrite ?Hp; try reflexivity; lia.
Qed.

Lemma execute_single_effect order st :
  exists resp st' attempts,
    _execute_single E order st = Some (resp, st')
    /\ attempts `sublist_of` [order]
    /\ step_effect E st st' attempts (option_list resp).
Proof.
  unfold _execute_single.
  destruct (acquire_spec (_rate_limiter st) (the_world st))
    as (r & rl & w & Hrun & _).
  rewrite Hrun. destruct r as [[] | e].
  - pose proof (submit_effect order (with_limiter st rl w)) as Heff.
    destruct (submit E order (with_limiter st rl w)) as [resp st'].
    exists resp, st', [order].
    split; [reflexivity |]. split; [reflexivity |].
    destruct Heff as [Hs Hc Hr He]. simpl in *.
    split; assumption.
  - exists None, (with_limiter st rl w), [].
    split; [reflexivity |]. split; [apply sublist_nil_l |].
    split; simpl; try reflexivity.
    + symmetry. apply app_nil_r.
    + lia.
Qed.

Lemma run_orders_effect orders st results :
  exists st' new attempts,
    run_orders E cfg orders st results = Some (st', results ++ new)
    /\ attempts `sublist_of` admitted cfg orders
    /\ step_effect E st st' attempts new.
Proof.
  revert st results.
  induction orders as [| order rest IH]; intros st results; simpl.
  - exists st, [], []. rewrite app_nil_r.
    split; [reflexivity |]. split; [constructor |].
    apply step_effect_refl.
  - destruct (_ <=? _)%Z.
    { exists st, [], []. rewrite app_nil_r.
      split; [reflexivity |]. split; [apply sublist_nil_l |].
      apply step_effect_refl. }
    unfold admitted. rewrite filter_cons.
    destruct (_validate_order cfg order) eqn:Hvalid; simpl.
    + destruct (execute_single_effect order st)
        as (resp & st1 & a1 & Hone & Hsub1 & Heff1).
      rewrite Hone.
      destruct (decide (true = true)) as [_ | Hne]; [| congruence].
      destruct resp as [resp |].
      * destruct (IH st1 (results ++ [resp]))
          as (st' & new & a2 & Hrest & Hsub2 & Heff2).
        exists st', (resp :: new), (a1 ++ a2).
        rewrite Hrest, <- app_assoc.
        split; [reflexivity |].
        split; [apply (sublist_app a1 [order] a2); assumption |].
        apply (step_effect_trans _ _ _ _ _ [resp] new Heff1 Heff2).
      * destruct (IH st1 results)
          as (st' & new & a2 & Hrest & Hsub2 & Heff2).
        exists st', new, (a1 ++ a2). rewrite Hrest.
        split; [reflexivity |].
        split; [apply (sublist_app a1 [order] a2); assumption |].
        apply (step_effect_trans _ _ _ _ _ [] new Heff1 Heff2).
    + destruct (decide (false = true)) as [Hne | _]; [congruence |].
      apply IH.
Qed.

Lemma sleep_in_effect d st : step_effect E st (sleep_in d st) [] [].
Proof.
  split; simpl; try reflexivity.
  - symmetry. apply app_nil_r.
  - lia.
Qed.

(** C1, as amended: a run counts one trade for every order for which
    the call of the order service returns, and none for a call that
    raises; the orders submitted all passed the per-order gates, so a
    rejected order is neither submitted nor counted. *)
Theorem trade_count_counts_answered_submissions
    (sell_orders buy_orders : list OrderRequest.t) (st : state) :
  exists results st' attempts,
    execute_orders E cfg sell_orders buy_orders st = Some (results, st')
    /\ submitted st' = submitted st ++ attempts
    /\ attempts `sublist_of` admitted cfg (sell_orders ++ buy_orders)
    /\ _daily_trade_count st'
       = (_daily_trade_count st
          + Z.of_nat (answered E (submitted st) attempts))%Z
    /\ length results = answered E (submitted st) attempts.
Proof.
  unfold execute_orders.
  destruct (run_orders_effect sell_orders st [])
    as (st1 & new1 & a1 & Hsell & Hsub1 & Heff1).
  rewrite Hsell. simpl.
  set (st2 := match sell_orders, buy_orders with
              | _ :: _, _ :: _ => sleep_in 5 st1
              | _, _ => st1
              end).
  assert (Heff2 : step_effect E st1 st2 [] []).
  { subst st2. destruct sell_orders, buy_orders;
      auto using step_effect_refl, sleep_in_effect. }
  destruct (run_orders_effect buy_orders st2 new1)
    as (st3 & new3 & a3 & Hbuy & Hsub3 & Heff3).
  rewrite Hbuy.
  pose proof (step_effect_trans _ _ _ _ _ _ _ Heff1
                (step_effect_trans _ _ _ _ _ _ _ Heff2 Heff3)) as Heff.
  simpl in Heff. destruct Heff as [Hs Hc Hr He].
  eexists _, _, (a1 ++ a3). split; [reflexivity |]. simpl.
  split; [exact Hs |].
  split; [| split; assumption].
  unfold admitted. rewrite filter_app. apply sublist_app; assumption.
Qed.

End Run.

(** Seven admissions against a limit of 6 per 3600 seconds, all asked for
    at time 0 on a clock that moves only by sleeping: the seventh is
    recorded at time 3601. *)
Lemma seven_requests_at_time_zero :
  exists rl w,
    acquire_times failing_service 7 (mk_limiter 6 3600 []) (mk_world 0 0)
      = Some (Ok tt, rl, w)
    /\ _timestamps rl = [3601] /\ clock w = 3601.
Proof. eexists _, _. split; [vm_compute; reflexivity |]. split; reflexivity. Qed.

Lemma acquire_waits_for_window_witness :
  exists rl' w' kept now,
    acquire failing_service (mk_limiter 6 3600 [0; 0; 0; 0; 0; 0])
      (mk_world 0 6) = Some (Ok tt, rl', w')
    /\ _timestamps rl' = kept ++ [now]
    /\ 0 + inject_Z 3600 <= now.
Proof.
  apply (acquire_waits_for_window failing_service
           (fun k => Qle_refl 0)
           (mk_limiter 6 3600 [0; 0; 0; 0; 0; 0]) (mk_world 0 6)
           0 [0; 0; 0; 0; 0]).
  - reflexivity.
  - simpl. lia.
  - simpl. lia.
Defined.

(** C1 fails as stated: an order that passes the gates is handed to an
    order service that raises; the attempt is made and the trade count
    stays 0. *)
Lemma failed_submission_is_not_counted :
  exists results st',
    execute_orders failing_service default_config
      [sell_order "A" 10 50] [] (init 6 3600 0) = Some (results, st')
    /\ submitted st' = [sell_order "A" 10 50]
    /\ _daily_trade_count st' = 0%Z
    /\ _daily_trade_count st' <> Z.of_nat (length (submitted st')).
Proof.
  eexists _, _. split; [vm_compute; reflexivity |].
  split; [reflexivity |]. split; [reflexivity |]. discriminate.
Qed.

Lemma trade_count_counts_answered_submissions_witness :
  exists results st' attempts,
    execute_orders accepting_service default_config
      [sell_order "A" 10 50; sell_order "B" 0 20] [sell_order "C" 1 6000]
      (init 6 3600 0) = Some (results, st')
    /\ submitted st' = submitted (init 6 3600 0) ++ attempts
    /\ attempts `sublist_of`
         admitted default_config
           ([sell_order "A" 10 50; sell_order "B" 0 20]
            ++ [sell_order "C" 1 6000])
    /\ _daily_trade_count st'
       = (_daily_trade_count (init 6 3600 0)
          + Z.of_nat (answered accepting_service
                        (submitted (init 6 3600 0)) attempts))%Z
    /\ length results
       = answered accepting_service (submitted (init 6 3600 0)) attempts.
Proof.
  apply (trade_count_counts_answered_submissions accepting_service
           (fun k => Qle_refl 0) default_config).
Defined.

End ExecutorSpec.

(** ** Further properties of the executor *)

Module ExecutorGuarantees.
Import Executor ExecutorSpec.

Section Limiter.
Variable E : env.
Hypothesis elapsed_nonneg : forall k, 0 <= elapsed E k.

(** *** The window of the limiter *)

Lemma popleft_while_suffix cutoff ts :
  popleft_while cutoff ts `suffix_of` ts.
Proof.
  induction ts as [| t ts IH]; simpl; [reflexivity |].
  destruct (Qltb t cutoff); [| reflexivity].
  apply suffix_cons_r, IH.
Qed.

Lemma filter_all {A} (P : A -> Prop) `{forall x, Decision (P x)}
    (l : list A) :
  Forall P l -> filter P l = l.
Proof.
  induction 1 as [| x l Hx _ IH]; [reflexivity |].
  rewrite filter_cons_True by exact Hx. f_equal. exact IH.
Qed.

Lemma popleft_while_sorted cutoff ts :
  StronglySorted Qle ts ->
  popleft_while cutoff ts = filter (fun t => Qltb t cutoff = false) ts.
Proof.
  induction ts as [| t ts IH]; intros Hs; simpl; [reflexivity |].
  apply StronglySorted_cons in Hs as [Hall Hs].
  rewrite filter_cons.
  destruct (Qltb t cutoff) eqn:Ht.
  - destruct (decide (true = false)) as [Hne | _]; [discriminate |].
    apply IH, Hs.
  - destruct (decide (false = false)) as [_ | Hne]; [| congruence].
    f_equal. symmetry. apply filter_all.
    eapply Forall_impl; [exact Hall |].
    intros u Hu. simpl in Hu. apply Qltb_ge. apply Qltb_ge in Ht.
    eapply Qle_trans; eassumption.
Qed.

(** X1: pruning a deque whose time stamps are in ascending order keeps
    exactly the time stamps that are not older than the window. *)
Theorem prune_keeps_the_window (rl : RateLimiter) (w : world) :
  StronglySorted Qle (_timestamps rl) ->
  let now := fst (time_time E w) in
  let cutoff := now - inject_Z (_window_seconds rl) in
  _timestamps (fst (_prune_expired E rl w))
  = filter (fun t => Qltb t cutoff = false) (_timestamps rl).
Proof.
  intros Hs. cbv zeta. unfold _prune_expired.
  destruct (time_time E w) as [now w1]. simpl.
  apply popleft_while_sorted, Hs.
Qed.

Lemma chronological_prune rl w :
  chronological rl w ->
  chronological (fst (_prune_expired E rl w)) (snd (_prune_expired E rl w)).
Proof.
  intros [Hs Hb].
  pose proof (prune_spec E elapsed_nonneg rl w) as Hp.
  destruct (_prune_expired E rl w) as [rl' w'].
  destruct Hp as (_ & _ & Hmono & Hts). simpl.
  destruct (popleft_while_suffix
              (clock w' - inject_Z (_window_seconds rl)) (_timestamps rl))
    as [dropped Hsplit].
  rewrite <- Hts in Hsplit. split.
  - rewrite Hsplit in Hs. eapply StronglySorted_app_1_r, Hs.
  - rewrite Hsplit in Hb. apply Forall_app in Hb as [_ Hb].
    eapply Forall_impl; [exact Hb |]. intros t Ht. simpl in Ht. lra.
Qed.

Lemma chronological_later rl w w' :
  chronological rl w -> clock w <= clock w' -> chronological rl w'.
Proof.
  intros [Hs Hb] Hle. split; [exact Hs |].
  eapply Forall_impl; [exact Hb |]. intros t Ht. simpl in Ht. lra.
Qed.

Lemma acquire_wait_room fuel rl w rl' w' :
  acquire_wait E fuel rl w = Some (Ok tt, rl', w') ->
  (Z.of_nat (length (_timestamps rl')) < _max_requests rl')%Z.
Proof.
  revert rl w. induction fuel as [| fuel IH]; intros rl w;
    rewrite acquire_wait_eq;
    destruct (Z.leb_spec (_max_requests rl)
                         (Z.of_nat (length (_timestamps rl))))
      as [Hfull | Hroom].
  - destruct (_timestamps rl) as [| oldest rest]; [discriminate |].
    destruct (time_time E w) as [now w1]. cbv zeta.
    destruct (_prune_expired E rl _) as [rl1 w2]. discriminate.
  - intros [= <- <-]. exact Hroom.
  - destruct (_timestamps rl) as [| oldest rest]; [discriminate |].
    destruct (time_time E w) as [now w1]. cbv zeta.
    destruct (_prune_expired E rl _) as [rl1 w2]. apply IH.
  - intros [= <- <-]. exact Hroom.
Qed.

Lemma acquire_wait_chronological fuel rl w rl' w' r :
  acquire_wait E fuel rl w = Some (r, rl', w') ->
  chronological rl w -> chronological rl' w'.
Proof.
  revert rl w. induction fuel as [| fuel IH]; intros rl w;
    rewrite acquire_wait_eq;
    destruct (Z.leb_spec (_max_requests rl)
                         (Z.of_nat (length (_timestamps rl))))
      as [Hfull | Hroom].
  - destruct (_timestamps rl) as [| oldest rest];
      [intros [= <- <- <-]; auto |].
    destruct (time_time E w) as [now w1]. cbv zeta.
    destruct (_prune_expired E rl _) as [rl1 w2]. discriminate.
  - intros [= <- <- <-]. auto.
  - destruct (_timestamps rl) as [| oldest rest] eqn:Hts;
      [intros [= <- <- <-]; auto |].
    pose proof (time_time_spec E elapsed_nonneg w) as [Hle Hclock].
    destruct (time_time E w) as [now w1]. simpl in Hle, Hclock. cbv zeta.
    set (w1' := time_sleep _ w1).
    assert (Hw1 : clock w <= clock w1').
    { subst w1'. unfold time_sleep. cbn [clock]. rewrite Hclock.
      pose proof (Q.le_max_r
                    (inject_Z (_window_seconds rl) - (now - oldest) + 1) 1).
      lra. }
    intros Hrun Hchron.
    pose proof (chronological_prune rl w1'
                  (chronological_later rl w w1' Hchron Hw1)) as Hp.
    destruct (_prune_expired E rl w1') as [rl1 w2]. simpl in Hp.
    eapply IH; eassumption.
  - intros [= <- <- <-]. auto.
Qed.

(** X2: with a limit of at least 1, [acquire] returns, leaves at most
    [max_requests] time stamps in the deque (however many it held before),
    and keeps the time stamps in the order of the clock. *)
Theorem acquire_keeps_limit_and_order (rl : RateLimiter) (w : world) :
  (1 <= _max_requests rl)%Z ->
  chronological rl w ->
  exists rl' w',
    acquire E rl w = Some (Ok tt, rl', w')
    /\ _max_requests rl' = _max_requests rl
    /\ (Z.of_nat (length (_timestamps rl')) <= _max_requests rl)%Z
    /\ chronological rl' w'.
Proof.
  intros Hpos Hchron. unfold acquire.
  pose proof (prune_spec E elapsed_nonneg rl w) as Hprune.
  pose proof (chronological_prune rl w Hchron) as Hc1.
  destruct (_prune_expired E rl w) as [rl1 w1]. simpl in Hc1.
  destruct Hprune as (Hmax & _ & _ & _).
  destruct (acquire_wait_spec E elapsed_nonneg
              (length (_timestamps rl1)) rl1 w1)
    as (r & rl2 & w2 & Hrun & Hmax2 & _ & _ & Hok & _); [lia |].
  rewrite Hrun. rewrite <- Hmax in Hpos. specialize (Hok Hpos). subst r.
  pose proof (acquire_wait_room _ _ _ _ _ Hrun) as Hroom.
  pose proof (acquire_wait_chronological _ _ _ _ _ _ Hrun Hc1) as [Hs2 Hb2].
  pose proof (time_time_spec E elapsed_nonneg w2) as [Hle Hclock].
  destruct (time_time E w2) as [now w3]. simpl in Hle, Hclock.
  eexists _, _. split; [reflexivity |]. simpl.
  split; [congruence |].
  split; [rewrite length_app; simpl; lia |].
  split.
  - apply StronglySorted_app_2; [| exact Hs2 | repeat constructor].
    intros t1 t2 Ht1 Ht2. apply list_elem_of_singleton in Ht2 as ->.
    rewrite Forall_forall in Hb2. specialize (Hb2 _ Ht1). simpl in Hb2. lra.
  - rewrite Hclock. apply Forall_app. split.
    + eapply Forall_impl; [exact Hb2 |]. intros t Ht. simpl in Ht. lra.
    + repeat constructor. apply Qle_refl.
Qed.

(** X3: [can_proceed] answers yes exactly when [remaining_capacity] is
    positive, and after a yes the next [acquire] does not sleep: the clock
    only moves by what its two readings find elapsed, and the new time
    stamp is the clock. *)
Theorem can_proceed_means_no_wait (rl : RateLimiter) (w : world) :
  let '(yes, rl1, w1) := can_proceed E rl w in
  let '(capacity, rl1', w1') := remaining_capacity E rl w in
  rl1' = rl1 /\ w1' = w1
  /\ (yes = true <-> (0 < capacity)%Z)
  /\ (yes = true ->
      exists rl2 w2 kept,
        acquire E rl1 w1 = Some (Ok tt, rl2, w2)
        /\ _timestamps rl2 = kept ++ [clock w2]
        /\ kept `suffix_of` _timestamps rl1
        /\ clock w2
           = clock w1 + elapsed E (reads w1) + elapsed E (S (reads w1))).
Proof.
  unfold can_proceed, remaining_capacity.
  destruct (_prune_expired E rl w) as [rl1 w1].
  split; [reflexivity |]. split; [reflexivity |].
  split; [rewrite Z.ltb_lt; lia |].
  intros Hyes. apply Z.ltb_lt in Hyes.
  unfold acquire, _prune_expired, time_time. cbn [fst snd clock reads].
  set (ts2 := popleft_while _ (_timestamps rl1)).
  assert (Hlen : (length ts2 <= length (_timestamps rl1))%nat)
    by apply length_popleft_while.
  rewrite acquire_wait_eq. cbn [_max_requests _timestamps set_timestamps].
  destruct (Z.leb_spec (_max_requests rl1) (Z.of_nat (length ts2)))
    as [Hfull | _]; [lia |].
  eexists _, _, ts2. split; [reflexivity |].
  cbn [_timestamps set_timestamps clock reads].
  split; [reflexivity |]. split; [apply popleft_while_suffix | reflexivity].
Qed.

End Limiter.

Section Run.
Variable E : env.
Hypothesis elapsed_nonneg : forall k, 0 <= elapsed E k.
Variable cfg : config.

(** *** A run of [execute_orders] *)

Lemma admitted_within_gates orders :
  Forall (within_gates cfg) (admitted cfg orders).
Proof.
  apply Forall_forall. intros o Ho.
  apply list_elem_of_filter in Ho as [Hvalid _].
  unfold _validate_order in Hvalid. unfold within_gates.
  destruct (Qltb _ _) eqn:Hvalue; [discriminate |].
  destruct (Z.ltb_spec (OrderRequest.quantity o) 1); [discriminate |].
  apply Qltb_ge in Hvalue. split; [lia | exact Hvalue].
Qed.

Lemma admitted_sublist orders : admitted cfg orders `sublist_of` orders.
Proof. apply sublist_filter. Qed.

Lemma Forall_sublist {A} (P : A -> Prop) (l k : list A) :
  l `sublist_of` k -> Forall P k -> Forall P l.
Proof.
  intros Hsub Hk. apply Forall_forall. intros x Hx.
  rewrite Forall_forall in Hk. eapply Hk, elem_of_sublist; eassumption.
Qed.

Lemma execute_orders_effect sell_orders buy_orders st :
  exists results st' sold bought,
    execute_orders E cfg sell_orders buy_orders st = Some (results, st')
    /\ sold `sublist_of` admitted cfg sell_orders
    /\ bought `sublist_of` admitted cfg buy_orders
    /\ submitted st' = submitted st ++ sold ++ bought
    /\ _daily_trade_count st'
       = (_daily_trade_count st
          + Z.of_nat (answered E (submitted st) (sold ++ bought)))%Z
    /\ length results = answered E (submitted st) (sold ++ bought)
    /\ _executed_orders st' = _executed_orders st ++ results.
Proof.
  unfold execute_orders.
  destruct (run_orders_effect E elapsed_nonneg cfg sell_orders st [])
    as (st1 & new1 & a1 & Hsell & Hsub1 & Heff1).
  rewrite Hsell. simpl.
  set (st2 := match sell_orders, buy_orders with
              | _ :: _, _ :: _ => sleep_in 5 st1
              | _, _ => st1
              end).
  assert (Heff2 : step_effect E st1 st2 [] []).
  { subst st2. destruct sell_orders, buy_orders;
      auto using step_effect_refl, sleep_in_effect. }
  destruct (run_orders_effect E elapsed_nonneg cfg buy_orders st2 new1)
    as (st3 & new3 & a3 & Hbuy & Hsub3 & Heff3).
  rewrite Hbuy.
  pose proof (step_effect_trans E _ _ _ _ _ _ _ Heff1
                (step_effect_trans E _ _ _ _ _ _ _ Heff2 Heff3)) as Heff.
  simpl in Heff. destruct Heff as [Hs Hc Hr He].
  eexists _, _, a1, a3. split; [reflexivity |]. simpl.
  repeat split; try assumption. congruence.
Qed.

(** X4: a run submits its sell orders before its buy orders, each group in
    the order given, and submits no order that the per-order gates refuse:
    every submitted order has a quantity of at least 1 and a value (the
    float product of limit price and quantity that the gate computes)
    within the per-trade ceiling. *)
Theorem run_submits_sells_first_within_gates
    (sell_orders buy_orders : list OrderRequest.t) (st : state) :
  exists results st' sold bought,
    execute_orders E cfg sell_orders buy_orders st = Some (results, st')
    /\ submitted st' = submitted st ++ sold ++ bought
    /\ sold `sublist_of` sell_orders
    /\ bought `sublist_of` buy_orders
    /\ Forall (within_gates cfg) (sold ++ bought).
Proof.
  destruct (execute_orders_effect sell_orders buy_orders st)
    as (results & st' & sold & bought & Hrun & Hs & Hb & Hlog & _).
  exists results, st', sold, bought.
  split; [exact Hrun |]. split; [exact Hlog |].
  split; [etrans; [exact Hs | apply admitted_sublist] |].
  split; [etrans; [exact Hb | apply admitted_sublist] |].
  apply Forall_app. split.
  - eapply Forall_sublist; [exact Hs | apply admitted_within_gates].
  - eapply Forall_sublist; [exact Hb | apply admitted_within_gates].
Qed.

Lemma execute_single_count order st resp st' :
  _execute_single E order st = Some (resp, st') ->
  (_daily_trade_count st <= _daily_trade_count st'
   <= _daily_trade_count st + 1)%Z.
Proof.
  unfold _execute_single.
  destruct (acquire E _ _) as [[[[[] | e] rl] w] |]; [| | discriminate].
  - unfold submit.
    destruct (place_order E _ order); intros [= <- <-]; simpl; lia.
  - intros [= <- <-]. simpl. lia.
Qed.

Lemma run_orders_count orders st results st' results' :
  run_orders E cfg orders st results = Some (st', results') ->
  (_daily_trade_count st <= _daily_trade_count st'
   <= Z.max (_daily_trade_count st) (max_daily_trades cfg))%Z
  /\ ((max_daily_trades cfg <= _daily_trade_count st)%Z ->
      st' = st /\ results' = results).
Proof.
  revert st results.
  induction orders as [| order rest IH]; intros st results; simpl.
  - intros [= <- <-]. split; [lia | auto].
  - destruct (Z.leb_spec (max_daily_trades cfg) (_daily_trade_count st))
      as [Hfull | Hroom].
    + intros [= <- <-]. split; [lia | auto].
    + destruct (negb _).
      * intros Hrun. apply IH in Hrun as [Hc _]. split; [exact Hc | lia].
      * destruct (_execute_single E order st) as [[resp st1] |] eqn:Hone;
          [| discriminate].
        apply execute_single_count in Hone.
        destruct resp; intros Hrun; apply IH in Hrun as [Hc _];
          (split; [lia | lia]).
Qed.

(** X5: a run never takes the daily trade count beyond the daily ceiling
    (or beyond where the count already stood), and when the ceiling is
    reached before the run it submits nothing and returns no result. *)
Theorem run_respects_daily_ceiling
    (sell_orders buy_orders : list OrderRequest.t) (st : state) :
  exists results st',
    execute_orders E cfg sell_orders buy_orders st = Some (results, st')
    /\ (_daily_trade_count st <= _daily_trade_count st'
        <= Z.max (_daily_trade_count st) (max_daily_trades cfg))%Z
    /\ ((max_daily_trades cfg <= _daily_trade_count st)%Z ->
        results = []
        /\ submitted st' = submitted st
        /\ _daily_trade_count st' = _daily_trade_count st).
Proof.
  destruct (execute_orders_effect sell_orders buy_orders st)
    as (results & st' & _ & _ & Hrun & _).
  exists results, st'. split; [exact Hrun |].
  unfold execute_orders in Hrun.
  destruct (run_orders E cfg sell_orders st []) as [[st1 res1] |] eqn:Hsell;
    [| discriminate].
  apply run_orders_count in Hsell as [Hc1 Hstop1].
  set (st2 := match sell_orders, buy_orders with
              | _ :: _, _ :: _ => sleep_in 5 st1
              | _, _ => st1
              end) in Hrun.
  assert (Hst2 : _daily_trade_count st2 = _daily_trade_count st1
                 /\ submitted st2 = submitted st1).
  { subst st2. destruct sell_orders, buy_orders; auto. }
  destruct Hst2 as [Hcount2 Hlog2].
  destruct (run_orders E cfg buy_orders st2 res1) as [[st3 res3] |] eqn:Hbuy;
    [| discriminate].
  apply run_orders_count in Hbuy as [Hc3 Hstop3].
  injection Hrun as <- <-. simpl.
  split; [lia |].
  intros Hfull. destruct (Hstop1 Hfull) as [-> ->].
  destruct Hstop3 as [-> ->]; [lia |].
  auto.
Qed.

(** X6: if the executor has recorded as many responses as it has counted
    trades (as a new executor has), a run keeps it so: the summary reports
    as many orders as daily trades used, and its successful and failed
    orders add up to that number. *)
Theorem summary_counts_agree
    (sell_orders buy_orders : list OrderRequest.t) (st : state) :
  Z.of_nat (length (_executed_orders st)) = _daily_trade_count st ->
  exists results st',
    execute_orders E cfg sell_orders buy_orders st = Some (results, st')
    /\ Z.of_nat (length (_executed_orders st')) = _daily_trade_count st'
    /\ let s := get_execution_summary st' in
       Z.of_nat (total_orders s) = daily_trades_used s
       /\ (successful s + failed s = total_orders s)%nat.
Proof.
  intros Hinv.
  destruct (execute_orders_effect sell_orders buy_orders st)
    as (results & st' & sold & bought & Hrun & _ & _ & _ & Hc & Hr & He).
  exists results, st'. split; [exact Hrun |].
  assert (Hinv' : Z.of_nat (length (_executed_orders st'))
                  = _daily_trade_count st').
  { rewrite He, length_app, Hc, Hr. lia. }
  split; [exact Hinv' |]. cbv zeta. unfold get_execution_summary. simpl.
  split; [exact Hinv' |].
  pose proof (length_filter
                (fun o => OrderResponse.status o <> "rejected"%string)
                (_executed_orders st')).
  lia.
Qed.

End Run.

(** *** Concrete runs *)

Lemma prune_keeps_the_window_witness :
  _timestamps (fst (_prune_expired failing_service
                      (mk_limiter 6 3600 [0; 100; 4000]) (mk_world 3650 0)))
  = [100; 4000].
Proof.
  rewrite (prune_keeps_the_window failing_service
             (mk_limiter 6 3600 [0; 100; 4000]) (mk_world 3650 0)).
  - vm_compute. reflexivity.
  - simpl. repeat constructor; vm_compute; discriminate.
Defined.

Lemma acquire_keeps_limit_and_order_witness :
  exists rl' w',
    acquire failing_service (mk_limiter 2 3600 [0; 10; 20]) (mk_world 30 0)
      = Some (Ok tt, rl', w')
    /\ _max_requests rl' = 2%Z
    /\ (Z.of_nat (length (_timestamps rl')) <= 2)%Z
    /\ chronological rl' w'.
Proof.
  apply (acquire_keeps_limit_and_order failing_service
           (fun k => Qle_refl 0)
           (mk_limiter 2 3600 [0; 10; 20]) (mk_world 30 0)).
  - simpl. lia.
  - split; simpl; repeat constructor; vm_compute; discriminate.
Defined.

Lemma run_submits_sells_first_within_gates_witness :
  exists results st' sold bought,
    execute_orders accepting_service default_config
      [sell_order "A" 10 50; sell_order "B" 0 20] [sell_order "C" 1 6000]
      (init 6 3600 0) = Some (results, st')
    /\ submitted st' = submitted (init 6 3600 0) ++ sold ++ bought
    /\ sold `sublist_of` [sell_order "A" 10 50; sell_order "B" 0 20]
    /\ bought `sublist_of` [sell_order "C" 1 6000]
    /\ Forall (within_gates default_config) (sold ++ bought).
Proof.
  apply (run_submits_sells_first_within_gates accepting_service
           (fun k => Qle_refl 0) default_config).
Defined.

Lemma run_respects_daily_ceiling_witness :
  exists results st',
    execute_orders accepting_service (mk_config 1 5000)
      [sell_order "A" 10 50; sell_order "B" 5 20] [] (init 6 3600 0)
      = Some (results, st')
    /\ (_daily_trade_count (init 6 3600 0) <= _daily_trade_count st'
        <= Z.max (_daily_trade_count (init 6 3600 0)) 1)%Z
    /\ ((1 <= _daily_trade_count (init 6 3600 0))%Z ->
        results = []
        /\ submitted st' = submitted (init 6 3600 0)
        /\ _daily_trade_count st' = _daily_trade_count (init 6 3600 0)).
Proof.
  apply (run_respects_daily_ceiling accepting_service
           (fun k => Qle_refl 0) (mk_config 1 5000)).
Defined.

Lemma summary_counts_agree_witness :
  exists results st',
    execute_orders accepting_service default_config
      [sell_order "A" 10 50] [] (init 6 3600 0) = Some (results, st')
    /\ Z.of_nat (length (_executed_orders st')) = _daily_trade_count st'
    /\ let s := get_execution_summary st' in
       Z.of_nat (total_orders s) = daily_trades_used s
       /\ (successful s + failed s = total_orders s)%nat.
Proof.
  apply (summary_counts_agree accepting_service (fun k => Qle_refl 0)
           default_config).
  reflexivity.
Defined.

End ExecutorGuarantees.

(** ** Further properties of the planner and of the order synthesis *)

Module RebalancerGuarantees.
Import Rebalancer RebalancerSpec.

(** *** Positions by symbol *)

Lemma build_pos_map_snoc ps p :
  build_pos_map (ps ++ [p]) = <[Position.symbol p := p]> (build_pos_map ps).
Proof. unfold build_pos_map. rewrite foldl_snoc. reflexivity. Qed.

Lemma build_pos_map_lookup ps sym :
  build_pos_map ps !! sym
  = last (filter (fun p => Position.symbol p = sym) ps).
Proof.
  induction ps as [| p ps IH] using rev_ind; [reflexivity |].
  rewrite build_pos_map_snoc, filter_app, filter_cons, filter_nil.
  destruct (decide (Position.symbol p = sym)) as [Heq | Hne].
  - rewrite Heq, lookup_insert_eq, last_snoc. reflexivity.
  - rewrite lookup_insert_ne by exact Hne. rewrite app_nil_r. exact IH.
Qed.

Section Planner.
Variable cfg : config.
Variable selected_stocks : list StockScore.t.
Variable current_positions : list Position.t.
Variable cash_balance : Q.
Variable security_prices : gmap string Q.
Variable security_ids : gmap string string.

Let selected_symbols := StockScore.symbol <$> selected_stocks.
Let total_value :=
  decimal_add cash_balance (sum_market_value current_positions).
Let plan :=
  calculate_targets cfg selected_stocks current_positions cash_balance
    security_prices security_ids.

Lemma selected_target_values tv tw tvp pm sym t :
  selected_target cfg tv tw tvp pm security_prices security_ids sym
    = Some t ->
  PortfolioTarget.target_weight t = tw
  /\ PortfolioTarget.target_value t = tvp
  /\ PortfolioTarget.security_id t
     = default EmptyString (security_ids !! sym)
  /\ PortfolioTarget.current_value t
     = match pm !! sym with
       | Some p => Position.market_value p
       | None => 0
       end.
Proof.
  unfold selected_target.
  destruct (Qle_bool _ 0); [discriminate |].
  destruct (decide_trade _ _ _ _) as [a q].
  intros Heq. apply (inj Some) in Heq. subst t. auto.
Qed.

(** X7: when several positions carry the symbol of a selected target, its
    current value is the market value of the last of them in the list of
    positions; it is 0 when no position carries the symbol. *)
Theorem current_value_is_last_position (t : PortfolioTarget.t) :
  t ∈ targets_of plan ->
  PortfolioTarget.symbol t ∈ selected_symbols ->
  PortfolioTarget.current_value t
  = match last (filter (fun p => Position.symbol p
                                  = PortfolioTarget.symbol t)
                       current_positions) with
    | Some p => Position.market_value p
    | None => 0
    end.
Proof.
  intros Hin Hsel.
  apply (target_origin cfg selected_stocks current_positions cash_balance
           security_prices security_ids) in Hin
    as [_ [(sym & tw & _ & Ht) | (p & _ & Hliq)]].
  - pose proof Ht as Hs. apply selected_target_symbol in Hs as [Hs _].
    apply selected_target_values in Ht as (_ & _ & _ & Hcur).
    rewrite Hcur, Hs, build_pos_map_lookup. reflexivity.
  - apply liquidation_target_inv in Hliq as (Hnot & _ & Hs & _).
    rewrite Hs in Hsel. contradiction.
Qed.

Lemma omap_keys_filter {A} (f : A -> option PortfolioTarget.t)
    (key : A -> string) (test : A -> bool) (l : list A) :
  (forall x, test x = true ->
             exists t, f x = Some t /\ PortfolioTarget.symbol t = key x) ->
  (forall x, test x = false -> f x = None) ->
  PortfolioTarget.symbol <$> omap f l
  = key <$> filter (fun x => test x = true) l.
Proof.
  intros Hyes Hno. induction l as [| x l IH]; [reflexivity |].
  rewrite filter_cons. cbn [omap list_omap].
  destruct (test x) eqn:Hx.
  - destruct (Hyes x Hx) as (t & Ht & Hkey).
    change (omap f (x :: l)) with
      (match f x with Some y => y :: omap f l | None => omap f l end).
    rewrite Ht. rewrite decide_True by reflexivity.
    rewrite !fmap_cons, Hkey, IH. reflexivity.
  - change (omap f (x :: l)) with
      (match f x with Some y => y :: omap f l | None => omap f l end).
    rewrite (Hno x Hx). rewrite decide_False by discriminate. exact IH.
Qed.

Lemma selected_target_priced tv tw tvp pm sym :
  (priced security_prices sym = true ->
   exists t,
     selected_target cfg tv tw tvp pm security_prices security_ids sym
       = Some t
     /\ PortfolioTarget.symbol t = sym)
  /\ (priced security_prices sym = false ->
      selected_target cfg tv tw tvp pm security_prices security_ids sym
        = None).
Proof.
  unfold priced, selected_target, Qltb.
  destruct (Qle_bool _ 0); cbn [negb]; split; try discriminate.
  - reflexivity.
  - intros _. destruct (decide_trade _ _ _ _) as [a q]. eauto.
Qed.

Lemma liquidation_target_test tv pos :
  (to_liquidate selected_symbols pos = true ->
   exists t,
     liquidation_target tv selected_symbols pos = Some t
     /\ PortfolioTarget.symbol t = Position.symbol pos)
  /\ (to_liquidate selected_symbols pos = false ->
      liquidation_target tv selected_symbols pos = None).
Proof.
  unfold to_liquidate, liquidation_target.
  destruct (_ && _); split; try discriminate; eauto.
Qed.

(** X8: the targets are, in this order, one for every selected symbol
    that has a positive price, in the order of the selection, and then
    one for every position held in positive quantity whose symbol is not
    selected, in the order of the positions; there is no other target. *)
Theorem targets_follow_input_order :
  0 < total_value ->
  selected_stocks <> [] ->
  PortfolioTarget.symbol <$> targets_of plan
  = filter (fun sym => priced security_prices sym = true) selected_symbols
    ++ (Position.symbol
          <$> filter (fun p => to_liquidate selected_symbols p = true)
                     current_positions).
Proof.
  intros Htot Hne.
  destruct (plan_cases cfg selected_stocks current_positions cash_balance
              security_prices security_ids)
    as [(Hle & _) | [(_ & Hnil & _) | H]].
  - fold total_value in Hle. exfalso. lra.
  - contradiction.
  - destruct H as (_ & _ & s & tw & Hplan & Htargets).
    fold plan in Hplan. rewrite Hplan. simpl. rewrite Htargets, fmap_app.
    fold total_value selected_symbols. f_equal.
    + rewrite <- (list_fmap_id (filter _ selected_symbols)).
      apply omap_keys_filter; intros sym Hsym;
        apply selected_target_priced; exact Hsym.
    + apply omap_keys_filter; intros p Hp;
        apply liquidation_target_test; exact Hp.
Qed.

Lemma decide_trade_cases drift trade_value price a q :
  decide_trade cfg drift trade_value price = (a, q) ->
  (a = "hold"%string /\ q = 0%Z)
  \/ (a = "buy"%string /\ 0 < trade_value)
  \/ (a = "sell"%string /\ trade_value <= 0).
Proof.
  unfold decide_trade.
  destruct (_ || _); [intros [= <- <-]; auto |].
  destruct (Qltb 0 trade_value) eqn:Hpos; intros [= <- <-].
  - apply Qltb_lt in Hpos. auto.
  - apply Qltb_ge in Hpos. auto.
Qed.

Lemma Qtrunc_nonneg q : 0 <= q -> (0 <= Qtrunc q)%Z.
Proof.
  intros Hq. rewrite Qtrunc_nonneg_floor by exact Hq.
  change 0%Z with (Qfloor 0). apply Qfloor_resp_le, Hq.
Qed.

Lemma selected_target_direction tv tw tvp pm sym t :
  selected_target cfg tv tw tvp pm security_prices security_ids sym
    = Some t ->
  (PortfolioTarget.action t = "hold"%string)
  \/ (PortfolioTarget.action t = "buy"%string
      /\ PortfolioTarget.current_value t < PortfolioTarget.target_value t)
  \/ (PortfolioTarget.action t = "sell"%string
      /\ PortfolioTarget.target_value t <= PortfolioTarget.current_value t).
Proof.
  unfold selected_target.
  destruct (Qle_bool _ 0); [discriminate |].
  destruct (decide_trade _ _ _ _) as [a q] eqn:Hd.
  intros Heq. apply (inj Some) in Heq. subst t.
  cbn [PortfolioTarget.action PortfolioTarget.target_value
       PortfolioTarget.current_value].
  apply decide_trade_cases in Hd as [[-> _] | [[-> Hd] | [-> Hd]]].
  - left. reflexivity.
  - right. left. split; [reflexivity |].
    unfold decimal_sub in Hd. apply (proj1 (decimal_round_pos_iff _)) in Hd.
    lra.
  - right. right. split; [reflexivity |].
    unfold decimal_sub in Hd. apply (proj1 (decimal_round_nonpos_iff _)) in Hd.
    lra.
Qed.

(** X9: every target says hold, buy or sell; a buy target has a current
    value below its target value; a sell target of a selected symbol has
    a current value at or above its target value; and with a per-trade cap
    that is not negative no target has a negative trade quantity. *)
Theorem targets_point_the_right_way (t : PortfolioTarget.t) :
  t ∈ targets_of plan ->
  (PortfolioTarget.action t = "hold"%string
   \/ PortfolioTarget.action t = "buy"%string
   \/ PortfolioTarget.action t = "sell"%string)
  /\ (PortfolioTarget.action t = "buy"%string ->
      PortfolioTarget.current_value t < PortfolioTarget.target_value t)
  /\ (PortfolioTarget.action t = "sell"%string ->
      PortfolioTarget.symbol t ∈ selected_symbols ->
      PortfolioTarget.target_value t <= PortfolioTarget.current_value t)
  /\ (0 <= max_single_trade_cad cfg ->
      (0 <= PortfolioTarget.trade_quantity t)%Z).
Proof.
  intros Hin.
  apply (target_origin cfg selected_stocks current_positions cash_balance
           security_prices security_ids) in Hin
    as [_ [(sym & tw & _ & Ht) | (p & _ & Hliq)]].
  - pose proof (selected_target_direction _ _ _ _ _ _ Ht) as Hdir.
    pose proof Ht as Hprice.
    apply selected_target_symbol in Hprice as [<- Hprice].
    apply selected_target_fields in Ht as (Hval & Hhold & Hqty).
    split; [tauto |].
    split; [| split].
    + intros Ha. destruct Hdir as [Hh | [[_ Hlt] | [Hs _]]];
        [congruence | exact Hlt | congruence].
    + intros Ha _. destruct Hdir as [Hh | [[Hb _] | [_ Hle]]];
        [congruence | congruence | exact Hle].
    + intros Hcap.
      destruct (decide (PortfolioTarget.action t = "hold"%string))
        as [Hh | Hnh].
      * rewrite (Hhold Hh). lia.
      * rewrite (Hqty Hnh). apply Qtrunc_nonneg, decimal_round_nonneg.
        apply Qle_shift_div_l; [exact Hprice |].
        rewrite Qmult_0_l. rewrite Hval.
        apply Q.min_glb; [apply Qabs_nonneg | exact Hcap].
  - apply liquidation_target_inv in Hliq
      as (Hnot & Hq & Hs & Hact & _ & Hqty & _).
    split; [auto |].
    split; [rewrite Hact; discriminate |].
    split; [rewrite Hs; intros _ Hsel; contradiction |].
    intros _. rewrite Hqty. apply Qtrunc_nonneg, Qlt_le_weak, Hq.
Qed.

Lemma plan_of_selection :
  0 < total_value ->
  selected_stocks <> [] ->
  let target_weight :=
    decimal_quot 1 (inject_Z (Z.of_nat (length selected_symbols))) in
  exists s,
    plan = Ok s
    /\ PortfolioSummary.targets s =
         omap (selected_target cfg total_value target_weight
                 (decimal_mul total_value target_weight)
                 (build_pos_map current_positions)
                 security_prices security_ids) selected_symbols
         ++ omap (liquidation_target total_value selected_symbols)
                 current_positions.
Proof.
  intros Htot Hne. cbv zeta. subst plan. unfold calculate_targets.
  fold total_value. fold selected_symbols.
  apply Qle_bool_gt in Htot. rewrite Htot.
  unfold decimal_div.
  destruct (Qeq_bool _ 0) eqn:Hz.
  - apply Qeq_bool_iff in Hz. unfold Qeq in Hz. simpl in Hz.
    subst selected_symbols. rewrite length_fmap in Hz.
    destruct selected_stocks; [contradiction | simpl in Hz; lia].
  - eexists. split; reflexivity.
Qed.

Lemma selected_target_some tv tw tvp pm sym :
  0 < default 0 (security_prices !! sym) ->
  exists t,
    selected_target cfg tv tw tvp pm security_prices security_ids sym
      = Some t.
Proof.
  intros Hp. unfold selected_target.
  apply Qle_bool_gt in Hp. rewrite Hp.
  destruct (decide_trade _ _ _ _) as [a q]. eauto.
Qed.

Lemma omap_all_some {A B} (f : A -> option B) (g : B -> A) (l : list A) :
  (forall x, x ∈ l -> exists y, f x = Some y /\ g y = x) ->
  g <$> omap f l = l.
Proof.
  induction l as [| x l IH]; intros Hall; simpl; [reflexivity |].
  destruct (Hall x) as (y & Hy & Hg); [left |].
  rewrite Hy. simpl. rewrite Hg. f_equal.
  apply IH. intros z Hz. apply Hall. right. exact Hz.
Qed.

Lemma sum_target_weight_constant (c : Q) (ts : list PortfolioTarget.t) :
  Forall (fun t => PortfolioTarget.target_weight t = c) ts ->
  sum_target_weight ts == inject_Z (Z.of_nat (length ts)) * c.
Proof.
  induction 1 as [| t ts Ht _ IH].
  - simpl. rewrite Qmult_0_l. reflexivity.
  - change (sum_target_weight (t :: ts))
      with (PortfolioTarget.target_weight t + sum_target_weight ts).
    rewrite IH, Ht. cbn [length].
    rewrite Nat2Z.inj_succ. unfold Z.succ. rewrite inject_Z_plus. ring.
Qed.

Lemma equal_share_error (k : nat) :
  (1 <= k)%nat ->
  Qabs (inject_Z (Z.of_nat k) * decimal_quot 1 (inject_Z (Z.of_nat k)) - 1)
  <= decimal_eps.
Proof.
  intros Hk. set (n := inject_Z (Z.of_nat k)).
  assert (Hn : 0 < n).
  { subst n. change 0 with (inject_Z 0). rewrite <- Zlt_Qlt. lia. }
  pose proof (decimal_round_error (1 / n)) as Herr.
  fold (decimal_quot 1 n) in Herr.
  assert (Hinv : 0 < 1 / n) by (apply Qlt_shift_div_l; lra).
  rewrite (Qabs_pos (1 / n)) in Herr by lra.
  assert (E : n * decimal_quot 1 n - 1 == (decimal_quot 1 n - 1 / n) * n)
    by (field; lra).
  rewrite E, Qabs_Qmult, (Qabs_pos n) by lra.
  apply (Qmult_le_compat_r _ _ n) in Herr; [| lra].
  eapply Qle_trans; [exact Herr |].
  assert (E2 : 1 / n * decimal_eps * n == decimal_eps) by (field; lra).
  rewrite E2. apply Qle_refl.
Qed.

(** X10: when the total value is positive and every selected symbol has a
    positive price, the plan opens with exactly one target per selected
    symbol, in the order of the selection, each with the same weight, the
    Decimal quotient 1/k for a selection of k symbols, and the same target
    value, the Decimal product of the total value and that weight; the
    weights add up to 1 within 5 parts in 10^28; the targets after them
    are the liquidations, of weight 0. *)
Theorem selected_weights_are_equal_shares :
  0 < total_value ->
  selected_stocks <> [] ->
  (forall sym, sym ∈ selected_symbols ->
               0 < default 0 (security_prices !! sym)) ->
  exists rebalanced liquidated,
    targets_of plan = rebalanced ++ liquidated
    /\ PortfolioTarget.symbol <$> rebalanced = selected_symbols
    /\ Forall (fun t =>
                 PortfolioTarget.target_weight t
                 = decimal_quot 1
                     (inject_Z (Z.of_nat (length selected_symbols)))
                 /\ PortfolioTarget.target_value t
                    = decimal_mul total_value
                        (PortfolioTarget.target_weight t))
              rebalanced
    /\ Qabs (sum_target_weight rebalanced - 1) <= decimal_eps
    /\ Forall (fun t => PortfolioTarget.target_weight t = 0) liquidated.
Proof.
  intros Htot Hne Hpriced.
  destruct (plan_of_selection Htot Hne) as (s & Hplan & Htargets).
  rewrite Hplan. cbn [targets_of]. rewrite Htargets.
  set (tw := decimal_quot 1
               (inject_Z (Z.of_nat (length selected_symbols)))) in *.
  set (f := selected_target cfg total_value tw (decimal_mul total_value tw)
              (build_pos_map current_positions) security_prices
              security_ids).
  assert (Hsyms : PortfolioTarget.symbol <$> omap f selected_symbols
                  = selected_symbols).
  { apply omap_all_some. intros sym Hsym.
    destruct (selected_target_some total_value tw
                (decimal_mul total_value tw)
                (build_pos_map current_positions) sym (Hpriced sym Hsym))
      as (t & Ht).
    exists t. split; [exact Ht |].
    apply selected_target_symbol in Ht as [Hs _]. exact Hs. }
  assert (Hw : Forall (fun t => PortfolioTarget.target_weight t = tw)
                      (omap f selected_symbols)).
  { apply Forall_forall. intros t Ht.
    apply list_elem_of_omap in Ht as (sym & _ & Ht).
    apply selected_target_values in Ht as (Hw & _). exact Hw. }
  eexists _, _. split; [reflexivity |].
  split; [exact Hsyms |]. split; [| split].
  - apply Forall_forall. intros t Ht.
    apply list_elem_of_omap in Ht as (sym & _ & Ht).
    apply selected_target_values in Ht as (Hwt & Hv & _).
    rewrite Hwt. auto.
  - assert (Hlen : length (omap f selected_symbols)
                   = length selected_symbols).
    { rewrite <- Hsyms at 2. rewrite length_fmap. reflexivity. }
    assert (Hsum := sum_target_weight_constant tw _ Hw).
    rewrite Hlen in Hsum.
    assert (E : sum_target_weight (omap f selected_symbols) - 1
                == inject_Z (Z.of_nat (length selected_symbols)) * tw - 1)
      by (rewrite Hsum; reflexivity).
    rewrite E. subst tw. apply equal_share_error.
    subst selected_symbols. rewrite length_fmap.
    destruct selected_stocks; [contradiction | simpl; lia].
  - apply Forall_forall. intros t Ht.
    apply list_elem_of_omap in Ht as (p & _ & Ht).
    unfold liquidation_target in Ht.
    destruct (_ && _); [| discriminate].
    apply (inj Some) in Ht. subst t. reflexivity.
Qed.

End Planner.

(** *** Order synthesis *)

Lemma price_times_quantity (v : Q) (q : Z) :
  (1 <= q)%Z ->
  Qabs (decimal_quot v (inject_Z q) * inject_Z q - v) <= Qabs v * decimal_eps.
Proof.
  intros Hq. set (n := inject_Z q).
  assert (Hn : 0 < n).
  { subst n. change 0 with (inject_Z 0). rewrite <- Zlt_Qlt. lia. }
  pose proof (decimal_round_error (v / n)) as Herr.
  fold (decimal_quot v n) in Herr.
  assert (E : decimal_quot v n * n - v == (decimal_quot v n - v / n) * n)
    by (field; lra).
  rewrite E, Qabs_Qmult, (Qabs_pos n) by lra.
  apply (Qmult_le_compat_r _ _ n) in Herr; [| lra].
  eapply Qle_trans; [exact Herr |].
  assert (Hv : Qabs (v / n) * n == Qabs v).
  { unfold Qdiv. rewrite Qabs_Qmult, (Qabs_pos (/ n)).
    - field. lra.
    - apply Qlt_le_weak, Qinv_lt_0_compat, Hn. }
  assert (E2 : Qabs (v / n) * decimal_eps * n
               == Qabs (v / n) * n * decimal_eps) by ring.
  rewrite E2, Hv. apply Qle_refl.
Qed.

(** The limit price of a synthesized order, times its quantity, is the
    value it stands for up to the rounding of the quotient. *)
Lemma order_from_notional side t o :
  order_from side t o ->
  Qabs (OrderRequest.limit_price o * inject_Z (OrderRequest.quantity o)
        - notional side t)
  <= Qabs (notional side t) * decimal_eps.
Proof.
  intros (_ & Hq & _ & _ & _ & _ & Hqty & Hprice).
  rewrite Hprice, Hqty. apply price_times_quantity, Hq.
Qed.

(** What one target adds to the two lists of orders. *)
Lemma order_step_adds acc t :
  (order_step acc t = acc
   /\ ~ ((1 <= PortfolioTarget.trade_quantity t)%Z
         /\ (PortfolioTarget.action t = "sell"%string
             \/ PortfolioTarget.action t = "buy"%string)))
  \/ (exists o, order_step acc t = (fst acc ++ [o], snd acc)
                /\ order_from SELL t o)
  \/ (exists o, order_step acc t = (fst acc, snd acc ++ [o])
                /\ order_from BUY t o).
Proof.
  destruct acc as [sells buys]. unfold order_step.
  destruct (String.eqb_spec (PortfolioTarget.action t) "hold") as [Hh | Hnh];
    cbn [orb].
  { left. split; [reflexivity |]. rewrite Hh.
    intros [_ [Hs | Hb]]; discriminate. }
  destruct (Z.ltb_spec (PortfolioTarget.trade_quantity t) 1) as [Hlt | Hge].
  { left. split; [reflexivity |]. intros [Hq _]. lia. }
  assert (Hpos : (0 <? PortfolioTarget.trade_quantity t)%Z = true)
    by (apply Z.ltb_lt; lia).
  rewrite Hpos. cbn [andb fst snd].
  destruct (String.eqb_spec (PortfolioTarget.action t) "sell") as [Hs | Hns].
  - right. left. eexists. split; [reflexivity |].
    unfold order_from. cbn. repeat split; try assumption.
  - destruct (String.eqb_spec (PortfolioTarget.action t) "buy")
      as [Hb | Hnb].
    + right. right. eexists. split; [reflexivity |].
      unfold order_from, notional. cbn. repeat split; try assumption.
      destruct (Qltb 0 (PortfolioTarget.current_value t)); reflexivity.
    + left. split; [reflexivity |]. intros [_ [Hs | Hb]]; contradiction.
Qed.

Lemma order_loop targets acc :
  exists sells buys,
    foldl order_step acc targets = (fst acc ++ sells, snd acc ++ buys)
    /\ Forall (fun o => exists t, t ∈ targets /\ order_from SELL t o) sells
    /\ Forall (fun o => exists t, t ∈ targets /\ order_from BUY t o) buys
    /\ OrderRequest.symbol <$> sells
       `sublist_of` PortfolioTarget.symbol <$> targets
    /\ OrderRequest.symbol <$> buys
       `sublist_of` PortfolioTarget.symbol <$> targets
    /\ (forall t side,
          t ∈ targets ->
          PortfolioTarget.action t = action_of side ->
          (1 <= PortfolioTarget.trade_quantity t)%Z ->
          exists o,
            o ∈ match side with SELL => sells | BUY => buys end
            /\ order_from side t o).
Proof.
  revert acc. induction targets as [| t targets IH]; intros acc; simpl.
  - exists [], []. rewrite !app_nil_r. destruct acc.
    repeat split; try constructor.
    intros t side Hin. inversion Hin.
  - destruct (IH (order_step acc t))
      as (ss & bs & Hrun & Hs & Hb & Hos & Hob & Hall).
    assert (Hlift : forall side (l : list OrderRequest.t),
               Forall (fun o => exists t', t' ∈ targets
                                           /\ order_from side t' o) l ->
               Forall (fun o => exists t', t' ∈ t :: targets
                                           /\ order_from side t' o) l).
    { intros side l Hl. eapply Forall_impl; [exact Hl |].
      intros o (t' & Hin & Hfrom).
      exists t'. split; [right; exact Hin | exact Hfrom]. }
    destruct (order_step_adds acc t)
      as [[Hsame Hnone] | [(o & Hstep & Hfrom) | (o & Hstep & Hfrom)]];
      (rewrite Hstep in Hrun |- * || rewrite Hsame in Hrun |- * );
      simpl in Hrun; cbn [fst snd].
    + exists ss, bs. split; [exact Hrun |].
      split; [apply Hlift, Hs |]. split; [apply Hlift, Hb |].
      split; [apply sublist_cons, Hos |].
      split; [apply sublist_cons, Hob |].
      intros t' side Hin Hact Hq.
      apply elem_of_cons in Hin as [-> | Hin]; [| eauto].
      exfalso. apply Hnone. split; [exact Hq |].
      destruct side; simpl in Hact; auto.
    + exists (o :: ss), bs. rewrite <- app_assoc in Hrun.
      split; [exact Hrun |].
      split; [constructor; [exists t; split; [left | exact Hfrom] |
                            apply Hlift, Hs] |].
      split; [apply Hlift, Hb |].
      split.
      { simpl. destruct Hfrom as (_ & _ & _ & _ & Hsym & _).
        rewrite Hsym. apply sublist_skip, Hos. }
      split; [apply sublist_cons, Hob |].
      intros t' side Hin Hact Hq.
      apply elem_of_cons in Hin as [-> | Hin].
      * destruct side.
        -- destruct Hfrom as (Hsell & _). simpl in Hact, Hsell. congruence.
        -- exists o. split; [left | exact Hfrom].
      * destruct (Hall t' side Hin Hact Hq) as (o' & Ho' & Hfrom').
        exists o'. split; [| exact Hfrom'].
        destruct side; [exact Ho' | right; exact Ho'].
    + exists ss, (o :: bs). rewrite <- app_assoc in Hrun.
      split; [exact Hrun |].
      split; [apply Hlift, Hs |].
      split; [constructor; [exists t; split; [left | exact Hfrom] |
                            apply Hlift, Hb] |].
      split; [apply sublist_cons, Hos |].
      split.
      { simpl. destruct Hfrom as (_ & _ & _ & _ & Hsym & _).
        rewrite Hsym. apply sublist_skip, Hob. }
      intros t' side Hin Hact Hq.
      apply elem_of_cons in Hin as [-> | Hin].
      * destruct side.
        -- exists o. split; [left | exact Hfrom].
        -- destruct Hfrom as (Hbuy & _). simpl in Hact, Hbuy. congruence.
      * destruct (Hall t' side Hin Hact Hq) as (o' & Ho' & Hfrom').
        exists o'. split; [| exact Hfrom'].
        destruct side; [right; exact Ho' | exact Ho'].
Qed.

(** X11: the sell orders (first list) and the buy orders (second list) each
    come from a target of that action with a trade quantity of at least 1,
    carry its symbol, security id and quantity, and as limit price the
    Decimal quotient of the target's current value (for a buy without a
    current value: its target value) by the quantity, so that limit price
    times quantity is that value within 5 parts in 10^28; they keep the
    order of the targets, and every sell or buy target with a quantity of
    at least 1 has its order. *)
Theorem orders_mirror_the_targets (summary : PortfolioSummary.t) :
  let targets := PortfolioSummary.targets summary in
  let '(sell_orders, buy_orders) := generate_orders summary in
  Forall (fun o => exists t, t ∈ targets /\ order_from SELL t o) sell_orders
  /\ Forall (fun o => exists t, t ∈ targets /\ order_from BUY t o) buy_orders
  /\ OrderRequest.symbol <$> sell_orders
     `sublist_of` PortfolioTarget.symbol <$> targets
  /\ OrderRequest.symbol <$> buy_orders
     `sublist_of` PortfolioTarget.symbol <$> targets
  /\ (forall t side,
        t ∈ targets ->
        PortfolioTarget.action t = action_of side ->
        (1 <= PortfolioTarget.trade_quantity t)%Z ->
        exists o,
          o ∈ match side with SELL => sell_orders | BUY => buy_orders end
          /\ order_from side t o)
  /\ (forall t side o,
        order_from side t o ->
        Qabs (OrderRequest.limit_price o
                * inject_Z (OrderRequest.quantity o)
              - notional side t)
        <= Qabs (notional side t) * decimal_eps).
Proof.
  cbv zeta. unfold generate_orders.
  destruct (order_loop (PortfolioSummary.targets summary) ([], []))
    as (ss & bs & Hrun & Hs & Hb & Hos & Hob & Hall).
  rewrite Hrun. simpl.
  repeat (split; [assumption |]).
  intros t side o. apply order_from_notional.
Qed.

(** *** Concrete plans *)

Local Open Scope string_scope.

Lemma current_value_is_last_position_witness :
  exists t,
    head (targets_of (calculate_targets default_config [stock "A"]
                        [held "A" 1 50; held "A" 3 50] 1000
                        (quotes [("A", 50)]) ∅)) = Some t
    /\ PortfolioTarget.current_value t == 150
    /\ PortfolioTarget.current_value t
       = match last (filter (fun p => Position.symbol p
                                       = PortfolioTarget.symbol t)
                            [held "A" 1 50; held "A" 3 50]) with
         | Some p => Position.market_value p
         | None => 0
         end.
Proof.
  eexists. split; [vm_compute; reflexivity |].
  split; [vm_compute; reflexivity |].
  apply (current_value_is_last_position default_config [stock "A"]
           [held "A" 1 50; held "A" 3 50] 1000 (quotes [("A", 50)]) ∅).
  - vm_compute. left.
  - vm_compute. left.
Defined.

Lemma targets_point_the_right_way_witness :
  exists t,
    head (targets_of (calculate_targets default_config [stock "A"]
                        [held "A" 1 50; held "A" 3 50] 1000
                        (quotes [("A", 50)]) ∅)) = Some t
    /\ PortfolioTarget.action t = "buy"
    /\ PortfolioTarget.current_value t < PortfolioTarget.target_value t.
Proof.
  eexists. split; [vm_compute; reflexivity |]. split; [reflexivity |].
  apply (targets_point_the_right_way default_config [stock "A"]
           [held "A" 1 50; held "A" 3 50] 1000 (quotes [("A", 50)]) ∅).
  - vm_compute. left.
  - reflexivity.
Defined.

Lemma selected_weights_are_equal_shares_witness :
  exists rebalanced liquidated,
    targets_of (calculate_targets default_config
                  [stock "A"; stock "B"; stock "C"] [held "D" 3 40] 10000
                  (quotes [("A", 50); ("B", 20); ("C", 7)]) ∅)
      = (rebalanced ++ liquidated)%list
    /\ PortfolioTarget.symbol <$> rebalanced = ["A"; "B"; "C"]
    /\ Forall (fun t =>
                 PortfolioTarget.target_weight t
                 = decimal_quot 1 (inject_Z (Z.of_nat 3))
                 /\ PortfolioTarget.target_value t
                    = decimal_mul
                        (decimal_add 10000
                           (sum_market_value [held "D" 3 40]))
                        (PortfolioTarget.target_weight t))
              rebalanced
    /\ Qabs (sum_target_weight rebalanced - 1) <= decimal_eps
    /\ Forall (fun t => PortfolioTarget.target_weight t = 0) liquidated.
Proof.
  apply (selected_weights_are_equal_shares default_config
           [stock "A"; stock "B"; stock "C"] [held "D" 3 40] 10000
           (quotes [("A", 50); ("B", 20); ("C", 7)]) ∅).
  - vm_compute. reflexivity.
  - discriminate.
  - intros sym Hsym. apply list_elem_of_In in Hsym. simpl in Hsym.
    destruct Hsym as [<- | [<- | [<- | []]]]; vm_compute; reflexivity.
Defined.

(** Three equal shares weigh 0.3333333333333333333333333333 each and add
    up to 0.9999999999999999999999999999. *)
Lemma three_shares_fall_short_of_one :
  sum_target_weight
    (take 3 (targets_of (calculate_targets default_config
                           [stock "A"; stock "B"; stock "C"]
                           [held "D" 3 40] 10000
                           (quotes [("A", 50); ("B", 20); ("C", 7)]) ∅)))
  == 0.9999999999999999999999999999.
Proof. vm_compute. reflexivity. Qed.

Lemma targets_follow_input_order_witness :
  PortfolioTarget.symbol
    <$> targets_of (calculate_targets default_config
                      [stock "B"; stock "X"; stock "A"]
                      [held "A" 1 50; held "C" 3 40; held "E" 0 10] 1000
                      (quotes [("A", 50); ("B", 20)]) ∅)
  = ["B"; "A"; "C"].
Proof.
  apply (targets_follow_input_order default_config
           [stock "B"; stock "X"; stock "A"]
           [held "A" 1 50; held "C" 3 40; held "E" 0 10] 1000
           (quotes [("A", 50); ("B", 20)]) ∅).
  - vm_compute. reflexivity.
  - discriminate.
Defined.

End RebalancerGuarantees.

(** ** From the plan to the gates of the executor *)

Module PipelineGuarantees.
Import Rebalancer RebalancerSpec RebalancerGuarantees.

(** *** The float product of the gate *)

Lemma float_product_bounds (p n : Q) :
  0 <= p -> 0 <= n ->
  p * n * ((1 - float_eps) * (1 - float_eps) * (1 - float_eps))
  <= float_mul (float_of_decimal p) (float_round n)
  <= p * n * ((1 + float_eps) * (1 + float_eps) * (1 + float_eps)).
Proof.
  intros Hp Hn. unfold float_mul, float_of_decimal.
  assert (Hlo : 0 <= 1 - float_eps) by (vm_compute; discriminate).
  assert (Hhi : 0 <= 1 + float_eps) by (vm_compute; discriminate).
  destruct (float_round_bounds p Hp) as [Hp1 Hp2].
  destruct (float_round_bounds n Hn) as [Hn1 Hn2].
  pose proof (float_round_nonneg p Hp) as Hfp.
  pose proof (float_round_nonneg n Hn) as Hfn.
  set (fp := float_round p) in *. set (fn := float_round n) in *.
  assert (Hprod : 0 <= fp * fn) by (apply Qmult_le_0_compat; assumption).
  destruct (float_round_bounds (fp * fn) Hprod) as [Hr1 Hr2].
  assert (Hplo : 0 <= p * (1 - float_eps))
    by (apply Qmult_le_0_compat; assumption).
  assert (Hnlo : 0 <= n * (1 - float_eps))
    by (apply Qmult_le_0_compat; assumption).
  assert (Hbelow : p * (1 - float_eps) * (n * (1 - float_eps)) <= fp * fn)
    by (apply Qmult_le_compat_nonneg; split; assumption).
  assert (Habove : fp * fn <= p * (1 + float_eps) * (n * (1 + float_eps)))
    by (apply Qmult_le_compat_nonneg; split; assumption).
  split.
  - eapply Qle_trans; [| exact Hr1].
    apply (Qmult_le_compat_r _ _ (1 - float_eps)) in Hbelow; [| exact Hlo].
    eapply Qle_trans; [| exact Hbelow].
    apply Qle_lteq. right. ring.
  - eapply Qle_trans; [exact Hr2 |].
    apply (Qmult_le_compat_r _ _ (1 + float_eps)) in Habove; [| exact Hhi].
    eapply Qle_trans; [exact Habove |].
    apply Qle_lteq. right. ring.
Qed.

Lemma float_product_nonpos (p n : Q) :
  p <= 0 -> 0 <= n -> float_mul (float_of_decimal p) (float_round n) <= 0.
Proof.
  intros Hp Hn. unfold float_mul, float_of_decimal.
  apply float_round_nonpos.
  pose proof (float_round_nonpos p Hp) as Hfp.
  pose proof (float_round_nonneg n Hn) as Hfn.
  set (fp := float_round p) in *. set (fn := float_round n) in *.
  assert (H : 0 <= (- fp) * fn) by (apply Qmult_le_0_compat; lra).
  assert (E : - fp * fn == - (fp * fn)) by ring.
  rewrite E in H. lra.
Qed.

Lemma quotient_times_divisor_bounds (v n : Q) :
  0 <= v -> 0 < n ->
  0 <= decimal_quot v n
  /\ v * (1 - decimal_eps) <= decimal_quot v n * n <= v * (1 + decimal_eps).
Proof.
  intros Hv Hn.
  assert (Hx : 0 <= v / n).
  { apply Qle_shift_div_l; [exact Hn |]. rewrite Qmult_0_l. exact Hv. }
  split; [apply decimal_round_nonneg, Hx |].
  destruct (decimal_round_bounds (v / n) Hx) as [H1 H2].
  fold (decimal_quot v n) in H1, H2.
  assert (E1 : v / n * (1 - decimal_eps) * n == v * (1 - decimal_eps))
    by (field; lra).
  assert (E2 : v / n * (1 + decimal_eps) * n == v * (1 + decimal_eps))
    by (field; lra).
  apply (Qmult_le_compat_r _ _ n) in H1; [| lra].
  apply (Qmult_le_compat_r _ _ n) in H2; [| lra].
  rewrite E1 in H1. rewrite E2 in H2. split; assumption.
Qed.

(** The value the gate computes for an order whose limit price is the
    Decimal quotient of [v] by its quantity. *)
Lemma trade_value_of_quotient (v : Q) (o : OrderRequest.t) :
  (1 <= OrderRequest.quantity o)%Z ->
  OrderRequest.limit_price o
    = decimal_quot v (inject_Z (OrderRequest.quantity o)) ->
  (0 <= v ->
   v * (1 - Executor.gate_margin) <= Executor.trade_value o
   <= v * (1 + Executor.gate_margin))
  /\ (v <= 0 -> Executor.trade_value o <= 0).
Proof.
  intros Hq Hprice. unfold Executor.trade_value, float_of_int.
  rewrite Hprice. set (n := inject_Z (OrderRequest.quantity o)).
  assert (Hn : 0 < n).
  { subst n. change 0 with (inject_Z 0). rewrite <- Zlt_Qlt. lia. }
  split.
  - intros Hv.
    destruct (quotient_times_divisor_bounds v n Hv Hn) as (Hp & Hlo & Hhi).
    destruct (float_product_bounds (decimal_quot v n) n Hp) as [Hf1 Hf2];
      [lra |].
    set (tv := float_mul _ _) in *.
    set (klo := (1 - float_eps) * (1 - float_eps) * (1 - float_eps)) in *.
    set (khi := (1 + float_eps) * (1 + float_eps) * (1 + float_eps)) in *.
    assert (Hklo : 0 <= klo) by (vm_compute; discriminate).
    assert (Hkhi : 0 <= khi) by (vm_compute; discriminate).
    assert (Hmlo : 1 - Executor.gate_margin <= (1 - decimal_eps) * klo)
      by (vm_compute; discriminate).
    assert (Hmhi : (1 + decimal_eps) * khi <= 1 + Executor.gate_margin)
      by (vm_compute; discriminate).
    split.
    + eapply Qle_trans; [| exact Hf1].
      apply (Qmult_le_compat_r _ _ klo) in Hlo; [| exact Hklo].
      eapply Qle_trans; [| exact Hlo].
      assert (E : v * (1 - decimal_eps) * klo
                  == v * ((1 - decimal_eps) * klo)) by ring.
      rewrite E. apply Qmult_le_compat_nonneg; split;
        [exact Hv | apply Qle_refl | vm_compute; discriminate | exact Hmlo].
    + eapply Qle_trans; [exact Hf2 |].
      apply (Qmult_le_compat_r _ _ khi) in Hhi; [| exact Hkhi].
      eapply Qle_trans; [exact Hhi |].
      assert (E : v * (1 + decimal_eps) * khi
                  == v * ((1 + decimal_eps) * khi)) by ring.
      rewrite E. apply Qmult_le_compat_nonneg; split;
        [exact Hv | apply Qle_refl | vm_compute; discriminate | exact Hmhi].
  - intros Hv. apply float_product_nonpos; [| lra].
    unfold decimal_quot.
    apply (proj2 (decimal_round_nonpos_iff _)).
    assert (H : 0 <= (- v) / n).
    { apply Qle_shift_div_l; [exact Hn |]. rewrite Qmult_0_l. lra. }
    assert (E : - v / n == - (v / n)) by (field; lra).
    rewrite E in H. lra.
Qed.

Lemma gate_of_synthesized_order (ecfg : Executor.config) side t o :
  0 <= Executor.max_single_trade_cad ecfg ->
  order_from side t o ->
  (notional side t * (1 + Executor.gate_margin)
     <= Executor.max_single_trade_cad ecfg ->
   Executor._validate_order ecfg o = true)
  /\ (Executor.max_single_trade_cad ecfg
       < notional side t * (1 - Executor.gate_margin) ->
      Executor._validate_order ecfg o = false).
Proof.
  intros Hcap (_ & Hq & _ & _ & _ & _ & Hqty & Hprice).
  rewrite <- Hqty in Hq, Hprice.
  destruct (trade_value_of_quotient (notional side t) o Hq Hprice)
    as [Hpos Hneg].
  assert (Hm : 0 < 1 - Executor.gate_margin) by reflexivity.
  assert (Hm' : 0 <= Executor.gate_margin) by discriminate.
  unfold Executor._validate_order.
  set (v := notional side t) in *. set (tv := Executor.trade_value o) in *.
  set (cap := Executor.max_single_trade_cad ecfg) in *.
  split.
  - intros Hle.
    assert (Htv : tv <= cap).
    { destruct (Qlt_le_dec v 0) as [Hv | Hv].
      - specialize (Hneg ltac:(lra)). lra.
      - destruct (Hpos Hv) as [_ Hhi]. lra. }
    apply Qltb_ge in Htv. rewrite Htv.
    destruct (Z.ltb_spec (OrderRequest.quantity o) 1); [lia | reflexivity].
  - intros Hlt.
    assert (Hv : 0 <= v).
    { destruct (Qlt_le_dec v 0) as [Hv | Hv]; [| exact Hv].
      assert (H : 0 <= (- v) * (1 - Executor.gate_margin))
        by (apply Qmult_le_0_compat; lra).
      lra. }
    destruct (Hpos Hv) as [Hlo _].
    assert (Htv : cap < tv) by lra.
    apply Qltb_lt in Htv. rewrite Htv. reflexivity.
Qed.

(** X12: an order synthesized from a plan is judged by the gates of the
    executor on the current value of its target (for a buy of a symbol
    without current value: the target value), not on the value the planner
    capped: for a ceiling that is not negative the order passes when that
    value, raised by one part in 2^50, is within the ceiling, and is
    refused when that value, lowered by one part in 2^50, exceeds it.  In
    between, the rounding of the limit price and of the float product
    decide. *)
Theorem gate_looks_at_uncapped_value
    (ecfg : Executor.config) (summary : PortfolioSummary.t)
    (o : OrderRequest.t) :
  0 <= Executor.max_single_trade_cad ecfg ->
  o ∈ fst (generate_orders summary) ++ snd (generate_orders summary) ->
  exists t side,
    t ∈ PortfolioSummary.targets summary
    /\ order_from side t o
    /\ (notional side t * (1 + Executor.gate_margin)
          <= Executor.max_single_trade_cad ecfg ->
        Executor._validate_order ecfg o = true)
    /\ (Executor.max_single_trade_cad ecfg
          < notional side t * (1 - Executor.gate_margin) ->
        Executor._validate_order ecfg o = false).
Proof.
  intros Hcap. unfold generate_orders.
  destruct (order_loop (PortfolioSummary.targets summary) ([], []))
    as (ss & bs & Hrun & Hs & Hb & _).
  rewrite Hrun. simpl. rewrite Forall_forall in Hs, Hb.
  intros Hin. apply elem_of_app in Hin as [Hin | Hin].
  - destruct (Hs _ Hin) as (t & Ht & Hfrom).
    exists t, SELL. split; [exact Ht |]. split; [exact Hfrom |].
    apply gate_of_synthesized_order; assumption.
  - destruct (Hb _ Hin) as (t & Ht & Hfrom).
    exists t, BUY. split; [exact Ht |]. split; [exact Hfrom |].
    apply gate_of_synthesized_order; assumption.
Qed.

Lemma Qtrunc_at_least_one q : 1 <= q -> (1 <= Qtrunc q)%Z.
Proof.
  intros Hq. rewrite Qtrunc_nonneg_floor by lra.
  change 1%Z with (Qfloor 1). apply Qfloor_resp_le, Hq.
Qed.

(** X13: a holding of at least one share outside a non-empty selection,
    whose market value, lowered by one part in 2^50, exceeds the
    executor's per-trade ceiling, is given a sell order for its whole
    shares, and that order is refused by the per-order gates: the holding
    is not sold. *)
Theorem oversized_liquidation_is_refused
    (cfg : config) (ecfg : Executor.config)
    (selected_stocks : list StockScore.t)
    (current_positions : list Position.t) (cash_balance : Q)
    (security_prices : gmap string Q) (security_ids : gmap string string)
    (pos : Position.t) :
  selected_stocks <> [] ->
  0 < decimal_add cash_balance (sum_market_value current_positions) ->
  pos ∈ current_positions ->
  Position.symbol pos ∉ (StockScore.symbol <$> selected_stocks) ->
  1 <= Position.quantity pos ->
  0 <= Executor.max_single_trade_cad ecfg ->
  Executor.max_single_trade_cad ecfg
    < Position.market_value pos * (1 - Executor.gate_margin) ->
  exists summary o,
    calculate_targets cfg selected_stocks current_positions cash_balance
      security_prices security_ids = Ok summary
    /\ o ∈ fst (generate_orders summary)
    /\ OrderRequest.symbol o = Position.symbol pos
    /\ OrderRequest.quantity o = Qfloor (Position.quantity pos)
    /\ Executor._validate_order ecfg o = false.
Proof.
  intros Hne Htot Hin Hnot Hq Hcap Hbig.
  destruct (plan_of_selection cfg selected_stocks current_positions
              cash_balance security_prices security_ids Htot Hne)
    as (s & Hplan & Htargets).
  exists s.
  set (t := {| PortfolioTarget.symbol := Position.symbol pos;
               PortfolioTarget.security_id := Position.security_id pos;
               PortfolioTarget.target_weight := 0;
               PortfolioTarget.target_value := 0;
               PortfolioTarget.current_value := Position.market_value pos;
               PortfolioTarget.current_weight :=
                 if Qltb 0 (decimal_add cash_balance
                              (sum_market_value current_positions))
                 then decimal_quot (Position.market_value pos)
                        (decimal_add cash_balance
                           (sum_market_value current_positions))
                 else 0;
               PortfolioTarget.drift_pct := 100;
               PortfolioTarget.action := "sell";
               PortfolioTarget.trade_value := Position.market_value pos;
               PortfolioTarget.trade_quantity :=
                 Qtrunc (Position.quantity pos) |}).
  assert (Ht : t ∈ PortfolioSummary.targets s).
  { rewrite Htargets. apply elem_of_app. right.
    apply list_elem_of_omap. exists pos. split; [exact Hin |].
    unfold liquidation_target.
    rewrite bool_decide_eq_false_2 by exact Hnot.
    assert (Hpos : Qltb 0 (Position.quantity pos) = true)
      by (apply Qltb_lt; lra).
    rewrite Hpos. reflexivity. }
  unfold generate_orders.
  destruct (order_loop (PortfolioSummary.targets s) ([], []))
    as (ss & bs & Hrun & _ & _ & _ & _ & Hall).
  rewrite Hrun. simpl.
  destruct (Hall t SELL Ht eq_refl (Qtrunc_at_least_one _ Hq))
    as (o & Ho & Hfrom).
  exists o. split; [exact Hplan |]. split; [exact Ho |].
  destruct (gate_of_synthesized_order ecfg SELL t o Hcap Hfrom)
    as [_ Hgate].
  destruct Hfrom as (_ & _ & _ & _ & Hsym & _ & Hqty & _).
  split; [exact Hsym |].
  split; [rewrite Hqty; simpl; apply Qtrunc_nonneg_floor; lra |].
  apply Hgate. exact Hbig.
Qed.

Local Open Scope string_scope.

Lemma gate_looks_at_uncapped_value_witness :
  exists o,
    head (snd (generate_orders
                 {| PortfolioSummary.total_value := 10000;
                    PortfolioSummary.cash_balance := 10000;
                    PortfolioSummary.positions_value := 0;
                    PortfolioSummary.num_holdings := 0;
                    PortfolioSummary.targets :=
                      targets_of (calculate_targets default_config
                                    [stock "A"] [] 10000
                                    (quotes [("A", 50)]) ∅) |})) = Some o
    /\ OrderRequest.quantity o = 100%Z
    /\ OrderRequest.limit_price o == 100
    /\ Executor._validate_order Executor.default_config o = false.
Proof.
  eexists. split; [vm_compute; reflexivity |].
  split; [reflexivity |]. split; [vm_compute; reflexivity |].
  match goal with
  | |- Executor._validate_order _ ?o = false =>
      destruct (gate_looks_at_uncapped_value Executor.default_config
                  {| PortfolioSummary.total_value := 10000;
                     PortfolioSummary.cash_balance := 10000;
                     PortfolioSummary.positions_value := 0;
                     PortfolioSummary.num_holdings := 0;
                     PortfolioSummary.targets :=
                       targets_of (calculate_targets default_config
                                     [stock "A"] [] 10000
                                     (quotes [("A", 50)]) ∅) |} o)
        as (t & side & _ & _ & _)
  end.
  - vm_compute. discriminate.
  - vm_compute. left.
  - vm_compute. reflexivity.
Defined.

Lemma oversized_liquidation_is_refused_witness :
  exists summary o,
    calculate_targets default_config [stock "A"] [held "C" 200 40] 1000
      (quotes [("A", 50)]) ∅ = Ok summary
    /\ o ∈ fst (generate_orders summary)
    /\ OrderRequest.symbol o = "C"
    /\ OrderRequest.quantity o = Qfloor 200
    /\ Executor._validate_order Executor.default_config o = false.
Proof.
  apply (oversized_liquidation_is_refused default_config
           Executor.default_config [stock "A"] [held "C" 200 40] 1000
           (quotes [("A", 50)]) ∅ (held "C" 200 40)).
  - discriminate.
  - vm_compute. reflexivity.
  - left.
  - intros Hin. apply list_elem_of_In in Hin. simpl in Hin.
    destruct Hin as [Heq | []]. discriminate Heq.
  - vm_compute. discriminate.
  - vm_compute. discriminate.
  - vm_compute. reflexivity.
Defined.

(** Between the two margins the roundings decide.  A holding of 145
    shares worth exactly 5000, the ceiling, gets the limit price
    34.48275862068965517241379310; the float product with 145 is
    5000.000000000001, and the order is refused.  A holding of one share
    worth 5000.0000000000000001, above the ceiling, has the float
    product 5000 and passes. *)
Lemma orders_at_the_ceiling :
  (exists o,
      fst (generate_orders
             {| PortfolioSummary.total_value := 6000;
                PortfolioSummary.cash_balance := 1000;
                PortfolioSummary.positions_value := 5000;
                PortfolioSummary.num_holdings := 1;
                PortfolioSummary.targets :=
                  targets_of (calculate_targets default_config
                                [stock "A"]
                                [held "C" 145 (5000 / 145)] 1000
                                (quotes [("A", 50)]) ∅) |}) = [o]
      /\ OrderRequest.limit_price o == 34.48275862068965517241379310
      /\ Executor.trade_value o == 5497558138880001 # 1099511627776
      /\ Executor._validate_order Executor.default_config o = false)
  /\ (exists o,
        fst (generate_orders
               {| PortfolioSummary.total_value := 6000;
                  PortfolioSummary.cash_balance := 1000;
                  PortfolioSummary.positions_value := 5000;
                  PortfolioSummary.num_holdings := 1;
                  PortfolioSummary.targets :=
                    targets_of (calculate_targets default_config
                                  [stock "A"]
                                  [held "C" 1 5000.0000000000000001] 1000
                                  (quotes [("A", 50)]) ∅) |}) = [o]
        /\ Executor.trade_value o == 5000
        /\ Executor._validate_order Executor.default_config o = true).
Proof.
  split; eexists; (split; [vm_compute; reflexivity |]);
    repeat split; vm_compute; reflexivity.
Qed.

End PipelineGuarantees.

(** ** Further properties of the stock picker *)

Module StockPickerGuarantees.
Import StockPicker StockPickerSpec.

(** *** Filters *)

Lemma filter_step_cases cfg acc s :
  (filter_step cfg acc s = acc ++ [s] /\ passes_filters cfg s)
  \/ (filter_step cfg acc s = acc /\ ~ passes_filters cfg s).
Proof.
  unfold filter_step, passes_filters.
  destruct (StockScore.is_etf s) eqn:Hetf; cbn [negb andb].
  - destruct (Qltb (StockScore.avg_volume s) _) eqn:Hvol.
    + right. split; [reflexivity |]. apply Qltb_lt in Hvol.
      intros [Hv _]. lra.
    + left. apply Qltb_ge in Hvol. auto.
  - destruct (Qltb 0 (StockScore.market_cap s)) eqn:Hcap0; cbn [andb].
    + destruct (Qltb (StockScore.market_cap s) _) eqn:Hcap.
      * right. split; [reflexivity |].
        apply Qltb_lt in Hcap0, Hcap.
        intros [_ [Hf | [Hz | Hbig]]]; [discriminate | lra | lra].
      * apply Qltb_ge in Hcap.
        destruct (Qltb (StockScore.avg_volume s) _) eqn:Hvol.
        -- right. split; [reflexivity |]. apply Qltb_lt in Hvol.
           intros [Hv _]. lra.
        -- left. apply Qltb_ge in Hvol. auto.
    + apply Qltb_ge in Hcap0.
      destruct (Qltb (StockScore.avg_volume s) _) eqn:Hvol.
      * right. split; [reflexivity |]. apply Qltb_lt in Hvol.
        intros [Hv _]. lra.
      * left. apply Qltb_ge in Hvol. auto.
Qed.

Lemma filter_loop cfg scores acc :
  exists kept,
    foldl (filter_step cfg) acc scores = acc ++ kept
    /\ kept `sublist_of` scores
    /\ Forall (passes_filters cfg) kept
    /\ (forall s, s ∈ scores -> passes_filters cfg s -> s ∈ kept).
Proof.
  revert acc. induction scores as [| s scores IH]; intros acc; simpl.
  - exists []. rewrite app_nil_r. repeat split; try constructor.
    intros s Hs. inversion Hs.
  - destruct (IH (filter_step cfg acc s)) as (kept & Hrun & Hsub & Hall & Hin).
    destruct (filter_step_cases cfg acc s) as [[Hstep Hpass] | [Hstep Hfail]];
      rewrite Hstep in Hrun |- *.
    + exists (s :: kept). rewrite <- app_assoc in Hrun.
      split; [exact Hrun |]. split; [apply sublist_skip, Hsub |].
      split; [constructor; assumption |].
      intros s' Hs' Hp. apply elem_of_cons in Hs' as [-> | Hs'];
        [left | right; auto].
    + exists kept. split; [exact Hrun |].
      split; [apply sublist_cons, Hsub |]. split; [exact Hall |].
      intros s' Hs' Hp. apply elem_of_cons in Hs' as [-> | Hs'];
        [contradiction | auto].
Qed.

(** X14: the filters only remove candidates and keep the order of the
    rest; a candidate is kept exactly when its average volume reaches the
    minimum and it is an ETF, or reports no market capitalisation, or has
    a market capitalisation that reaches the minimum. *)
Theorem filters_keep_the_eligible (cfg : config)
    (scores : list StockScore.t) :
  let kept := _apply_filters cfg scores in
  kept `sublist_of` scores
  /\ forall s, s ∈ kept <-> s ∈ scores /\ passes_filters cfg s.
Proof.
  cbv zeta. unfold _apply_filters.
  destruct (filter_loop cfg scores []) as (kept & Hrun & Hsub & Hall & Hin).
  rewrite Hrun. simpl. split; [exact Hsub |].
  intros s. split.
  - intros Hs. split; [eapply elem_of_sublist; eassumption |].
    rewrite Forall_forall in Hall. auto.
  - intros [Hs Hp]. auto.
Qed.

(** *** Composite scores *)

Lemma Forall2_imap {A B} (R : A -> B -> Prop) (f : nat -> A -> B)
    (l : list A) :
  (forall i x, l !! i = Some x -> R x (f i x)) -> Forall2 R l (imap f l).
Proof.
  revert f. induction l as [| x l IH]; intros f Hf; simpl; constructor.
  - apply (Hf 0%nat). reflexivity.
  - apply IH. intros i y Hy. apply (Hf (S i)). exact Hy.
Qed.






(** *** Ranks and order *)

Lemma insert_by_value_perm x l : insert_by_value x l ≡ₚ x :: l.
Proof.
  induction l as [| y l IH]; simpl; [reflexivity |].
  destruct (Qle_bool (snd x) (snd y)); [reflexivity |].
  rewrite IH. apply Permutation_swap.
Qed.

Lemma sorted_by_value_perm l : sorted_by_value l ≡ₚ l.
Proof.
  induction l as [| x l IH]; simpl; [reflexivity |].
  rewrite insert_by_value_perm, IH. reflexivity.
Qed.

Lemma fst_enumerate_from {A} (k : nat) (l : list A) :
  fst <$> enumerate_from k l = seq k (length l).
Proof.
  revert k. induction l as [| x l IH]; intros k; simpl; [reflexivity |].
  rewrite IH. reflexivity.
Qed.

Lemma sorted_indices_nodup (values : list Q) :
  NoDup (fst <$> sorted_by_value (enumerate values)).
Proof.
  rewrite sorted_by_value_perm. unfold enumerate.
  rewrite fst_enumerate_from. apply NoDup_seq.
Qed.

Lemma assign_ranks_untouched n (l : list (nat * Q)) start acc i :
  i ∉ fst <$> l ->
  foldl (assign_rank n) acc (enumerate_from start l) !! i = acc !! i.
Proof.
  revert start acc. induction l as [| [i0 v0] l IH]; intros start acc Hi;
    simpl; [reflexivity |].
  rewrite fmap_cons, not_elem_of_cons in Hi. destruct Hi as [Hne Hi].
  rewrite IH by exact Hi. simpl in Hne.
  apply list_lookup_insert_ne. congruence.
Qed.

Lemma assign_ranks_lookup n (l : list (nat * Q)) start acc k i v :
  NoDup (fst <$> l) ->
  l !! k = Some (i, v) ->
  (i < length acc)%nat ->
  foldl (assign_rank n) acc (enumerate_from start l) !! i
  = Some (inject_Z (Z.of_nat (start + k))
          / inject_Z (Z.max (Z.of_nat n - 1) 1)).
Proof.
  revert start acc k.
  induction l as [| [i0 v0] l IH]; intros start acc k Hnd Hk Hi;
    [discriminate |].
  rewrite fmap_cons in Hnd. apply NoDup_cons in Hnd as [Hfresh Hnd].
  destruct k as [| k]; simpl in Hk.
  - injection Hk as -> ->. simpl.
    rewrite assign_ranks_untouched by exact Hfresh.
    rewrite Nat.add_0_r. apply list_lookup_insert_eq, Hi.
  - simpl. rewrite (IH (S start) _ k Hnd Hk).
    + do 3 f_equal. lia.
    + rewrite length_insert. exact Hi.
Qed.

Lemma StronglySorted_lookup_lt {A} (R : A -> A -> Prop) (l : list A)
    a b x y :
  StronglySorted R l ->
  l !! a = Some x -> l !! b = Some y -> (a < b)%nat -> R x y.
Proof.
  intros Hs. revert a b.
  induction Hs as [| z l Hs IH Hall]; intros a b Ha Hb Hlt; [discriminate |].
  destruct b as [| b]; [lia |]. simpl in Hb.
  destruct a as [| a]; simpl in Ha.
  - injection Ha as ->. rewrite Forall_forall in Hall.
    eapply Hall, list_elem_of_lookup_2, Hb.
  - eapply IH; [exact Ha | exact Hb | lia].
Qed.

Lemma precedes_asymmetric x y : precedes x y -> precedes y x -> False.
Proof.
  unfold precedes. intros [H1 | [H1 H1']] [H2 | [H2 H2']]; try lra; lia.
Qed.

Lemma rank_fraction_lt (a b d : Z) :
  (a < b)%Z -> (0 < d)%Z ->
  inject_Z a / inject_Z d < inject_Z b / inject_Z d.
Proof.
  intros Hab Hd. unfold Qdiv.
  apply Qmult_lt_compat_r.
  - apply Qinv_lt_0_compat. unfold Qlt. simpl. lia.
  - unfold Qlt. simpl. lia.
Qed.

(** X17: the ranks follow the values: of two candidates the one with the
    larger value has the strictly larger rank, and of two candidates with
    equal values the later one in the list has the strictly larger rank;
    so no two candidates share a rank. *)
Theorem percentile_rank_follows_order (values : list Q) i j vi vj :
  values !! i = Some vi ->
  values !! j = Some vj ->
  vi < vj \/ (vi == vj /\ (i < j)%nat) ->
  exists ri rj,
    percentile_rank (length values) values !! i = Some ri
    /\ percentile_rank (length values) values !! j = Some rj
    /\ ri < rj.
Proof.
  intros Hi Hj Hord.
  set (sorted_vals := sorted_by_value (enumerate values)).
  assert (Hmem : forall a va, values !! a = Some va ->
                              exists k, sorted_vals !! k = Some (a, va)).
  { intros a va Ha. apply list_elem_of_lookup_1.
    subst sorted_vals. rewrite elem_of_sorted_by_value.
    apply elem_of_enumerate_from. exists a. auto. }
  destruct (Hmem i vi Hi) as (ki & Hki).
  destruct (Hmem j vj Hj) as (kj & Hkj).
  pose proof (sorted_indices_nodup values) as Hnd.
  pose proof (sorted_enumerate_from 0 values) as Hsorted.
  fold (enumerate values) in Hsorted. fold sorted_vals in Hnd, Hsorted.
  assert (Hlen : forall a va, values !! a = Some va ->
                              (a < length (replicate (length values) (0 : Q)))%nat).
  { intros a va Ha. rewrite length_replicate. eapply lookup_lt_Some, Ha. }
  rewrite percentile_rank_unfold. fold sorted_vals. unfold enumerate.
  rewrite (assign_ranks_lookup _ _ 0 _ ki i vi Hnd Hki (Hlen _ _ Hi)).
  rewrite (assign_ranks_lookup _ _ 0 _ kj j vj Hnd Hkj (Hlen _ _ Hj)).
  eexists _, _. split; [reflexivity |]. split; [reflexivity |].
  apply rank_fraction_lt; [| lia].
  assert (Hp : precedes (i, vi) (j, vj)) by exact Hord.
  destruct (Nat.lt_trichotomy ki kj) as [Hlt | [Heq | Hgt]]; [lia | |].
  - subst kj. rewrite Hki in Hkj. injection Hkj as <- <-.
    exfalso. eapply precedes_asymmetric; eassumption.
  - exfalso. eapply precedes_asymmetric; [exact Hp |].
    eapply (StronglySorted_lookup_lt precedes sorted_vals kj ki);
      eassumption.
Qed.

Lemma percentile_rank_follows_order_witness :
  exists ri rj,
    percentile_rank 4 [5; 7; 7; 1] !! 1%nat = Some ri
    /\ percentile_rank 4 [5; 7; 7; 1] !! 2%nat = Some rj
    /\ ri < rj.
Proof.
  apply (percentile_rank_follows_order [5; 7; 7; 1] 1 2 7 7).
  - reflexivity.
  - reflexivity.
  - right. split; [reflexivity | lia].
Defined.

(** *** Sector diversity *)

Lemma diversity_state cap scores :
  counts_agree cap (foldl (diversity_step cap) (∅, []) scores).
Proof.
  apply diversity_loop. intros sec. unfold sector_count. simpl.
  rewrite lookup_empty. simpl. split; [reflexivity | lia].
Qed.

Lemma diversity_snoc cap scores s :
  _apply_sector_diversity (scores ++ [s]) cap
  = let kept := _apply_sector_diversity scores cap in
    if (Z.of_nat (sector_count (StockScore.sector s) kept) <? cap)%Z
    then kept ++ [s] else kept.
Proof.
  unfold _apply_sector_diversity. rewrite foldl_snoc.
  pose proof (diversity_state cap scores) as Hagree.
  destruct (foldl (diversity_step cap) (∅, []) scores) as [counts kept].
  destruct (Hagree (StockScore.sector s)) as [Hcount _]. simpl in Hcount.
  unfold diversity_step. cbv zeta. simpl. rewrite Hcount.
  destruct (_ <? _)%Z; reflexivity.
Qed.

Lemma diversity_count_min cap scores sec :
  Z.of_nat (sector_count sec (_apply_sector_diversity scores cap))
  = Z.min (Z.of_nat (sector_count sec scores)) (Z.max 0 cap).
Proof.
  induction scores as [| s scores IH] using rev_ind.
  - unfold sector_count. simpl. lia.
  - rewrite diversity_snoc. cbv zeta.
    rewrite (sector_count_snoc sec scores s).
    destruct (Z.ltb_spec
                (Z.of_nat (sector_count (StockScore.sector s)
                             (_apply_sector_diversity scores cap))) cap)
      as [Hroom | Hfull].
    + rewrite sector_count_snoc.
      destruct (decide (StockScore.sector s = sec)) as [<- | Hne]; lia.
    + destruct (decide (StockScore.sector s = sec)) as [<- | Hne]; lia.
Qed.

(** X18: the diversity pass keeps of every sector as many candidates as
    the cap allows: the number kept is the smaller of the number present
    and the cap (0 for a cap that is not positive), so a candidate is only
    dropped from a sector that is full, and a cap that is not positive
    leaves no candidate at all. *)
Theorem diversity_keeps_up_to_the_cap
    (scores : list StockScore.t) (max_per_sector : Z) :
  let diverse := _apply_sector_diversity scores max_per_sector in
  (forall sec,
      Z.of_nat (sector_count sec diverse)
      = Z.min (Z.of_nat (sector_count sec scores)) (Z.max 0 max_per_sector))
  /\ ((max_per_sector <= 0)%Z -> diverse = []).
Proof.
  cbv zeta. split; [intros sec; apply diversity_count_min |].
  intros Hcap.
  destruct (_apply_sector_diversity scores max_per_sector) as [| s l] eqn:Hd;
    [reflexivity |].
  pose proof (diversity_count_min max_per_sector scores (StockScore.sector s))
    as Hmin.
  rewrite Hd in Hmin. unfold sector_count at 1 in Hmin.
  rewrite filter_cons_True in Hmin by reflexivity. simpl in Hmin. lia.
Qed.

Lemma sector_count_app sec l k :
  sector_count sec (l ++ k) = (sector_count sec l + sector_count sec k)%nat.
Proof. unfold sector_count. rewrite filter_app, length_app. reflexivity. Qed.

(** X19: when no sector has more candidates than the cap, the diversity
    pass returns the list as it is. *)
Theorem diversity_without_crowding
    (scores : list StockScore.t) (max_per_sector : Z) :
  (forall s, s ∈ scores ->
             (Z.of_nat (sector_count (StockScore.sector s) scores)
              <= max_per_sector)%Z) ->
  _apply_sector_diversity scores max_per_sector = scores.
Proof.
  induction scores as [| s scores IH] using rev_ind; intros Hroom;
    [reflexivity |].
  rewrite diversity_snoc. cbv zeta.
  rewrite IH.
  - pose proof (Hroom s) as Hs. rewrite sector_count_app in Hs.
    unfold sector_count at 2 in Hs.
    rewrite filter_cons_True in Hs by reflexivity. simpl in Hs.
    destruct (Z.ltb_spec
                (Z.of_nat (sector_count (StockScore.sector s) scores))
                max_per_sector) as [_ | Hfull]; [reflexivity |].
    specialize (Hs ltac:(apply elem_of_app; right; left)). lia.
  - intros s' Hs'. specialize (Hroom s' ltac:(apply elem_of_app; left; exact Hs')).
    rewrite sector_count_app in Hroom. lia.
Qed.

Lemma diversity_without_crowding_witness :
  _apply_sector_diversity
    [StockScore.mk "A" "A" "Tech" 0 0 0 0 0 0 0 false;
     StockScore.mk "B" "B" "Banks" 0 0 0 0 0 0 0 false;
     StockScore.mk "C" "C" "Tech" 0 0 0 0 0 0 0 false] 2
  = [StockScore.mk "A" "A" "Tech" 0 0 0 0 0 0 0 false;
     StockScore.mk "B" "B" "Banks" 0 0 0 0 0 0 0 false;
     StockScore.mk "C" "C" "Tech" 0 0 0 0 0 0 0 false].
Proof.
  apply diversity_without_crowding.
  intros s Hs. apply list_elem_of_In in Hs. simpl in Hs.
  destruct Hs as [<- | [<- | [<- | []]]]; vm_compute; discriminate.
Defined.

(** *** Metrics at the edges *)

Lemma length_pct_change close :
  length (pct_change close) = (length close - 1)%nat.
Proof.
  induction close as [| c0 [| c1 rest] IH]; simpl in *; try reflexivity.
  rewrite IH. lia.
Qed.

(** X20: a history of at most two closes gets the sentinel volatility 999
    (the standard deviation is not consulted), and its risk-adjusted
    return is the annualised return less the risk-free rate, over 999; a
    history of at most one close has return 0 and so a negative
    risk-adjusted return. *)
Theorem short_history_gets_the_sentinel
    (series_std : list Q -> Q) (sqrt_252 : Q) (etf_symbols : list string)
    (symbol : string) (info : option ticker_info) (close volume : list Q) :
  (length close <= 2)%nat ->
  let s :=
    _calculate_metrics series_std sqrt_252 etf_symbols symbol info
      close volume in
  StockScore.volatility s = 999
  /\ StockScore.sharpe_ratio s
     == (StockScore.return_90d s * (365 / 90) - RISK_FREE_RATE) / 999
  /\ ((length close <= 1)%nat ->
      StockScore.return_90d s = 0 /\ StockScore.sharpe_ratio s < 0).
Proof.
  intros Hlen. cbv zeta. unfold _calculate_metrics.
  cbn [StockScore.return_90d StockScore.volatility StockScore.sharpe_ratio].
  rewrite length_pct_change.
  assert (Hshort : (1 <? length close - 1)%nat = false)
    by (apply Nat.ltb_ge; lia).
  rewrite Hshort. split; [reflexivity |].
  split; [apply sharpe_positive; reflexivity |].
  intros Hone.
  assert (Hone' : (1 <? length close)%nat = false)
    by (apply Nat.ltb_ge; lia).
  rewrite Hone'. split; [reflexivity |]. vm_compute. reflexivity.
Qed.

(** X21: the sector and the market capitalisation of a candidate when the
    metadata is missing: an ETF of the universe file is always of sector
    "ETF", whatever the lookup answers; any other symbol is of sector
    "Unknown" when the lookup fails or names no sector; and the market
    capitalisation is 0 when the lookup fails or reports none. *)
Theorem missing_metadata_defaults
    (series_std : list Q -> Q) (sqrt_252 : Q) (etf_symbols : list string)
    (symbol : string) (info : option ticker_info) (close volume : list Q) :
  let s :=
    _calculate_metrics series_std sqrt_252 etf_symbols symbol info
      close volume in
  StockScore.symbol s = symbol
  /\ (StockScore.is_etf s = true <-> symbol ∈ etf_symbols)
  /\ (StockScore.is_etf s = true -> StockScore.sector s = "ETF"%string)
  /\ (StockScore.is_etf s = false ->
      (info = None \/ exists i, info = Some i /\ info_sector i = None) ->
      StockScore.sector s = "Unknown"%string)
  /\ ((info = None \/ exists i, info = Some i /\ marketCap i = None) ->
      StockScore.market_cap s = 0).
Proof.
  cbv zeta. unfold _calculate_metrics.
  cbn [StockScore.symbol StockScore.is_etf StockScore.sector
       StockScore.market_cap].
  split; [reflexivity |].
  split; [apply bool_decide_eq_true |].
  split.
  - intros ->. destruct info; reflexivity.
  - split.
    + intros -> [-> | (i & -> & ->)]; reflexivity.
    + intros [-> | (i & -> & ->)]; reflexivity.
Qed.

(** *** The selection *)

Lemma elem_of_insert_by_score x l z :
  z ∈ insert_by_score x l <-> z = x \/ z ∈ l.
Proof.
  induction l as [| y l IH]; simpl.
  - rewrite list_elem_of_singleton, elem_of_nil. tauto.
  - destruct (Qle_bool _ _).
    + rewrite elem_of_cons. reflexivity.
    + rewrite !elem_of_cons, IH. tauto.
Qed.

Lemma elem_of_sort_by_score l z : z ∈ sort_by_score l <-> z ∈ l.
Proof.
  induction l as [| x l IH]; simpl; [reflexivity |].
  rewrite elem_of_insert_by_score, elem_of_cons, IH. reflexivity.
Qed.

Lemma insert_by_score_sorted x l :
  StronglySorted by_score_desc l ->
  StronglySorted by_score_desc (insert_by_score x l).
Proof.
  induction l as [| y l IH]; simpl; intros Hs.
  - repeat constructor.
  - pose proof Hs as Hs'.
    apply StronglySorted_cons in Hs' as [Hy Hl].
    destruct (Qle_bool _ _) eqn:Hc.
    + apply Qle_bool_iff in Hc. apply StronglySorted_cons.
      split; [| exact Hs].
      constructor; [exact Hc |].
      eapply Forall_impl; [exact Hy |].
      intros z Hz. unfold by_score_desc in *. lra.
    + apply Qle_bool_gt in Hc. apply StronglySorted_cons.
      split; [| apply IH, Hl].
      apply Forall_forall. intros z Hz.
      apply elem_of_insert_by_score in Hz as [-> | Hz].
      * unfold by_score_desc. lra.
      * rewrite Forall_forall in Hy. auto.
Qed.

Lemma sort_by_score_sorted l : StronglySorted by_score_desc (sort_by_score l).
Proof.
  induction l as [| x l IH]; simpl; [constructor |].
  apply insert_by_score_sorted, IH.
Qed.

Lemma StronglySorted_sublist {A} (R : A -> A -> Prop) (k l : list A) :
  k `sublist_of` l -> StronglySorted R l -> StronglySorted R k.
Proof.
  induction 1 as [| x k l Hsub IH | x k l Hsub IH]; intros Hs.
  - constructor.
  - apply StronglySorted_cons in Hs as [Hx Hs].
    apply StronglySorted_cons. split; [| auto].
    eapply ExecutorGuarantees.Forall_sublist; eassumption.
  - apply StronglySorted_cons in Hs as [_ Hs]. auto.
Qed.

Lemma slice_to_sublist {A} (n : Z) (l : list A) : slice_to n l `sublist_of` l.
Proof. unfold slice_to. destruct (n <? 0)%Z; apply sublist_take. Qed.

Lemma sector_count_sublist sec k l :
  k `sublist_of` l -> (sector_count sec k <= sector_count sec l)%nat.
Proof.
  unfold sector_count.
  induction 1 as [| x k l Hsub IH | x k l Hsub IH]; [reflexivity | |].
  - rewrite !filter_cons. destruct (decide _); simpl; lia.
  - rewrite filter_cons. destruct (decide _); simpl; lia.
Qed.

Lemma calculate_metrics_identity
    (series_std : list Q -> Q) (sqrt_252 : Q) (etf_symbols : list string)
    (symbol : string) (info : option ticker_info) (close volume : list Q) :
  let s :=
    _calculate_metrics series_std sqrt_252 etf_symbols symbol info
      close volume in
  StockScore.symbol s = symbol
  /\ (StockScore.is_etf s = true <-> symbol ∈ etf_symbols)
  /\ (StockScore.is_etf s = true -> StockScore.sector s = "ETF"%string).
Proof.
  cbv zeta. unfold _calculate_metrics.
  cbn [StockScore.symbol StockScore.is_etf StockScore.sector].
  split; [reflexivity |]. split; [apply bool_decide_eq_true |].
  intros ->. destruct info; reflexivity.
Qed.

Lemma rank_and_score_same (prefer : bool) (scores : list StockScore.t) :
  Forall2 same_candidate scores (_rank_and_score prefer scores).
Proof.
  unfold _rank_and_score.
  destruct (length scores =? 0)%nat eqn:Hn.
  - apply Nat.eqb_eq, nil_length_inv in Hn. subst scores. constructor.
  - apply Forall2_imap. intros i s _. unfold same_candidate. simpl. tauto.
Qed.

Lemma diversity_sublist scores cap :
  _apply_sector_diversity scores cap `sublist_of` scores.
Proof.
  unfold _apply_sector_diversity.
  destruct (diversity_loop cap scores (∅, []))
    as (_ & kept & Heq & Hsub); [| simpl in Heq; rewrite Heq; exact Hsub].
  intros sec. unfold sector_count. simpl. rewrite lookup_empty. simpl.
  split; [reflexivity | lia].
Qed.

Lemma same_candidate_keeps (cfg : config) (universe etfs : list string)
    (l l' : list StockScore.t) :
  Forall2 same_candidate l l' ->
  Forall (fun s =>
            (StockScore.symbol s ∈ universe
             /\ (StockScore.is_etf s = true ->
                 StockScore.sector s = "ETF"%string)
             /\ (StockScore.is_etf s = true <-> StockScore.symbol s ∈ etfs))
            /\ passes_filters cfg s) l ->
  Forall (fun s =>
            (StockScore.symbol s ∈ universe
             /\ (StockScore.is_etf s = true ->
                 StockScore.sector s = "ETF"%string)
             /\ (StockScore.is_etf s = true <-> StockScore.symbol s ∈ etfs))
            /\ passes_filters cfg s) l'.
Proof.
  induction 1 as [| s s' l l' Hs _ IH]; intros Hl; constructor.
  - apply Forall_cons in Hl as [Hhead _].
    destruct Hs as (Hsym & _ & Hsec & Hcap & Hvol & _ & _ & _ & _ & Hetf).
    unfold passes_filters in *. rewrite Hsym, Hsec, Hcap, Hvol, Hetf.
    exact Hhead.
  - apply IH. apply Forall_cons in Hl as [_ Hl]. exact Hl.
Qed.

Section Picker.
Variable series_std : list Q -> Q.
Variable sqrt_252 : Q.
Variable cfg : config.
Variable etfs stocks : list string.
Variable _fetch_market_data :
  list string -> Z -> gmap string (list (Q * Q)).
Variable ticker_info_of : string -> option ticker_info.
Variable num_picks_arg : Z.

Let picks :=
  pick_stocks series_std sqrt_252 cfg etfs stocks _fetch_market_data
    ticker_info_of num_picks_arg.

(** What holds of every candidate from the metrics loop on, whatever its
    composite score is. *)
Let from_universe (s : StockScore.t) : Prop :=
  StockScore.symbol s ∈ get_stock_universe etfs stocks
  /\ (StockScore.is_etf s = true -> StockScore.sector s = "ETF"%string)
  /\ (StockScore.is_etf s = true <-> StockScore.symbol s ∈ etfs).

Lemma metrics_loop hist_data universe acc :
  Forall from_universe acc ->
  (forall sym, sym ∈ universe -> sym ∈ get_stock_universe etfs stocks) ->
  Forall from_universe
         (foldl (metrics_step series_std sqrt_252 etfs ticker_info_of
                   hist_data) acc universe).
Proof.
  revert acc. induction universe as [| sym universe IH]; intros acc Hacc Hin;
    simpl; [exact Hacc |].
  apply IH; [| intros s Hs; apply Hin; right; exact Hs].
  unfold metrics_step.
  destruct (hist_data !! sym) as [[| row df] |]; try exact Hacc.
  apply Forall_app. split; [exact Hacc |]. constructor; [| constructor].
  set (s := _calculate_metrics _ _ _ _ _ _ _).
  destruct (calculate_metrics_identity series_std sqrt_252
              (get_etf_symbols etfs) sym (ticker_info_of sym)
              (fst <$> row :: df) (snd <$> row :: df))
    as (Hsym & Hetf & Hsector).
  fold s in Hsym, Hetf, Hsector.
  split; [rewrite Hsym; apply Hin; left |].
  split; [exact Hsector |]. rewrite Hsym. exact Hetf.
Qed.

Lemma picks_origin :
  exists ranked,
    picks `sublist_of` sort_by_score ranked
    /\ (sector_diversity cfg = true ->
        picks `sublist_of`
          _apply_sector_diversity (sort_by_score ranked)
            (max_per_sector cfg))
    /\ Forall (fun s => from_universe s /\ passes_filters cfg s) ranked.
Proof.
  subst picks. unfold pick_stocks.
  set (scores0 := foldl _ [] (get_stock_universe etfs stocks)).
  assert (H0 : Forall from_universe scores0).
  { subst scores0. apply metrics_loop; [constructor | auto]. }
  assert (H1 : Forall (fun s => from_universe s /\ passes_filters cfg s)
                      (_apply_filters cfg scores0)).
  { unfold _apply_filters.
    destruct (filter_loop cfg scores0 []) as (kept & Hrun & Hsub & Hall & _).
    rewrite Hrun. simpl. apply Forall_forall. intros s Hs.
    rewrite Forall_forall in H0, Hall.
    split; [eapply H0, elem_of_sublist; eassumption | auto]. }
  set (scores1 := _apply_filters cfg scores0) in *.
  destruct scores1 as [| s1 rest] eqn:Hscores1.
  { exists []. split; [constructor |]. split; [| constructor].
    intros _. apply sublist_nil_l. }
  rewrite <- Hscores1 in *. clear Hscores1.
  exists (_rank_and_score (prefer_etfs cfg) scores1).
  split; [| split].
  - destruct (sector_diversity cfg).
    + etrans; [apply slice_to_sublist |].
      apply diversity_sublist.
    + apply slice_to_sublist.
  - intros ->. apply slice_to_sublist.
  - eapply same_candidate_keeps; [apply rank_and_score_same | exact H1].
Qed.

Lemma picks_sorted_from_universe :
  StronglySorted by_score_desc picks
  /\ Forall (fun s => from_universe s /\ passes_filters cfg s) picks.
Proof.
  destruct picks_origin as (ranked & Hsub & _ & Hranked). split.
  - eapply StronglySorted_sublist; [exact Hsub | apply sort_by_score_sorted].
  - apply Forall_forall. intros s Hs.
    rewrite Forall_forall in Hranked. apply Hranked.
    apply elem_of_sort_by_score. eapply elem_of_sublist; eassumption.
Qed.

(** X22: the picks are at most as many as asked for (the configured number
    when 0 is asked for), they are in descending order of composite score,
    and each of them is a symbol of the universe that passed the
    filters. *)
Theorem picks_are_few_sorted_and_eligible :
  let n := if (num_picks_arg =? 0)%Z then num_picks cfg else num_picks_arg in
  ((0 <= n)%Z -> (Z.of_nat (length picks) <= n)%Z)
  /\ StronglySorted by_score_desc picks
  /\ Forall (fun s =>
               StockScore.symbol s ∈ get_stock_universe etfs stocks
               /\ passes_filters cfg s) picks.
Proof.
  cbv zeta. split; [| split].
  - intros Hn. subst picks. unfold pick_stocks.
    destruct (_apply_filters cfg _) as [| s1 rest]; [simpl; lia |].
    cbv zeta. unfold slice_to.
    destruct (Z.ltb_spec
                (if (num_picks_arg =? 0)%Z then num_picks cfg
                 else num_picks_arg) 0) as [Hneg | _]; [lia |].
    rewrite length_take. lia.
  - apply picks_sorted_from_universe.
  - destruct picks_sorted_from_universe as [_ Hall].
    eapply Forall_impl; [exact Hall |].
    intros s [[Hu _] Hp]. auto.
Qed.

Lemma filter_length_le {A} (P R : A -> Prop)
    `{forall x, Decision (P x)} `{forall x, Decision (R x)} (l : list A) :
  Forall (fun x => P x -> R x) l ->
  (length (filter P l) <= length (filter R l))%nat.
Proof.
  induction 1 as [| x l Hx _ IH]; [reflexivity |].
  rewrite !filter_cons.
  destruct (decide (P x)) as [Hp | Hnp].
  - rewrite decide_True by auto. simpl. lia.
  - destruct (decide (R x)); simpl; lia.
Qed.

(** X23: with sector diversity switched on, no sector has more than
    [max_per_sector] picks; since every ETF of the universe file is of the
    one sector "ETF", at most [max_per_sector] ETFs are picked, whether or
    not ETFs are preferred. *)
Theorem picks_respect_the_sector_cap :
  sector_diversity cfg = true ->
  (forall s, s ∈ picks ->
             (Z.of_nat (sector_count (StockScore.sector s) picks)
              <= max_per_sector cfg)%Z)
  /\ (Z.of_nat (length (filter (fun s => StockScore.is_etf s = true) picks))
      <= Z.max 0 (max_per_sector cfg))%Z.
Proof.
  intros Hon.
  destruct picks_origin as (ranked & _ & Hsub & _).
  specialize (Hsub Hon).
  assert (Hcap : forall sec,
             (Z.of_nat (sector_count sec picks)
              <= Z.max 0 (max_per_sector cfg))%Z).
  { intros sec.
    pose proof (sector_count_sublist sec _ _ Hsub) as Hle.
    pose proof (diversity_count_min (max_per_sector cfg)
                  (sort_by_score ranked) sec) as Hmin.
    lia. }
  split.
  - intros s Hs. specialize (Hcap (StockScore.sector s)).
    assert (Hone : (1 <= sector_count (StockScore.sector s) picks)%nat).
    { unfold sector_count.
      assert (Hf : s ∈ filter (fun s' => StockScore.sector s'
                                         = StockScore.sector s) picks)
        by (apply list_elem_of_filter; auto).
      destruct (filter _ picks); [inversion Hf | simpl; lia]. }
    lia.
  - specialize (Hcap "ETF"%string).
    destruct picks_sorted_from_universe as [_ Hall].
    assert (Hle : (length (filter (fun s => StockScore.is_etf s = true) picks)
                   <= sector_count "ETF" picks)%nat).
    { unfold sector_count. apply filter_length_le.
      eapply Forall_impl; [exact Hall |].
      intros s [(_ & Hsec & _) _]. exact Hsec. }
    lia.
Qed.

End Picker.

(** *** Concrete selections *)

Lemma filters_and_picks_on_the_sample :
  StockScore.symbol <$> sample_picks = ["RY"; "ZAG"; "VFV"]%string
  /\ StockScore.sector <$> sample_picks = ["Unknown"; "ETF"; "ETF"]%string.
Proof. split; vm_compute; reflexivity. Qed.

Lemma picks_are_few_sorted_and_eligible_witness :
  (Z.of_nat (length sample_picks) <= 7)%Z.
Proof.
  apply (picks_are_few_sorted_and_eligible (fun _ => 1 # 100) 16
           default_config ["XIU"; "VFV"; "ZAG"]%string ["RY"]%string
           sample_history (fun _ => None) 0).
  simpl. lia.
Defined.

Lemma picks_respect_the_sector_cap_witness :
  (Z.of_nat (length (filter (fun s => StockScore.is_etf s = true)
                            sample_picks)) <= Z.max 0 2)%Z.
Proof.
  apply (picks_respect_the_sector_cap (fun _ => 1 # 100) 16
           default_config ["XIU"; "VFV"; "ZAG"]%string ["RY"]%string
           sample_history (fun _ => None) 0).
  reflexivity.
Defined.

Lemma short_history_gets_the_sentinel_witness :
  StockScore.volatility
    (_calculate_metrics (fun _ => 0) 0 [] "A" None [100; 150] [1000; 1000])
  = 999.
Proof.
  apply (short_history_gets_the_sentinel (fun _ => 0) 0 [] "A" None
           [100; 150] [1000; 1000]).
  simpl. lia.
Defined.

End StockPickerGuarantees.

(** ** The dry-run simulation *)

Module DryRunGuarantees.
Import DryRun.

Section Simulation.
Variable now_isoformat : nat -> string.
Variable prices : gmap string Q.

Let sell_step := sell_step now_isoformat prices.
Let buy_step := buy_step now_isoformat prices.

Lemma foldl_invariant {A B} (P : A -> Prop) (f : A -> B -> A)
    (l : list B) (a : A) :
  (forall a b, P a -> P (f a b)) -> P a -> P (foldl f a l).
Proof.
  intros Hstep. revert a. induction l as [| b l IH]; intros a Ha; simpl;
    auto.
Qed.

Lemma buy_step_solvent sim order :
  0 <= _simulated_cash sim -> 0 <= _simulated_cash (buy_step sim order).
Proof.
  intros Hc. subst buy_step. unfold DryRun.buy_step.
  destruct (Qltb _ _) eqn:Hshort; [exact Hc |].
  apply Qltb_ge in Hshort. cbn [_simulated_cash].
  apply decimal_round_nonneg. lra.
Qed.

Lemma sell_loop_cash sells sim :
  Forall (fun o => 0 <= simulated_value prices o) sells ->
  0 <= _simulated_cash sim ->
  0 <= _simulated_cash (foldl sell_step sim sells).
Proof.
  intros Hall. revert sim.
  induction Hall as [| o sells Ho _ IH]; intros sim Hc; simpl;
    [exact Hc |].
  apply IH. subst sell_step. unfold DryRun.sell_step.
  cbn [_simulated_cash]. apply decimal_round_nonneg. lra.
Qed.

(** X25: a simulation that starts with cash that is not negative and sells
    nothing at a negative value never ends with negative cash: a buy that
    the cash does not cover is left out. *)
Theorem simulation_stays_solvent
    (sell_orders buy_orders : list OrderRequest.t) (current_cash : Q) :
  0 <= current_cash ->
  Forall (fun o => 0 <= simulated_value prices o) sell_orders ->
  0 <= _simulated_cash
         (simulate_orders now_isoformat prices sell_orders buy_orders
            current_cash).
Proof.
  intros Hcash Hsells. unfold simulate_orders.
  apply (foldl_invariant (fun sim => 0 <= _simulated_cash sim));
    [apply buy_step_solvent |].
  apply (sell_loop_cash sell_orders
           {| _simulated_orders := []; _simulated_cash := current_cash |}
           Hsells).
  exact Hcash.
Qed.

Lemma sell_loop_entries sells sim :
  exists sold,
    _simulated_orders (foldl sell_step sim sells)
    = _simulated_orders sim ++ sold
    /\ Forall2 (fun o e =>
                  sim_action e = "SELL"%string
                  /\ sim_symbol e = OrderRequest.symbol o
                  /\ sim_quantity e = OrderRequest.quantity o
                  /\ sim_value e = float_of_decimal (simulated_value prices o)) sells sold.
Proof.
  revert sim. induction sells as [| o sells IH]; intros sim; simpl.
  - exists []. rewrite app_nil_r. split; [reflexivity | constructor].
  - destruct (IH (sell_step sim o)) as (sold & Hrun & Hall).
    exists (entry now_isoformat prices "SELL" o sim :: sold).
    rewrite Hrun. subst sell_step. unfold DryRun.sell_step. simpl.
    rewrite <- app_assoc. split; [reflexivity |].
    constructor; [simpl; auto | exact Hall].
Qed.

Lemma buy_loop_entries buys sim :
  exists bought taken,
    _simulated_orders (foldl buy_step sim buys)
    = _simulated_orders sim ++ bought
    /\ taken `sublist_of` buys
    /\ Forall2 (fun o e =>
                  sim_action e = "BUY"%string
                  /\ sim_symbol e = OrderRequest.symbol o
                  /\ sim_quantity e = OrderRequest.quantity o
                  /\ sim_value e = float_of_decimal (simulated_value prices o)) taken bought.
Proof.
  revert sim. induction buys as [| o buys IH]; intros sim; simpl.
  - exists [], []. rewrite app_nil_r.
    split; [reflexivity |]. split; constructor.
  - destruct (IH (buy_step sim o)) as (bought & taken & Hrun & Hsub & Hall).
    rewrite Hrun. subst buy_step. unfold DryRun.buy_step.
    destruct (Qltb _ _).
    + exists bought, taken. split; [reflexivity |].
      split; [apply sublist_cons, Hsub | exact Hall].
    + exists (entry now_isoformat prices "BUY" o sim :: bought), (o :: taken).
      simpl. rewrite <- app_assoc. split; [reflexivity |].
      split; [apply sublist_skip, Hsub |].
      constructor; [simpl; auto | exact Hall].
Qed.

(** X26: the simulated orders are one SELL entry for every sell order, in
    their order, followed by BUY entries for some of the buy orders, in
    their order; each entry carries the symbol and the quantity of its
    order and, as a float, the value of the order at the simulated
    price. *)
Theorem simulation_lists_sells_then_buys
    (sell_orders buy_orders : list OrderRequest.t) (current_cash : Q) :
  exists sold bought taken,
    _simulated_orders
      (simulate_orders now_isoformat prices sell_orders buy_orders
         current_cash) = sold ++ bought
    /\ taken `sublist_of` buy_orders
    /\ Forall2 (fun o e =>
                  sim_action e = "SELL"%string
                  /\ sim_symbol e = OrderRequest.symbol o
                  /\ sim_quantity e = OrderRequest.quantity o
                  /\ sim_value e = float_of_decimal (simulated_value prices o))
               sell_orders sold
    /\ Forall2 (fun o e =>
                  sim_action e = "BUY"%string
                  /\ sim_symbol e = OrderRequest.symbol o
                  /\ sim_quantity e = OrderRequest.quantity o
                  /\ sim_value e = float_of_decimal (simulated_value prices o))
               taken bought.
Proof.
  unfold simulate_orders.
  destruct (sell_loop_entries sell_orders
              {| _simulated_orders := []; _simulated_cash := current_cash |})
    as (sold & Hsold & Hs).
  destruct (buy_loop_entries buy_orders
              (foldl sell_step
                 {| _simulated_orders := [];
                    _simulated_cash := current_cash |} sell_orders))
    as (bought & taken & Hbought & Hsub & Hb).
  exists sold, bought, taken.
  subst sell_step buy_step. rewrite Hbought, Hsold.
  split; [reflexivity |]. auto.
Qed.

End Simulation.

Lemma simulation_stays_solvent_witness :
  0 <= _simulated_cash
         (simulate_orders (fun _ => "now"%string) ∅
            [Executor.sell_order "A" 10 50]
            [Executor.sell_order "B" 100 20; Executor.sell_order "C" 3 7]
            100).
Proof.
  apply simulation_stays_solvent.
  - vm_compute. discriminate.
  - repeat constructor. vm_compute. discriminate.
Defined.

End DryRunGuarantees.

(** ** Quotes, security ids and the plan *)

Module MarketDataGuarantees.
Import MarketData Rebalancer RebalancerSpec RebalancerGuarantees.

Section Lookups.
Variable get_quote : nat -> string -> Q.
Variable resolve_security_id : nat -> string -> option string.

Lemma quote_loop symbols calls result :
  let result' := snd (foldl (quote_step get_quote) (calls, result) symbols) in
  forall sym,
    (forall p, result' !! sym = Some p ->
               result !! sym = Some p
               \/ (0 < p /\ sym ∈ symbols /\ exists k, p = get_quote k sym))
    /\ (result' !! sym = None -> result !! sym = None)
    /\ ((forall k, get_quote k sym <= 0) -> result' !! sym = result !! sym).
Proof.
  cbv zeta. revert calls result.
  induction symbols as [| s symbols IH]; intros calls result sym; simpl.
  - split; [auto |]. split; auto.
  - destruct (IH (S calls)
                (if Qltb 0 (get_quote calls s)
                 then <[s := get_quote calls s]> result else result) sym)
      as (Hsome & Hnone & Hnever).
    destruct (Qltb 0 (get_quote calls s)) eqn:Hpos.
    + apply Qltb_lt in Hpos. split; [| split].
      * intros p Hp. destruct (Hsome p Hp) as [Hold | (H0 & Hin & Hk)].
        -- destruct (decide (s = sym)) as [-> | Hne].
           ++ rewrite lookup_insert_eq in Hold. injection Hold as <-.
              right. split; [exact Hpos |]. split; [left | eauto].
           ++ rewrite lookup_insert_ne in Hold by exact Hne. auto.
        -- right. split; [exact H0 |]. split; [right; exact Hin | exact Hk].
      * intros Hn. specialize (Hnone Hn).
        destruct (decide (s = sym)) as [-> | Hne].
        -- rewrite lookup_insert_eq in Hnone. discriminate.
        -- rewrite lookup_insert_ne in Hnone by exact Hne. exact Hnone.
      * intros Hk. rewrite (Hnever Hk).
        destruct (decide (s = sym)) as [-> | Hne].
        -- specialize (Hk calls). lra.
        -- apply lookup_insert_ne, Hne.
    + split; [| split]; [| exact Hnone | exact Hnever].
      intros p Hp. destruct (Hsome p Hp) as [Hold | (H0 & Hin & Hk)];
        [auto |].
      right. split; [exact H0 |]. split; [right; exact Hin | exact Hk].
Qed.

(** X27: the bulk quotes hold only positive prices, each one an answer of
    [get_quote] for a symbol that was asked for; a symbol whose quote is
    never positive has no entry. *)
Theorem bulk_quotes_are_positive (symbols : list string) (sym : string) :
  (forall p, get_bulk_quotes get_quote symbols !! sym = Some p ->
             0 < p /\ sym ∈ symbols /\ exists k, p = get_quote k sym)
  /\ ((forall k, get_quote k sym <= 0) ->
      get_bulk_quotes get_quote symbols !! sym = None).
Proof.
  unfold get_bulk_quotes.
  destruct (quote_loop symbols 0 ∅ sym) as (Hsome & _ & Hnever).
  split.
  - intros p Hp. destruct (Hsome p Hp) as [Hempty | H]; [| exact H].
    rewrite lookup_empty in Hempty. discriminate.
  - intros Hk. rewrite (Hnever Hk). apply lookup_empty.
Qed.

Lemma bulk_quotes_positive_values symbols sym p :
  get_bulk_quotes get_quote symbols !! sym = Some p -> 0 < p.
Proof.
  unfold get_bulk_quotes.
  destruct (quote_loop symbols 0 ∅ sym) as (Hsome & _).
  intros Hp. destruct (Hsome p Hp) as [Hempty | (H & _)]; [| exact H].
  rewrite lookup_empty in Hempty. discriminate.
Qed.

(** X28: when the prices of a plan are the bulk quotes, a selected symbol
    of a portfolio of positive total value has a target exactly when it
    has a quote; the liquidation pass never supplies a target for a
    selected symbol. *)
Theorem quoted_symbols_get_targets
    (cfg : config) (selected_stocks : list StockScore.t)
    (current_positions : list Position.t) (cash_balance : Q)
    (security_ids : gmap string string) (sym : string) :
  let selected_symbols := StockScore.symbol <$> selected_stocks in
  let prices := get_bulk_quotes get_quote selected_symbols in
  0 < cash_balance + sum_market_value current_positions ->
  sym ∈ selected_symbols ->
  (exists t,
      t ∈ targets_of (calculate_targets cfg selected_stocks
                        current_positions cash_balance prices security_ids)
      /\ PortfolioTarget.symbol t = sym)
  <-> is_Some (prices !! sym).
Proof.
  cbv zeta. intros Htot Hsel.
  apply (proj2 (decimal_round_pos_iff _)) in Htot.
  fold (decimal_add cash_balance (sum_market_value current_positions))
    in Htot.
  assert (Hne : selected_stocks <> []).
  { intros ->. inversion Hsel. }
  destruct (plan_of_selection cfg selected_stocks current_positions
              cash_balance
              (get_bulk_quotes get_quote (StockScore.symbol <$> selected_stocks))
              security_ids Htot Hne) as (s & Hplan & Htargets).
  rewrite Hplan. simpl. rewrite Htargets. split.
  - intros (t & Hin & Hsym).
    apply elem_of_app in Hin as [Hin | Hin];
      apply list_elem_of_omap in Hin as (x & _ & Hx).
    + apply selected_target_symbol in Hx as [Hs Hp].
      subst x. rewrite Hsym in Hp.
      destruct (get_bulk_quotes _ _ !! sym); [eauto |].
      simpl in Hp. lra.
    + apply liquidation_target_inv in Hx as (Hnot & _ & Hs & _).
      rewrite Hs in Hsym. rewrite Hsym in Hnot. contradiction.
  - intros [p Hp].
    pose proof (bulk_quotes_positive_values _ _ _ Hp) as Hpos.
    edestruct (selected_target_some cfg
                 (get_bulk_quotes get_quote
                    (StockScore.symbol <$> selected_stocks))
                 security_ids) as (t & Ht).
    { rewrite Hp. simpl. exact Hpos. }
    exists t. split.
    + apply elem_of_app. left. apply list_elem_of_omap.
      exists sym. split; [exact Hsel | exact Ht].
    + apply selected_target_symbol in Ht as [Hs _]. exact Hs.
Qed.

Lemma resolve_loop symbols calls result sym :
  (forall k, resolve_security_id k sym = None) ->
  snd (foldl (resolve_step resolve_security_id) (calls, result) symbols)
    !! sym = result !! sym.
Proof.
  intros Hnever. revert calls result.
  induction symbols as [| s symbols IH]; intros calls result; simpl;
    [reflexivity |].
  rewrite IH.
  destruct (resolve_security_id calls s) as [id |] eqn:Hid; [| reflexivity].
  apply lookup_insert_ne. intros ->. rewrite Hnever in Hid. discriminate.
Qed.

(** X29: a selected symbol that could not be resolved has no entry in the
    security ids, and the planner does not stop at that: its target
    carries the empty security id. *)
Theorem unresolved_symbol_has_empty_id
    (cfg : config) (selected_stocks : list StockScore.t)
    (current_positions : list Position.t) (cash_balance : Q)
    (security_prices : gmap string Q) (t : PortfolioTarget.t) :
  let selected_symbols := StockScore.symbol <$> selected_stocks in
  let security_ids :=
    bulk_resolve_securities resolve_security_id selected_symbols in
  (forall k, resolve_security_id k (PortfolioTarget.symbol t) = None) ->
  PortfolioTarget.symbol t ∈ selected_symbols ->
  t ∈ targets_of (calculate_targets cfg selected_stocks current_positions
                    cash_balance security_prices security_ids) ->
  security_ids !! PortfolioTarget.symbol t = None
  /\ PortfolioTarget.security_id t = EmptyString.
Proof.
  cbv zeta. intros Hnever Hsel Hin.
  assert (Hnone : bulk_resolve_securities resolve_security_id
                    (StockScore.symbol <$> selected_stocks)
                    !! PortfolioTarget.symbol t = None).
  { unfold bulk_resolve_securities.
    rewrite resolve_loop by exact Hnever. apply lookup_empty. }
  split; [exact Hnone |].
  apply target_origin in Hin as [_ [(sym & tw & _ & Ht) | (p & _ & Hliq)]].
  - pose proof Ht as Hs. apply selected_target_symbol in Hs as [Hs _].
    apply selected_target_values in Ht as (_ & _ & Hid & _).
    rewrite Hid, <- Hs, Hnone. reflexivity.
  - apply liquidation_target_inv in Hliq as (Hnot & _ & Hs & _).
    rewrite Hs in Hsel. contradiction.
Qed.

End Lookups.

Lemma quoted_symbols_get_targets_witness :
  (exists t,
      t ∈ targets_of (calculate_targets default_config
                        [stock "A"; stock "B"] [] 1000
                        (get_bulk_quotes
                           (fun _ sym => if String.eqb sym "A" then 50 else 0)
                           ["A"; "B"]%string) ∅)
      /\ PortfolioTarget.symbol t = "A"%string)
  <-> is_Some (get_bulk_quotes
                 (fun _ sym => if String.eqb sym "A" then 50 else 0)
                 ["A"; "B"]%string !! "A"%string).
Proof.
  apply (quoted_symbols_get_targets
           (fun _ sym => if String.eqb sym "A" then 50 else 0)
           default_config [stock "A"; stock "B"] [] 1000 ∅ "A"%string).
  - vm_compute. reflexivity.
  - vm_compute. left.
Defined.

Lemma unresolved_symbol_has_empty_id_witness :
  exists t,
    head (targets_of (calculate_targets default_config [stock "A"] [] 1000
                        (quotes [("A"%string, 50)])
                        (bulk_resolve_securities (fun _ _ => None)
                           ["A"%string]))) = Some t
    /\ PortfolioTarget.symbol t = "A"%string
    /\ bulk_resolve_securities (fun _ _ => None) ["A"%string]
         !! PortfolioTarget.symbol t = None
    /\ PortfolioTarget.security_id t = EmptyString.
Proof.
  eexists. split; [vm_compute; reflexivity |]. split; [reflexivity |].
  apply (unresolved_symbol_has_empty_id (fun _ _ => None) default_config
           [stock "A"] [] 1000 (quotes [("A"%string, 50)])).
  - reflexivity.
  - vm_compute. left.
  - vm_compute. left.
Defined.

End MarketDataGuarantees.

(** ** Further concrete instances *)

Module Instances.

Lemma can_proceed_means_no_wait_witness :
  exists rl2 w2 kept,
    Executor.acquire Executor.failing_service
      (Executor.mk_limiter 6 3600 [0]) (Executor.mk_world 10 1)
      = Some (Ok tt, rl2, w2)
    /\ Executor._timestamps rl2 = kept ++ [Executor.clock w2]
    /\ kept `suffix_of` [0]
    /\ Executor.clock w2 = 10 + 0 + 0.
Proof.
  pose proof (ExecutorGuarantees.can_proceed_means_no_wait
                Executor.failing_service
                (Executor.mk_limiter 6 3600 [0]) (Executor.mk_world 10 0))
    as H.
  unfold Executor.can_proceed, Executor.remaining_capacity,
    Executor._prune_expired, Executor.time_time in H.
  cbn [Executor.clock Executor.reads Executor.elapsed
       Executor.failing_service Executor.still_clock
       Executor._timestamps Executor._window_seconds
       Executor._max_requests Executor.set_timestamps
       Executor.popleft_while] in H.
  change (Qltb 0 (10 + 0 - inject_Z 3600)) with false in H.
  cbn [Executor._timestamps Executor._max_requests
       Executor.set_timestamps] in H.
  destruct H as (_ & _ & _ & H).
  apply H. reflexivity.
Defined.

Lemma diversity_keeps_up_to_the_cap_witness :
  StockPicker._apply_sector_diversity StockPicker.sample_picks 0 = [].
Proof.
  apply (StockPickerGuarantees.diversity_keeps_up_to_the_cap
           StockPicker.sample_picks 0).
  lia.
Defined.

Lemma missing_metadata_defaults_witness :
  StockScore.sector
    (StockPicker._calculate_metrics (fun _ => 0) 0 ["XIU"%string]
       "XIU" (Some (StockPicker.mk_info None (Some "Funds"%string)))
       [100; 150] [1000; 1000])
  = "ETF"%string.
Proof.
  apply (StockPickerGuarantees.missing_metadata_defaults (fun _ => 0) 0
           ["XIU"%string] "XIU"
           (Some (StockPicker.mk_info None (Some "Funds"%string)))
           [100; 150] [1000; 1000]).
  reflexivity.
Defined.

Lemma bulk_quotes_are_positive_witness :
  MarketData.get_bulk_quotes
    (fun _ sym => if String.eqb sym "A" then 50 else 0)
    ["A"; "B"]%string !! "B"%string = None.
Proof.
  apply (MarketDataGuarantees.bulk_quotes_are_positive
           (fun _ sym => if String.eqb sym "A" then 50 else 0)
           ["A"; "B"]%string "B"%string).
  intros k. vm_compute. discriminate.
Defined.

End Instances.

